(** * Dynamic programming on a gridworld: policy_iteration.py

    A shallow embedding of [gym-gridworld/policy_iteration.py] and the
    properties of its evaluator, its greedy improver and its two control
    loops.

    Modelling choices.
    - numpy [float64] entries are idealised to exact rationals ([Qc]); the
      statements below are statements in exact arithmetic, and say nothing
      about rounding, infinities or NaN.
    - numpy arrays are mutable objects that live in a store ([heap]) and are
      passed around by reference ([loc]): [np.zeros] allocates, indexing
      reads, item and row assignment overwrite the stored object.  Arrays
      that never leave the function that creates them ([action_values], the
      difference [value_function - policy_value]) are plain lists.
    - Python exceptions are the [Raise] outcome.  The [while True] loops take
      a fuel argument that counts loop iterations and is independent of
      [max_steps]; [OutOfFuel] stands for a loop that is still running.
    - [1 / len(max_value_actions)] is Python 3's true division.
    - The environment class ([GridWorldEnv]) is imported from another
      package; it is taken as a record of what the code reads from it. *)

From Stdlib Require Import QArith Qcanon Field.
From stdpp Require Import base numbers list gmap strings.

(** ** The store *)

Definition loc := positive.

(** A one-dimensional array of floats (a value function) or a two-dimensional
    one stored row by row (a policy). *)
Inductive ndarray :=
| Arr1 (xs : list Qc)
| Arr2 (rows : list (list Qc)).

Inductive warning :=
| UserWarning (template : string) (arg : Z).

Record world := World {
  heap : gmap loc ndarray;
  warnings_log : list warning
}.

Definition set_heap (h : gmap loc ndarray) (w : world) : world :=
  World h (warnings_log w).

Inductive exn := IndexError | ValueError | TypeError.

Inductive outcome (A : Type) :=
| Ok (a : A) (w : world)
| Raise (e : exn)
| OutOfFuel.
Arguments Ok {A} a w.
Arguments Raise {A} e.
Arguments OutOfFuel {A}.

(** ** A state and exception monad *)

Definition M (A : Type) := world → outcome A.

Definition ret {A} (a : A) : M A := λ w, Ok a w.
Definition raise {A} (e : exn) : M A := λ _, Raise e.
Definition bind {A B} (k : A → M B) (m : M A) : M B :=
  λ w, match m w with
       | Ok a w' => k a w'
       | Raise e => Raise e
       | OutOfFuel => OutOfFuel
       end.

#[global] Instance M_ret : MRet M := @ret.
#[global] Instance M_bind : MBind M := @bind.

(** [for x in xs: body], with the loop's local variables as an accumulator. *)
Fixpoint for_fold {A S} (xs : list A) (body : A → S → M S) (s : S) : M S :=
  match xs with
  | [] => ret s
  | x :: xs' => s' ← body x s; for_fold xs' body s'
  end.

Definition for_each {A} (xs : list A) (body : A → M unit) : M unit :=
  for_fold xs (λ x _, body x) tt.

(** [range(n)] *)
Definition range (n : nat) : list nat := seq 0 n.

(** [enumerate(xs)] *)
Definition enumerate {A} (xs : list A) : list (nat * A) := imap pair xs.

(** ** numpy primitives *)

(** [np.zeros(n)]: a fresh array object. *)
Definition np_zeros (n : nat) : M loc := λ w,
  let l := fresh (dom (heap w)) in
  Ok l (set_heap (<[l := Arr1 (replicate n 0%Qc)]> (heap w)) w).

Definition load (l : loc) : M ndarray := λ w,
  match heap w !! l with
  | Some a => Ok a w
  | None => Raise TypeError
  end.

Definition store (l : loc) (a : ndarray) : M unit := λ w,
  Ok tt (set_heap (<[l := a]> (heap w)) w).

Definition index {A} (xs : list A) (i : nat) : M A :=
  match xs !! i with
  | Some x => ret x
  | None => raise IndexError
  end.

(** [v[i]] on a one-dimensional array. *)
Definition getitem1 (l : loc) (i : nat) : M Qc :=
  a ← load l;
  match a with
  | Arr1 xs => index xs i
  | Arr2 _ => raise TypeError
  end.

(** [v[i] += x] on a one-dimensional array. *)
Definition iadd1 (l : loc) (i : nat) (x : Qc) : M unit :=
  a ← load l;
  match a with
  | Arr1 xs => y ← index xs i; store l (Arr1 (<[i := (y + x)%Qc]> xs))
  | Arr2 _ => raise TypeError
  end.

(** [policy[state]] on a two-dimensional array. *)
Definition getrow (l : loc) (i : nat) : M (list Qc) :=
  a ← load l;
  match a with
  | Arr2 rows => index rows i
  | Arr1 _ => raise TypeError
  end.

(** [policy[state][action]] *)
Definition getitem2 (l : loc) (i j : nat) : M Qc :=
  row ← getrow l i; index row j.

(** [policy[state] = new_row]: the row is overwritten in place.  numpy
    accepts a right-hand side of the row's length, or of length one, which it
    broadcasts along the row. *)
Definition setrow (l : loc) (i : nat) (new_row : list Qc) : M unit :=
  a ← load l;
  match a with
  | Arr2 rows =>
      old ← index rows i;
      if decide (length new_row = length old)
      then store l (Arr2 (<[i := new_row]> rows))
      else match new_row with
           | [x] => store l (Arr2 (<[i := replicate (length old) x]> rows))
           | _ => raise ValueError
           end
  | Arr1 _ => raise TypeError
  end.

(** [np.amax(xs)]; raises on an empty array. *)
Definition Qc_max (x y : Qc) : Qc := if decide (x ≤ y)%Qc then y else x.

Definition np_amax (xs : list Qc) : M Qc :=
  match xs with
  | [] => raise ValueError
  | x :: xs' => ret (foldl Qc_max x xs')
  end.

(** [a - b] on one-dimensional arrays, with numpy's broadcasting of a
    length-one operand. *)
Definition np_sub (xs ys : list Qc) : M (list Qc) :=
  if decide (length xs = length ys) then ret (zip_with Qcminus xs ys)
  else match xs, ys with
       | [x], _ => ret ((λ y, x - y)%Qc <$> ys)
       | _, [y] => ret ((λ x, x - y)%Qc <$> xs)
       | _, _ => raise ValueError
       end.

(** [a.all()]: every entry is non-zero. *)
Definition np_all (a : ndarray) : bool :=
  match a with
  | Arr1 xs => forallb (λ x, bool_decide (x ≠ 0%Qc)) xs
  | Arr2 rows => forallb (forallb (λ x, bool_decide (x ≠ 0%Qc))) rows
  end.

(** [warnings.warn(msg, UserWarning)] *)
Definition warn (wn : warning) : M unit := λ w,
  Ok tt (World (heap w) (warnings_log w ++ [wn])).

(** ** The environment *)

Record GridWorldEnv := {
  world_size : nat;                                (* env.world.size *)
  action_space_n : nat;                            (* env.action_space.n *)
  reward_matrix : list Qc;                         (* env.reward_matrix *)
  look_step_ahead : nat → nat → nat * Qc * bool   (* env.look_step_ahead *)
}.

(** ** single_step_policy_evaluation *)

(** [np.zeros(env.world.size) if value_function is None else value_function] *)
Definition default_value_function (env : GridWorldEnv)
    (value_function : option loc) : M loc :=
  match value_function with
  | None => np_zeros (world_size env)
  | Some l => mret l
  end.

(** The row [policy[state]] is read once, when the inner loop starts; the
    loop writes to [v_new] only, which is a different array.  In
    [v_new[state] += e] Python reads [v_new[state]] before it evaluates [e];
    that read cannot fail and changes nothing, so [iadd1] performs it after
    [e] has been evaluated. *)
Definition single_step_policy_evaluation
    (policy : loc) (env : GridWorldEnv) (discount_factor : Qc)
    (value_function : option loc) : M loc :=
  v ← default_value_function env value_function;
  v_new ← np_zeros (world_size env);
  for_each (range (world_size env)) (λ state,
    r ← index (reward_matrix env) state;
    iadd1 v_new state r;;
    row ← getrow policy state;
    for_each (enumerate row) (λ '(action, action_prob),
      let '(next_state, reward, done) := look_step_ahead env state action in
      x ← getitem1 v next_state;
      iadd1 v_new state (action_prob * (discount_factor * x))%Qc));;
  mret v_new.

(** ** greedy_policy_from_value_function *)

Definition Qc_of_nat (n : nat) : Qc := Qc_of_Z (Z.of_nat n).

(** [np.where(xs == m)[0]]: the indices whose entry equals [m]. *)
Definition np_where_eq (xs : list Qc) (m : Qc) : list nat :=
  filter (λ a, xs !! a = Some m) (seq 0 (length xs)).

(** The generator handed to [np.fromiter]: the uniform distribution on
    [max_value_actions], as a row of [size] entries. *)
Definition uniform_on (max_value_actions : list nat) (size : nat) : list Qc :=
  (λ action, if decide (action ∈ max_value_actions)
             then (1 / Qc_of_nat (length max_value_actions))%Qc
             else 0%Qc) <$> seq 0 size.

(** [action_values] is local to one iteration of the loop over the states;
    it is the accumulator of the inner loop.  The row of the policy is
    overwritten in the array that was passed in, and that array is what the
    function returns. *)
Definition greedy_policy_from_value_function
    (policy : loc) (env : GridWorldEnv) (value_function : loc)
    (discount_factor : Qc) : M loc :=
  for_each (range (world_size env)) (λ state,
    action_values ←
      for_fold (range (action_space_n env)) (λ action action_values,
        let '(next_state, reward, done) := look_step_ahead env state action in
        p ← getitem2 policy state action;
        x ← getitem1 value_function next_state;
        y ← index action_values action;
        mret (<[action := (y + p * (reward + discount_factor * x))%Qc]>
                action_values))
        (replicate (action_space_n env) 0%Qc);
    m ← np_amax action_values;
    let max_value_actions := np_where_eq action_values m in
    setrow policy state (uniform_on max_value_actions (length action_values)));;
  mret policy.

(** ** policy_iteration *)

(** The keyword arguments forwarded to the evaluator and the improver: only
    [discount_factor] is accepted by both, with default [1.0]. *)
Definition kwargs := option Qc.
Definition discount_of (kw : kwargs) : Qc := default 1%Qc kw.

Definition load1 (l : loc) : M (list Qc) :=
  a ← load l;
  match a with
  | Arr1 xs => mret xs
  | Arr2 _ => raise TypeError
  end.

(** [np.max(value_function - policy_value)] *)
Definition np_max_diff (value_function policy_value : loc) : M Qc :=
  old ← load1 value_function;
  new ← load1 policy_value;
  d ← np_sub old new;
  np_amax d.

Definition policy_iteration_warning (max_steps : Z) : warning :=
  UserWarning
    "Policy iteration did not reach the selected threshold. Finished after reaching the maximum {} steps"
    max_steps.

Definition value_iteration_warning (max_steps : Z) : warning :=
  UserWarning
    "Value iteration did not reach the selected threshold. Finished after reaching the maximum {} steps"
    max_steps.

(** Lines 68 to 72: one evaluation sweep, the signed difference, and the
    greedy policy from the new values. *)
Definition policy_iteration_step (policy : loc) (env : GridWorldEnv)
    (kw : kwargs) (value_function : loc) : M (loc * Qc * loc) :=
  policy_value ← single_step_policy_evaluation policy env (discount_of kw)
                   (Some value_function);
  delta ← np_max_diff value_function policy_value;
  greedy_policy ← greedy_policy_from_value_function policy env policy_value
                    (discount_of kw);
  mret (policy_value, delta, greedy_policy).

Fixpoint policy_iteration_loop (fuel : nat) (policy : loc)
    (env : GridWorldEnv) (threshold : Qc) (max_steps : Z) (kw : kwargs)
    (value_function : loc) (step_number : Z) : M (loc * loc) :=
  match fuel with
  | O => λ _, OutOfFuel
  | S fuel' =>
      '(policy_value, delta, greedy_policy) ←
        policy_iteration_step policy env kw value_function;
      let value_function := policy_value in
      let step_number := (step_number + 1)%Z in
      if decide (delta < threshold)%Qc then
        mret (policy_value, greedy_policy)
      else if decide (step_number = max_steps) then
        warn (policy_iteration_warning max_steps);;
        mret (policy_value, greedy_policy)
      else
        policy_iteration_loop fuel' policy env threshold max_steps kw
          value_function step_number
  end.

Definition policy_iteration (fuel : nat) (policy : loc) (env : GridWorldEnv)
    (value_function : option loc) (threshold : Qc) (max_steps : Z)
    (kw : kwargs) : M (loc * loc) :=
  value_function ← default_value_function env value_function;
  policy_iteration_loop fuel policy env threshold max_steps kw
    value_function 0%Z.

(** ** value_iteration *)

(** Lines 93 and 94: one evaluation sweep and the signed difference. *)
Definition value_iteration_sweep (greedy_policy : loc) (env : GridWorldEnv)
    (kw : kwargs) (value_function : loc) : M (loc * Qc) :=
  policy_value ← single_step_policy_evaluation greedy_policy env
                   (discount_of kw) (Some value_function);
  delta ← np_max_diff value_function policy_value;
  mret (policy_value, delta).

(** Line 98: [greedy_policy.all() == new_policy.all()], read from the store
    as it is when the test runs. *)
Definition policies_judged_equal (greedy_policy new_policy : loc) : M bool :=
  a ← load greedy_policy;
  b ← load new_policy;
  mret (bool_decide (np_all a = np_all b)).

Fixpoint value_iteration_loop (fuel : nat) (env : GridWorldEnv)
    (threshold : Qc) (max_steps : Z) (kw : kwargs)
    (greedy_policy value_function : loc) (step_number : Z) : M (loc * loc) :=
  match fuel with
  | O => λ _, OutOfFuel
  | S fuel' =>
      '(policy_value, delta) ←
        value_iteration_sweep greedy_policy env kw value_function;
      let value_function := policy_value in
      (* lines 102 to 108, reached unless the loop broke at line 99 *)
      let rest (greedy_policy : loc) : M (loc * loc) :=
        let step_number := (step_number + 1)%Z in
        if decide (step_number = max_steps) then
          warn (value_iteration_warning max_steps);;
          mret (policy_value, greedy_policy)
        else
          value_iteration_loop fuel' env threshold max_steps kw
            greedy_policy value_function step_number in
      if decide (delta < threshold)%Qc then
        new_policy ← greedy_policy_from_value_function greedy_policy env
                       policy_value (discount_of kw);
        policies_judged_equal greedy_policy new_policy ≫= λ same : bool,
        if same then mret (policy_value, greedy_policy)
        else rest new_policy
      else rest greedy_policy
  end.

Definition value_iteration (fuel : nat) (policy : loc) (env : GridWorldEnv)
    (value_function : option loc) (threshold : Qc) (max_steps : Z)
    (kw : kwargs) : M (loc * loc) :=
  value_function ← default_value_function env value_function;
  let greedy_policy := policy in
  value_iteration_loop fuel env threshold max_steps kw greedy_policy
    value_function 0%Z.

(** ** What the functions compute, as pure functions of the arrays' contents *)

Definition at0 (xs : list Qc) (i : nat) : Qc := default 0%Qc (xs !! i).

Definition next_state_of (env : GridWorldEnv) (s a : nat) : nat :=
  (look_step_ahead env s a).1.1.
Definition reward_of (env : GridWorldEnv) (s a : nat) : Qc :=
  (look_step_ahead env s a).1.2.

Definition Qc_sum (xs : list Qc) : Qc := foldr Qcplus 0%Qc xs.

(** [rewardTable[s] + Σ_a row[a] * discount * value[nextState(s,a)]] *)
Definition bellman_backup (env : GridWorldEnv) (discount : Qc)
    (row value : list Qc) (s : nat) : Qc :=
  (at0 (reward_matrix env) s +
   Qc_sum (imap (λ a p, p * discount * at0 value (next_state_of env s a)) row))%Qc.

(** One synchronous sweep: every entry is computed from the same [value]. *)
Definition bellman_sweep (env : GridWorldEnv) (discount : Qc)
    (rows : list (list Qc)) (value : list Qc) : list Qc :=
  (λ s, bellman_backup env discount (rows !!! s) value s)
    <$> seq 0 (world_size env).

(** [policy[s][a] * (reward(s,a) + discount * value[nextState(s,a)])] *)
Definition action_value (env : GridWorldEnv) (discount : Qc)
    (row value : list Qc) (s a : nat) : Qc :=
  (at0 row a *
   (reward_of env s a + discount * at0 value (next_state_of env s a)))%Qc.

Definition action_values_of (env : GridWorldEnv) (discount : Qc)
    (row value : list Qc) (s : nat) : list Qc :=
  (λ a, action_value env discount row value s a)
    <$> seq 0 (action_space_n env).

(** Action [a] attains the maximum of [avs]. *)
Definition attains_max (avs : list Qc) (a : nat) : Prop :=
  match avs !! a with
  | Some x => Forall (λ y, (y ≤ x)%Qc) avs
  | None => False
  end.

#[global] Instance attains_max_dec avs a : Decision (attains_max avs a).
Proof. unfold attains_max. destruct (avs !! a); apply _. Defined.

Definition max_set (avs : list Qc) : list nat :=
  filter (attains_max avs) (seq 0 (length avs)).

(** Probability [1 / |maxSet|] on the maximisers, [0] elsewhere. *)
Definition greedy_row (avs : list Qc) : list Qc :=
  (λ a, if decide (attains_max avs a)
        then (1 / Qc_of_nat (length (max_set avs)))%Qc
        else 0%Qc) <$> seq 0 (length avs).

(** The policy matrix after the improver has run over the states below [k]:
    each of these rows is replaced by the greedy row computed from the row it
    replaces. *)
Definition greedy_rows_upto (env : GridWorldEnv) (discount : Qc) (k : nat)
    (rows : list (list Qc)) (value : list Qc) : list (list Qc) :=
  imap (λ s row, if decide (s < k)
                 then greedy_row (action_values_of env discount row value s)
                 else row) rows.

Definition greedy_rows (env : GridWorldEnv) (discount : Qc)
    (rows : list (list Qc)) (value : list Qc) : list (list Qc) :=
  greedy_rows_upto env discount (world_size env) rows value.

(** [max_s (old[s] - new[s])], signed: no absolute value is taken. *)
Definition signed_delta (old new : list Qc) : Qc :=
  match zip_with Qcminus old new with
  | [] => 0%Qc
  | d :: ds => foldl Qc_max d ds
  end.

Definition is_signed_max (old new : list Qc) (delta : Qc) : Prop :=
  (∃ s, s < length old ∧ delta = (at0 old s - at0 new s)%Qc) ∧
  (∀ s, s < length old → (at0 old s - at0 new s ≤ delta)%Qc).

(** ** Well-shaped arguments

    The shapes the functions expect (section 3 of the description): a reward
    table with one entry per state, a transition model that stays inside the
    state space, a policy of shape [N × |Actions|], a value function of
    length [N]. *)

Definition closed_model (env : GridWorldEnv) : Prop :=
  Forall (λ s,
    Forall (λ a, next_state_of env s a < world_size env)
           (seq 0 (action_space_n env)))
    (seq 0 (world_size env)).

Definition valid_env (env : GridWorldEnv) : Prop :=
  length (reward_matrix env) = world_size env ∧ closed_model env.

Definition shaped_policy (env : GridWorldEnv) (rows : list (list Qc)) : Prop :=
  length rows = world_size env ∧
  Forall (λ row, length row = action_space_n env) rows.

Definition shaped_value (env : GridWorldEnv) (value : list Qc) : Prop :=
  length value = world_size env.

#[global] Instance closed_model_dec env : Decision (closed_model env).
Proof. unfold closed_model. apply _. Defined.

#[global] Instance valid_env_dec env : Decision (valid_env env).
Proof. unfold valid_env. apply _. Defined.

#[global] Instance shaped_policy_dec env rows : Decision (shaped_policy env rows).
Proof. unfold shaped_policy. apply _. Defined.

#[global] Instance shaped_value_dec env value : Decision (shaped_value env value).
Proof. unfold shaped_value. apply _. Defined.

(** A probability distribution: non-negative entries that sum to one. *)
Definition distribution (row : list Qc) : Prop :=
  Forall (λ p, (0 ≤ p)%Qc) row ∧ Qc_sum row = 1%Qc.

(** ** A small environment to run the functions on

    Three cells in a row; cell 2 is terminal.  Action 0 moves left, action 1
    moves right; moving left from cell 0 stays there.  Every step from a
    non-terminal cell costs 1. *)

Definition corridor : GridWorldEnv := {|
  world_size := 3;
  action_space_n := 2;
  reward_matrix := [(-1)%Qc; (-1)%Qc; 0%Qc];
  look_step_ahead := λ s a,
    if decide (s = 2) then (2, 0%Qc, true)
    else if decide (a = 0) then (pred s, (-1)%Qc, false)
    else (S s, (-1)%Qc, bool_decide (S s = 2))
|}.

(** The same cells and moves, reporting other per-transition rewards and
    other done flags. *)
Definition corridor_relabelled : GridWorldEnv := {|
  world_size := 3;
  action_space_n := 2;
  reward_matrix := [(-1)%Qc; (-1)%Qc; 0%Qc];
  look_step_ahead := λ s a,
    if decide (s = 2) then (2, Qc_of_Z 7, false)
    else if decide (a = 0) then (pred s, Qc_of_Z 5, true)
    else (S s, Qc_of_Z (-3), true)
|}.

(** The same cells, moves and rewards, reporting other done flags. *)
Definition corridor_never_done : GridWorldEnv := {|
  world_size := 3;
  action_space_n := 2;
  reward_matrix := [(-1)%Qc; (-1)%Qc; 0%Qc];
  look_step_ahead := λ s a,
    if decide (s = 2) then (2, 0%Qc, false)
    else if decide (a = 0) then (pred s, (-1)%Qc, false)
    else (S s, (-1)%Qc, false)
|}.

Definition half : Qc := Q2Qc (1 # 2).

Definition uniform_policy : list (list Qc) :=
  [[half; half]; [half; half]; [half; half]].

(** The value of the uniform policy on the corridor. *)
Definition uniform_value : list Qc := [Qc_of_Z (-6); Qc_of_Z (-4); 0%Qc].

Definition policy0 : loc := 1%positive.
Definition v0 : loc := 2%positive.

(** A store holding the uniform policy and an all-zero value function. *)
Definition store0 : world :=
  World {[ policy0 := Arr2 uniform_policy;
           v0 := Arr1 [0%Qc; 0%Qc; 0%Qc] ]} [].

(** A store holding the uniform policy and its value function. *)
Definition store1 : world :=
  World {[ policy0 := Arr2 uniform_policy; v0 := Arr1 uniform_value ]} [].

(** The default threshold, [0.00001]. *)
Definition default_threshold : Qc := Q2Qc (1 # 100000).

#[global] Instance ndarray_eq_dec : EqDecision ndarray.
Proof. solve_decision. Defined.

#[global] Instance warning_eq_dec : EqDecision warning.
Proof. solve_decision. Defined.

#[global] Instance world_eq_dec : EqDecision world.
Proof. solve_decision. Defined.

#[global] Instance exn_eq_dec : EqDecision exn.
Proof. solve_decision. Defined.

#[global] Instance outcome_eq_dec {A} `{EqDecision A} : EqDecision (outcome A).
Proof. solve_decision. Defined.

(** A computation that returns or raises, whatever the store. *)
Definition no_timeout {A} (m : M A) : Prop := ∀ w, m w ≠ OutOfFuel.

(** A store holding the uniform policy and a value function that is too low
    by 2 in cell 1. *)
Definition store2 : world :=
  World {[ policy0 := Arr2 uniform_policy;
           v0 := Arr1 [Qc_of_Z (-10); Qc_of_Z (-8); 0%Qc] ]} [].

(** ** reshape_as_gridworld

    The helper reads the module-level variable [world_shape], which only the
    script at the end of the file sets; here it is a parameter.  The argument
    is read, never written, so the function takes its contents. *)

(** [np.reshape(xs, (r, c))] of a one-dimensional array: row [i] holds the
    entries [i*c .. i*c + c - 1]. *)
Definition np_reshape {A} (xs : list A) (r c : nat) : M (list (list A)) :=
  if decide (length xs = r * c)
  then mret ((λ i, take c (drop (i * c) xs)) <$> seq 0 r)
  else raise ValueError.

(** [a[:, ::-1]]: every row back to front. *)
Definition flip_columns {A} (rows : list (list A)) : list (list A) :=
  reverse <$> rows.

(** [a.T] of a matrix with [c] columns. *)
Definition np_transpose {A} (c : nat) (rows : list (list A)) : list (list A) :=
  (λ j, omap (λ row, row !! j) rows) <$> seq 0 c.

Definition reshape_as_gridworld {A} (world_shape : nat * nat)
    (input_matrix : list A) : M (list (list A)) :=
  a ← np_reshape input_matrix world_shape.1 world_shape.2;
  mret (np_transpose world_shape.2 (flip_columns a)).

(** ** get_policy_map, with [max_only=True] (the default)

    The branch for [max_only=False] builds an array of a structured dtype and
    is not modelled. *)

(** [np.argmax(xs)]: the first index that holds the maximum; raises on an
    empty array. *)
Fixpoint argmax_from (best_i : nat) (best : Qc) (i : nat) (xs : list Qc) : nat :=
  match xs with
  | [] => best_i
  | x :: xs' =>
      if decide (best < x)%Qc then argmax_from i x (S i) xs'
      else argmax_from best_i best (S i) xs'
  end.

Definition np_argmax (xs : list Qc) : M nat :=
  match xs with
  | [] => raise ValueError
  | x :: xs' => mret (argmax_from 0 x 1 xs')
  end.

(** [policy.shape[0]] *)
Definition np_shape0 (l : loc) : M nat :=
  a ← load l;
  mret (match a with Arr1 xs => length xs | Arr2 rows => length rows end).

(** [np.nditer(np.arange(n))]: numpy refuses to iterate over an array
    without entries. *)
Definition np_nditer_arange (n : nat) : M (list nat) :=
  if decide (n = 0) then raise ValueError else mret (seq 0 n).

(** [np.argmax(policy[state])]; on a one-dimensional array [policy[state]] is
    a number, whose [argmax] is 0. *)
Definition argmax_item (policy : loc) (state : nat) : M nat :=
  a ← load policy;
  match a with
  | Arr2 rows => row ← index rows state; np_argmax row
  | Arr1 xs => index xs state;; mret 0
  end.

(** [np.fromiter((f(x) for x in xs), dtype)] *)
Definition np_fromiter {A B} (xs : list A) (f : A → M B) : M (list B) :=
  for_fold xs (λ x acc, y ← f x; mret (acc ++ [y])) [].

Definition get_policy_map (world_shape : nat * nat) (policy : loc)
    : M (list (list nat)) :=
  n ← np_shape0 policy;
  states ← np_nditer_arange n;
  policy_map ← np_fromiter states (argmax_item policy);
  reshape_as_gridworld world_shape policy_map.

(** ** The script: repeated evaluation (lines 119 and 120)

    [for k in range(sweeps): val_fun = single_step_policy_evaluation(policy0,
    gw_env, value_function=val_fun)]; the script runs 500 sweeps, with the
    default discount factor. *)
Definition evaluation_sweeps (sweeps : nat) (policy : loc)
    (env : GridWorldEnv) (val_fun : loc) : M loc :=
  for_fold (range sweeps) (λ k val_fun,
    single_step_policy_evaluation policy env 1%Qc (Some val_fun)) val_fun.

(** The index of the first maximiser, as a specification. *)
Definition first_max (xs : list Qc) (a : nat) : Prop :=
  ∃ x, xs !! a = Some x ∧
       Forall (λ y, (y ≤ x)%Qc) xs ∧
       ∀ a' y, a' < a → xs !! a' = Some y → (y < x)%Qc.

(** [q(s,a) = reward(s,a) + discount * value[nextState(s,a)]], the return of
    one step. *)
Definition step_return (env : GridWorldEnv) (discount : Qc)
    (value : list Qc) (s a : nat) : Qc :=
  (reward_of env s a + discount * at0 value (next_state_of env s a))%Qc.

(** Pointwise order on value functions. *)
Definition value_le (v1 v2 : list Qc) : Prop := Forall2 Qcle v1 v2.

(** What [np.argmax] returns on a non-empty array. *)
Definition first_max_index (xs : list Qc) : nat :=
  match xs with
  | [] => 0
  | x :: xs' => argmax_from 0 x 1 xs'
  end.

(** The cell of the grid in which [reshape_as_gridworld] shows entry [k]. *)
Definition grid_cell {A} (C : nat) (grid : list (list A)) (k : nat) : option A :=
  grid !! (C - 1 - k mod C) ≫= (λ row, row !! (k / C)).

(** A computation that leaves the log of warnings as it is. *)
Definition keeps_log {A} (m : M A) : Prop :=
  ∀ w a w', m w = Ok a w' → warnings_log w' = warnings_log w.

(** The actions to which a row gives probability zero. *)
Definition zero_actions (row : list Qc) : list nat :=
  filter (λ a, row !! a = Some 0%Qc) (seq 0 (length row)).

(** The one-step returns of the actions in state [s]. *)
Definition step_returns (env : GridWorldEnv) (discount : Qc)
    (value : list Qc) (s : nat) : list Qc :=
  (λ a, step_return env discount value s a) <$> seq 0 (action_space_n env).

(** ** Degenerate environments, for the edge cases *)

(** One cell and one action, which leads out of the state space. *)
Definition runaway : GridWorldEnv := {|
  world_size := 1;
  action_space_n := 1;
  reward_matrix := [0%Qc];
  look_step_ahead := λ s a, (7, 0%Qc, false)
|}.

(** One cell and nothing to do in it. *)
Definition no_actions : GridWorldEnv := {|
  world_size := 1;
  action_space_n := 0;
  reward_matrix := [0%Qc];
  look_step_ahead := λ s a, (s, 0%Qc, true)
|}.

(** A world without cells. *)
Definition no_cells : GridWorldEnv := {|
  world_size := 0;
  action_space_n := 2;
  reward_matrix := [];
  look_step_ahead := λ s a, (s, 0%Qc, true)
|}.

(** A store with a policy and a value function for one cell. *)
Definition store_one_cell : world :=
  World {[ policy0 := Arr2 [[1%Qc]]; v0 := Arr1 [0%Qc] ]} [].

#[global] Instance value_le_dec v1 v2 : Decision (value_le v1 v2).
Proof. unfold value_le. apply _. Defined.

(** The policy that moves right in cells 0 and 1. *)
Definition right_policy : list (list Qc) :=
  [[0; 1]; [0; 1]; [half; half]]%Qc.

(** A store holding the uniform policy and two value functions, the first
    one pointwise below the second. *)
Definition store3 : world :=
  World {[ policy0 := Arr2 uniform_policy;
           v0 := Arr1 uniform_value;
           3%positive := Arr1 [0; 0; 0]%Qc ]} [].

(** A store holding the policy that moves right and the value function of
    the uniform policy. *)
Definition store4 : world :=
  World {[ policy0 := Arr2 right_policy; v0 := Arr1 uniform_value ]} [].

(** * Properties *)

(** ** The monad and the primitives *)

Lemma bind_Ok {A B} (m : M A) (k : A → M B) w a w' :
  m w = Ok a w' → (m ≫= k) w = k a w'.
Proof. intros H. unfold mbind, M_bind, bind. by rewrite H. Qed.

Lemma bind_unfold {A B} (m : M A) (k : A → M B) w :
  (m ≫= k) w = match m w with
               | Ok a w' => k a w'
               | Raise e => Raise e
               | OutOfFuel => OutOfFuel
               end.
Proof. reflexivity. Qed.

Lemma for_each_nil {A} (body : A → M unit) w :
  for_each [] body w = Ok tt w.
Proof. reflexivity. Qed.

Lemma for_each_cons {A} (x : A) xs (body : A → M unit) w :
  for_each (x :: xs) body w = (body x ≫= λ _, for_each xs body) w.
Proof.
  unfold for_each; simpl. rewrite !bind_unfold.
  destruct (body x w) as [[] w'| |]; reflexivity.
Qed.

Lemma load_Ok h ws l a :
  h !! l = Some a → load l (World h ws) = Ok a (World h ws).
Proof. intros H. unfold load; simpl. by rewrite H. Qed.

Lemma index_Ok {A} (xs : list A) i x w :
  xs !! i = Some x → index xs i w = Ok x w.
Proof. intros H. unfold index. by rewrite H. Qed.

Lemma getitem1_Ok h ws l xs i x :
  h !! l = Some (Arr1 xs) → xs !! i = Some x →
  getitem1 l i (World h ws) = Ok x (World h ws).
Proof.
  intros Hl Hi. unfold getitem1.
  rewrite (bind_Ok _ _ _ _ _ (load_Ok _ _ _ _ Hl)). by apply index_Ok.
Qed.

Lemma iadd1_Ok h ws l xs i y x :
  h !! l = Some (Arr1 xs) → xs !! i = Some y →
  iadd1 l i x (World h ws) =
    Ok tt (World (<[l := Arr1 (<[i := (y + x)%Qc]> xs)]> h) ws).
Proof.
  intros Hl Hi. unfold iadd1.
  rewrite (bind_Ok _ _ _ _ _ (load_Ok _ _ _ _ Hl)).
  rewrite (bind_Ok _ _ _ _ _ (index_Ok _ _ _ _ Hi)). reflexivity.
Qed.

Lemma getrow_Ok h ws l rows i row :
  h !! l = Some (Arr2 rows) → rows !! i = Some row →
  getrow l i (World h ws) = Ok row (World h ws).
Proof.
  intros Hl Hi. unfold getrow.
  rewrite (bind_Ok _ _ _ _ _ (load_Ok _ _ _ _ Hl)). by apply index_Ok.
Qed.

Lemma getitem2_Ok h ws l rows i row j x :
  h !! l = Some (Arr2 rows) → rows !! i = Some row → row !! j = Some x →
  getitem2 l i j (World h ws) = Ok x (World h ws).
Proof.
  intros Hl Hi Hj. unfold getitem2.
  rewrite (bind_Ok _ _ _ _ _ (getrow_Ok _ _ _ _ _ _ Hl Hi)). by apply index_Ok.
Qed.

Lemma setrow_Ok h ws l rows i old new_row :
  h !! l = Some (Arr2 rows) → rows !! i = Some old →
  length new_row = length old →
  setrow l i new_row (World h ws) =
    Ok tt (World (<[l := Arr2 (<[i := new_row]> rows)]> h) ws).
Proof.
  intros Hl Hi Hlen. unfold setrow.
  rewrite (bind_Ok _ _ _ _ _ (load_Ok _ _ _ _ Hl)).
  rewrite (bind_Ok _ _ _ _ _ (index_Ok _ _ _ _ Hi)).
  rewrite decide_True by done. reflexivity.
Qed.

Lemma np_zeros_eq n h ws :
  np_zeros n (World h ws) =
    Ok (fresh (dom h)) (World (<[fresh (dom h) := Arr1 (replicate n 0%Qc)]> h) ws).
Proof. reflexivity. Qed.

Lemma fresh_not_allocated (h : gmap loc ndarray) : h !! fresh (dom h) = None.
Proof. apply not_elem_of_dom, is_fresh. Qed.

Lemma fresh_neq (h : gmap loc ndarray) l a :
  h !! l = Some a → fresh (dom h) ≠ l.
Proof. intros H <-. by rewrite fresh_not_allocated in H. Qed.

(** ** Sums *)

Lemma foldl_Qcplus_sum (xs : list Qc) (acc : Qc) :
  foldl Qcplus acc xs = (acc + Qc_sum xs)%Qc.
Proof.
  revert acc. induction xs as [|x xs IH]; intros acc; simpl.
  - ring.
  - rewrite IH. ring.
Qed.

Lemma fmap_enumerate {B} (f : nat → Qc → B) (row : list Qc) :
  (λ '(a, p), f a p) <$> enumerate row = imap f row.
Proof. unfold enumerate. rewrite fmap_imap. by apply imap_ext. Qed.

Lemma elem_of_enumerate {A} (xs : list A) i x :
  (i, x) ∈ enumerate xs → xs !! i = Some x.
Proof.
  unfold enumerate. intros [j [y [Heq Hj]]]%elem_of_lookup_imap.
  by inversion Heq; subst.
Qed.

(** ** The evaluator *)

(** What the inner loop adds to [v_new[state]], in the order and the
    bracketing of line 25. *)
Lemma eval_actions_Ok env γ v v_new state h0 ws vs aps cur acc :
  v_new ≠ v → h0 !! v = Some (Arr1 vs) → cur !! state = Some acc →
  (∀ a p, (a, p) ∈ aps → next_state_of env state a < length vs) →
  for_each aps (λ '(action, action_prob),
      let '(next_state, reward, done) := look_step_ahead env state action in
      x ← getitem1 v next_state;
      iadd1 v_new state (action_prob * (γ * x))%Qc)
    (World (<[v_new := Arr1 cur]> h0) ws) =
  Ok tt (World (<[v_new := Arr1 (<[state :=
      foldl Qcplus acc
        ((λ '(a, p), p * (γ * at0 vs (next_state_of env state a)))%Qc <$> aps)]>
      cur)]> h0) ws).
Proof.
  intros Hne Hv. revert cur acc.
  induction aps as [|[a p] aps IH]; intros cur acc Hacc Hnext.
  - rewrite for_each_nil. simpl. by rewrite (list_insert_id _ _ _ Hacc).
  - rewrite for_each_cons.
    assert (Hlt : next_state_of env state a < length vs)
      by (apply (Hnext a p); left).
    destruct (lookup_lt_is_Some_2 vs _ Hlt) as [x Hx].
    unfold next_state_of in Hlt, Hx.
    erewrite bind_Ok; last first.
    { unfold next_state_of.
      destruct (look_step_ahead env state a) as [[ns r] d] eqn:Hstep. simpl in *.
      erewrite bind_Ok; last first.
      { apply getitem1_Ok with (xs := vs); [|exact Hx].
        by rewrite lookup_insert_ne. }
      apply iadd1_Ok with (xs := cur); [|exact Hacc].
      by rewrite lookup_insert_eq. }
    rewrite insert_insert_eq.
    rewrite (IH _ (acc + p * (γ * x))%Qc); first last.
    { intros a' p' Hin. apply (Hnext a' p'). by right. }
    { apply list_lookup_insert_eq. by eapply lookup_lt_Some. }
    rewrite list_insert_insert_eq. simpl.
    unfold at0, next_state_of at 2. by rewrite Hx.
Qed.

Lemma code_backup_eq env γ row vs s :
  foldl Qcplus (0 + at0 (reward_matrix env) s)%Qc
    ((λ '(a, p), p * (γ * at0 vs (next_state_of env s a)))%Qc <$> enumerate row)
  = bellman_backup env γ row vs s.
Proof.
  rewrite foldl_Qcplus_sum, Qcplus_0_l. unfold bellman_backup. f_equal.
  rewrite (fmap_enumerate (λ a p, p * (γ * at0 vs (next_state_of env s a)))%Qc).
  f_equal. apply imap_ext. intros a p _. ring.
Qed.

Lemma eval_states_Ok env γ policy v v_new h0 ws rows vs m k pre :
  v_new ≠ v → v_new ≠ policy →
  h0 !! v = Some (Arr1 vs) → h0 !! policy = Some (Arr2 rows) →
  length pre = k → k + m ≤ length rows → k + m ≤ length (reward_matrix env) →
  (∀ s row a, s < k + m → rows !! s = Some row → a < length row →
              next_state_of env s a < length vs) →
  for_each (seq k m) (λ state,
      r ← index (reward_matrix env) state;
      iadd1 v_new state r;;
      row ← getrow policy state;
      for_each (enumerate row) (λ '(action, action_prob),
        let '(next_state, reward, done) := look_step_ahead env state action in
        x ← getitem1 v next_state;
        iadd1 v_new state (action_prob * (γ * x))%Qc))
    (World (<[v_new := Arr1 (pre ++ replicate m 0%Qc)]> h0) ws) =
  Ok tt (World (<[v_new := Arr1 (pre ++
      ((λ s, bellman_backup env γ (rows !!! s) vs s) <$> seq k m))]> h0) ws).
Proof.
  intros Hv Hp Hhv Hhp. revert k pre.
  induction m as [|m IH]; intros k pre Hpre Hrows Hrew Hnext.
  - reflexivity.
  - simpl seq. rewrite for_each_cons.
    destruct (lookup_lt_is_Some_2 (reward_matrix env) k) as [r Hr]; [lia|].
    destruct (lookup_lt_is_Some_2 rows k) as [row Hrow]; [lia|].
    assert (Hk : (pre ++ replicate (S m) 0%Qc) !! k = Some 0%Qc).
    { rewrite lookup_app_r by lia. by replace (k - length pre) with 0 by lia. }
    erewrite bind_Ok; last first.
    { erewrite bind_Ok; last by apply index_Ok.
      erewrite bind_Ok; last first.
      { apply iadd1_Ok with (xs := pre ++ replicate (S m) 0%Qc); [|exact Hk].
        by rewrite lookup_insert_eq. }
      rewrite insert_insert_eq.
      erewrite bind_Ok; last first.
      { apply getrow_Ok with (rows := rows); [|exact Hrow].
        by rewrite lookup_insert_ne. }
      apply eval_actions_Ok with (vs := vs); [done|done| |].
      - apply list_lookup_insert_eq. rewrite length_app, length_replicate. lia.
      - intros a p Hin%elem_of_enumerate. apply (Hnext k row a); [lia|done|].
        by eapply lookup_lt_Some. }
    rewrite list_insert_insert_eq.
    replace (<[k := _]> (pre ++ replicate (S m) 0%Qc))
      with ((pre ++ [bellman_backup env γ (rows !!! k) vs k]) ++ replicate m 0%Qc).
    2:{ rewrite insert_app_r_alt by lia.
        replace (k - length pre) with 0 by lia. simpl.
        rewrite <- app_assoc. simpl.
        do 2 f_equal. rewrite (list_lookup_total_correct _ _ _ Hrow).
        rewrite <- code_backup_eq. unfold at0 at 1. by rewrite Hr. }
    rewrite IH; [|rewrite length_app; simpl; lia|lia|lia|].
    + by rewrite <- app_assoc.
    + intros s row' a Hs. apply Hnext. lia.
Qed.

(** The evaluator on well-shaped arguments: it allocates one array, fills it
    with one sweep, and changes nothing else. *)
Lemma single_step_policy_evaluation_Ok policy env γ v h ws rows vs :
  h !! policy = Some (Arr2 rows) → h !! v = Some (Arr1 vs) →
  world_size env ≤ length rows →
  world_size env ≤ length (reward_matrix env) →
  (∀ s row a, s < world_size env → rows !! s = Some row → a < length row →
              next_state_of env s a < length vs) →
  single_step_policy_evaluation policy env γ (Some v) (World h ws) =
    Ok (fresh (dom h))
       (World (<[fresh (dom h) := Arr1 (bellman_sweep env γ rows vs)]> h) ws).
Proof.
  intros Hp Hv Hrows Hrew Hnext. unfold single_step_policy_evaluation.
  simpl default_value_function.
  erewrite bind_Ok; last reflexivity.
  erewrite bind_Ok; last apply np_zeros_eq.
  erewrite bind_Ok; last first.
  { apply (eval_states_Ok env γ policy v _ h ws rows vs (world_size env) 0 []);
      eauto using fresh_neq. }
  reflexivity.
Qed.

(** ** The improver *)

Lemma Qc_max_le_l x y : (x ≤ Qc_max x y)%Qc.
Proof. unfold Qc_max. case_decide; [done|apply Qcle_refl]. Qed.

Lemma Qc_max_le_r x y : (y ≤ Qc_max x y)%Qc.
Proof.
  unfold Qc_max. case_decide; [apply Qcle_refl|].
  apply Qclt_le_weak. by apply Qclt_nge.
Qed.

Lemma Qc_max_cases x y : Qc_max x y = x ∨ Qc_max x y = y.
Proof. unfold Qc_max. case_decide; auto. Qed.

Lemma foldl_Qc_max_spec xs x :
  foldl Qc_max x xs ∈ x :: xs ∧
  Forall (λ y, (y ≤ foldl Qc_max x xs)%Qc) (x :: xs).
Proof.
  revert x. induction xs as [|z xs IH]; intros x; simpl.
  - split; [left|]. repeat constructor. apply Qcle_refl.
  - destruct (IH (Qc_max x z)) as [Hin Hle]. split.
    + apply elem_of_cons in Hin as [Hin|Hin].
      * rewrite Hin. destruct (Qc_max_cases x z) as [->| ->];
          [left|right; left].
      * by do 2 right.
    + apply Forall_cons in Hle as [Hm Hle].
      repeat apply Forall_cons_2; [| |done].
      * eapply Qcle_trans; [apply Qc_max_le_l|done].
      * eapply Qcle_trans; [apply Qc_max_le_r|done].
Qed.

Lemma np_amax_Ok xs w :
  xs ≠ [] →
  ∃ m, np_amax xs w = Ok m w ∧ m ∈ xs ∧ Forall (λ y, (y ≤ m)%Qc) xs.
Proof.
  destruct xs as [|x xs]; [done|]. intros _.
  exists (foldl Qc_max x xs). split; [done|]. apply foldl_Qc_max_spec.
Qed.

(** The indices numpy selects are the maximisers. *)
Lemma np_where_eq_max_set avs m :
  m ∈ avs → Forall (λ y, (y ≤ m)%Qc) avs →
  np_where_eq avs m = max_set avs.
Proof.
  intros Hin Hle. unfold np_where_eq, max_set.
  apply list_filter_iff. intros a. unfold attains_max.
  split.
  - intros ->. done.
  - destruct (avs !! a) as [x|] eqn:Ha; [|done]. intros Hx. f_equal.
    apply Qcle_antisym.
    + rewrite Forall_forall in Hle. apply Hle. by eapply list_elem_of_lookup_2.
    + rewrite Forall_forall in Hx. by apply Hx.
Qed.

Lemma uniform_on_max_set avs :
  uniform_on (max_set avs) (length avs) = greedy_row avs.
Proof.
  unfold uniform_on, greedy_row. apply list_fmap_ext. intros i a Hi.
  apply lookup_seq in Hi as [Ha Hlt]. simpl in Ha. subst a.
  assert (i ∈ max_set avs ↔ attains_max avs i) as Hiff.
  { unfold max_set. rewrite list_elem_of_filter, elem_of_seq.
    split; [tauto|]. intros H; split; [done|]. lia. }
  repeat case_decide; tauto.
Qed.

(** The accumulation of [action_values] for one state (lines 50 to 53). *)
Lemma greedy_action_values_Ok env γ policy vf state h ws rows row vs m k pre :
  h !! policy = Some (Arr2 rows) → h !! vf = Some (Arr1 vs) →
  rows !! state = Some row →
  length pre = k → k + m ≤ length row →
  (∀ a, a < k + m → next_state_of env state a < length vs) →
  for_fold (seq k m) (λ action action_values,
      let '(next_state, reward, done) := look_step_ahead env state action in
      p ← getitem2 policy state action;
      x ← getitem1 vf next_state;
      y ← index action_values action;
      mret (<[action := (y + p * (reward + γ * x))%Qc]> action_values))
    (pre ++ replicate m 0%Qc) (World h ws) =
  Ok (pre ++ ((λ a, action_value env γ row vs state a) <$> seq k m))
     (World h ws).
Proof.
  intros Hp Hv Hrow. revert k pre.
  induction m as [|m IH]; intros k pre Hpre Hlen Hnext.
  - reflexivity.
  - simpl seq. simpl for_fold.
    destruct (lookup_lt_is_Some_2 row k) as [p Hpk]; [lia|].
    assert (Hlt : next_state_of env state k < length vs) by (apply Hnext; lia).
    destruct (lookup_lt_is_Some_2 vs _ Hlt) as [x Hx].
    assert (Hk : (pre ++ replicate (S m) 0%Qc) !! k = Some 0%Qc).
    { rewrite lookup_app_r by lia. by replace (k - length pre) with 0 by lia. }
    assert (Hav : action_value env γ row vs state k =
                  (0 + p * (reward_of env state k + γ * x))%Qc).
    { unfold action_value, at0. rewrite Hpk, Hx. simpl. ring. }
    unfold next_state_of, reward_of in Hx, Hav.
    destruct (look_step_ahead env state k) as [[ns r] d] eqn:Hstep.
    simpl in Hx, Hav.
    erewrite bind_Ok; last first.
    { erewrite bind_Ok; last by eapply getitem2_Ok.
      erewrite bind_Ok; last by eapply getitem1_Ok.
      erewrite bind_Ok; last by apply index_Ok.
      reflexivity. }
    replace (<[k := _]> (pre ++ replicate (S m) 0%Qc))
      with ((pre ++ [action_value env γ row vs state k]) ++ replicate m 0%Qc).
    2:{ rewrite insert_app_r_alt by lia.
        replace (k - length pre) with 0 by lia. simpl.
        rewrite <- app_assoc. simpl. by rewrite Hav. }
    rewrite IH; [|rewrite length_app; simpl; lia|lia|intros; apply Hnext; lia].
    by rewrite <- app_assoc.
Qed.

Lemma length_uniform_on mva size : length (uniform_on mva size) = size.
Proof. unfold uniform_on. by rewrite length_fmap, length_seq. Qed.

Lemma length_action_values_of env γ row vs s :
  length (action_values_of env γ row vs s) = action_space_n env.
Proof. unfold action_values_of. by rewrite length_fmap, length_seq. Qed.

Lemma length_greedy_row avs : length (greedy_row avs) = length avs.
Proof. unfold greedy_row. by rewrite length_fmap, length_seq. Qed.

Lemma greedy_rows_upto_lookup env γ k rows vs s row :
  rows !! s = Some row →
  greedy_rows_upto env γ k rows vs !! s =
    Some (if decide (s < k)
          then greedy_row (action_values_of env γ row vs s)
          else row).
Proof. intros H. unfold greedy_rows_upto. by rewrite list_lookup_imap, H. Qed.

Lemma greedy_rows_upto_lookup_None env γ k rows vs s :
  rows !! s = None → greedy_rows_upto env γ k rows vs !! s = None.
Proof. intros H. unfold greedy_rows_upto. by rewrite list_lookup_imap, H. Qed.

Lemma length_greedy_rows_upto env γ k rows vs :
  length (greedy_rows_upto env γ k rows vs) = length rows.
Proof. unfold greedy_rows_upto. by rewrite length_imap. Qed.

Lemma greedy_rows_upto_S env γ k rows vs row :
  rows !! k = Some row →
  <[k := greedy_row (action_values_of env γ row vs k)]>
    (greedy_rows_upto env γ k rows vs) =
  greedy_rows_upto env γ (S k) rows vs.
Proof.
  intros Hrow. apply list_eq. intros s.
  destruct (decide (s = k)) as [->|Hne].
  - rewrite list_lookup_insert_eq.
    + rewrite (greedy_rows_upto_lookup _ _ _ _ _ _ _ Hrow).
      by rewrite decide_True by lia.
    + rewrite length_greedy_rows_upto. by eapply lookup_lt_Some.
  - rewrite list_lookup_insert_ne by done.
    destruct (rows !! s) as [r|] eqn:Hs.
    + rewrite !(greedy_rows_upto_lookup _ _ _ _ _ _ _ Hs).
      repeat case_decide; (done || lia).
    + by rewrite !greedy_rows_upto_lookup_None.
Qed.

Lemma greedy_rows_upto_0 env γ rows vs : greedy_rows_upto env γ 0 rows vs = rows.
Proof.
  apply list_eq. intros s. destruct (rows !! s) as [r|] eqn:Hs.
  - rewrite (greedy_rows_upto_lookup _ _ _ _ _ _ _ Hs).
    by rewrite decide_False by lia.
  - by rewrite greedy_rows_upto_lookup_None.
Qed.

(** The loop over the states (lines 49 to 56): the rows are overwritten one
    after the other, inside the array it was given. *)
Lemma greedy_states_Ok env γ policy vf h0 ws rows vs m k :
  h0 !! vf = Some (Arr1 vs) → policy ≠ vf →
  k + m ≤ length rows →
  (∀ s row, s < k + m → rows !! s = Some row →
            length row = action_space_n env) →
  (0 < m → 0 < action_space_n env) →
  (∀ s a, s < k + m → a < action_space_n env →
          next_state_of env s a < length vs) →
  for_each (seq k m) (λ state,
      action_values ←
        for_fold (range (action_space_n env)) (λ action action_values,
          let '(next_state, reward, done) := look_step_ahead env state action in
          p ← getitem2 policy state action;
          x ← getitem1 vf next_state;
          y ← index action_values action;
          mret (<[action := (y + p * (reward + γ * x))%Qc]> action_values))
          (replicate (action_space_n env) 0%Qc);
      m ← np_amax action_values;
      let max_value_actions := np_where_eq action_values m in
      setrow policy state (uniform_on max_value_actions (length action_values)))
    (World (<[policy := Arr2 (greedy_rows_upto env γ k rows vs)]> h0) ws) =
  Ok tt (World (<[policy := Arr2 (greedy_rows_upto env γ (k + m) rows vs)]> h0) ws).
Proof.
  intros Hv Hne. revert k.
  induction m as [|m IH]; intros k Hlen Hshape Hpos Hnext.
  - by rewrite Nat.add_0_r.
  - simpl seq. rewrite for_each_cons.
    destruct (lookup_lt_is_Some_2 rows k) as [row Hrow]; [lia|].
    assert (Hcur : greedy_rows_upto env γ k rows vs !! k = Some row).
    { rewrite (greedy_rows_upto_lookup _ _ _ _ _ _ _ Hrow).
      by rewrite decide_False by lia. }
    assert (Hrowlen : length row = action_space_n env)
      by (apply (Hshape k); [lia|done]).
    set (avs := action_values_of env γ row vs k).
    assert (Havs : avs ≠ []).
    { intros Heq. apply (f_equal length) in Heq.
      unfold avs in Heq. rewrite length_action_values_of in Heq.
      simpl in Heq. lia. }
    destruct (np_amax_Ok avs
      (World (<[policy := Arr2 (greedy_rows_upto env γ k rows vs)]> h0) ws) Havs)
      as (mx & Hamax & Hin & Hle).
    erewrite bind_Ok; last first.
    { erewrite bind_Ok; last first.
      { apply (greedy_action_values_Ok env γ policy vf k _ ws
                 (greedy_rows_upto env γ k rows vs) row vs
                 (action_space_n env) 0 []); try done.
        - by rewrite lookup_insert_eq.
        - by rewrite lookup_insert_ne.
        - simpl. lia.
        - intros a Ha. apply Hnext; lia. }
      simpl app. fold (action_values_of env γ row vs k). fold avs.
      erewrite bind_Ok; last exact Hamax.
      simpl. rewrite (np_where_eq_max_set avs mx Hin Hle), uniform_on_max_set.
      apply setrow_Ok with (old := row); [by rewrite lookup_insert_eq|done|].
      rewrite length_greedy_row. unfold avs.
      by rewrite length_action_values_of. }
    rewrite insert_insert_eq. unfold avs.
    rewrite (greedy_rows_upto_S env γ k rows vs row Hrow).
    rewrite IH; [|lia|intros s' r' Hs' Hr'; apply (Hshape s' r'); [lia|done]
                 |intros _; apply Hpos; lia|intros; apply Hnext; lia].
    by replace (S k + m) with (k + S m) by lia.
Qed.

(** The improver on well-shaped arguments: it returns the array it was given,
    after overwriting its rows, and changes nothing else. *)
Lemma greedy_policy_from_value_function_Ok policy env vf γ h ws rows vs :
  h !! policy = Some (Arr2 rows) → h !! vf = Some (Arr1 vs) →
  world_size env ≤ length rows →
  (∀ s row, s < world_size env → rows !! s = Some row →
            length row = action_space_n env) →
  (0 < world_size env → 0 < action_space_n env) →
  (∀ s a, s < world_size env → a < action_space_n env →
          next_state_of env s a < length vs) →
  greedy_policy_from_value_function policy env vf γ (World h ws) =
    Ok policy (World (<[policy := Arr2 (greedy_rows env γ rows vs)]> h) ws).
Proof.
  intros Hp Hv Hrows Hshape Hpos Hnext.
  unfold greedy_policy_from_value_function.
  assert (Hne : policy ≠ vf) by (intros ->; congruence).
  rewrite <- (insert_id h policy (Arr2 rows) Hp) at 1.
  rewrite <- (greedy_rows_upto_0 env γ rows vs) at 1.
  erewrite bind_Ok; last first.
  { apply (greedy_states_Ok env γ policy vf h ws rows vs (world_size env) 0);
      try done. }
  reflexivity.
Qed.

(** ** Shapes *)

Lemma closed_model_lt env s a :
  closed_model env → s < world_size env → a < action_space_n env →
  next_state_of env s a < world_size env.
Proof.
  unfold closed_model. rewrite Forall_forall. intros H Hs Ha.
  specialize (H s). rewrite Forall_forall in H.
  apply H; apply elem_of_seq; lia.
Qed.

Lemma shaped_policy_row env rows s row :
  shaped_policy env rows → rows !! s = Some row →
  length row = action_space_n env.
Proof.
  intros [_ H] Hs. rewrite Forall_forall in H. apply H.
  by eapply list_elem_of_lookup_2.
Qed.

Lemma length_bellman_sweep env γ rows vs :
  length (bellman_sweep env γ rows vs) = world_size env.
Proof. unfold bellman_sweep. by rewrite length_fmap, length_seq. Qed.

Lemma shaped_bellman_sweep env γ rows vs :
  shaped_value env (bellman_sweep env γ rows vs).
Proof. apply length_bellman_sweep. Qed.

Lemma bellman_sweep_lookup env γ rows vs s :
  s < world_size env →
  bellman_sweep env γ rows vs !! s =
    Some (bellman_backup env γ (rows !!! s) vs s).
Proof.
  intros Hs. unfold bellman_sweep. rewrite list_lookup_fmap.
  by rewrite lookup_seq_lt.
Qed.

Lemma shaped_greedy_rows env γ rows vs :
  shaped_policy env rows → shaped_policy env (greedy_rows env γ rows vs).
Proof.
  intros [Hlen Hrows]. split.
  - unfold greedy_rows. by rewrite length_greedy_rows_upto.
  - apply Forall_lookup. intros s row' Hs.
    unfold greedy_rows in Hs.
    destruct (rows !! s) as [row|] eqn:Hrow.
    + rewrite (greedy_rows_upto_lookup _ _ _ _ _ _ _ Hrow) in Hs.
      inversion Hs; subst. case_decide.
      * by rewrite length_greedy_row, length_action_values_of.
      * rewrite Forall_forall in Hrows. apply Hrows.
        by eapply list_elem_of_lookup_2.
    + by rewrite greedy_rows_upto_lookup_None in Hs.
Qed.

Lemma greedy_rows_lookup env γ rows vs s row :
  s < world_size env → rows !! s = Some row →
  greedy_rows env γ rows vs !! s =
    Some (greedy_row (action_values_of env γ row vs s)).
Proof.
  intros Hs Hrow. unfold greedy_rows.
  rewrite (greedy_rows_upto_lookup _ _ _ _ _ _ _ Hrow).
  by rewrite decide_True.
Qed.

(** The two functions on arguments of the expected shapes. *)
Lemma evaluation_shaped policy env γ v h ws rows vs :
  valid_env env →
  h !! policy = Some (Arr2 rows) → shaped_policy env rows →
  h !! v = Some (Arr1 vs) → shaped_value env vs →
  single_step_policy_evaluation policy env γ (Some v) (World h ws) =
    Ok (fresh (dom h))
       (World (<[fresh (dom h) := Arr1 (bellman_sweep env γ rows vs)]> h) ws).
Proof.
  intros [Hrew Hclosed] Hp Hshape Hv Hvs.
  apply single_step_policy_evaluation_Ok; try done.
  - destruct Hshape as [-> _]. done.
  - by rewrite Hrew.
  - intros s row a Hs Hrow Ha. rewrite Hvs.
    apply closed_model_lt; [done|done|].
    by rewrite <- (shaped_policy_row env rows s row).
Qed.

Lemma improvement_shaped policy env vf γ h ws rows vs :
  valid_env env → (0 < world_size env → 0 < action_space_n env) →
  h !! policy = Some (Arr2 rows) → shaped_policy env rows →
  h !! vf = Some (Arr1 vs) → shaped_value env vs →
  greedy_policy_from_value_function policy env vf γ (World h ws) =
    Ok policy (World (<[policy := Arr2 (greedy_rows env γ rows vs)]> h) ws).
Proof.
  intros [Hrew Hclosed] Hpos Hp Hshape Hv Hvs.
  apply greedy_policy_from_value_function_Ok; try done.
  - destruct Hshape as [-> _]. done.
  - intros s row _ Hrow. by eapply shaped_policy_row.
  - intros s a Hs Ha. rewrite Hvs. by apply closed_model_lt.
Qed.

(** ** The signed difference *)

Lemma np_sub_Ok xs ys w :
  length xs = length ys → np_sub xs ys w = Ok (zip_with Qcminus xs ys) w.
Proof. intros H. unfold np_sub. by rewrite decide_True. Qed.

Lemma np_max_diff_Ok h ws v pv vs news :
  h !! v = Some (Arr1 vs) → h !! pv = Some (Arr1 news) →
  length vs = length news → 0 < length vs →
  np_max_diff v pv (World h ws) = Ok (signed_delta vs news) (World h ws).
Proof.
  intros Hv Hpv Hlen Hpos. unfold np_max_diff, load1.
  erewrite bind_Ok; last first.
  { erewrite bind_Ok; last by apply load_Ok. reflexivity. }
  erewrite bind_Ok; last first.
  { erewrite bind_Ok; last by apply load_Ok. reflexivity. }
  erewrite bind_Ok; last by apply np_sub_Ok.
  unfold signed_delta.
  destruct vs as [|x vs]; [simpl in Hpos; lia|].
  destruct news as [|y news]; [done|]. reflexivity.
Qed.

Lemma signed_delta_spec old new :
  length old = length new → 0 < length old →
  is_signed_max old new (signed_delta old new).
Proof.
  intros Hlen Hpos. unfold signed_delta.
  destruct (zip_with Qcminus old new) as [|d ds] eqn:Hz.
  { apply (f_equal length) in Hz. rewrite length_zip_with in Hz.
    simpl in Hz. lia. }
  destruct (foldl_Qc_max_spec ds d) as [Hin Hle].
  rewrite <- Hz in Hin, Hle. split.
  - apply list_elem_of_lookup in Hin as [s Hs].
    apply lookup_zip_with_Some in Hs as (x & y & Heq & Hx & Hy).
    exists s. split; [by eapply lookup_lt_Some|].
    unfold at0. by rewrite Hx, Hy.
  - intros s Hs. rewrite Forall_forall in Hle. apply Hle.
    destruct (lookup_lt_is_Some_2 old s Hs) as [x Hx].
    destruct (lookup_lt_is_Some_2 new s) as [y Hy]; [lia|].
    unfold at0. rewrite Hx, Hy. simpl.
    apply list_elem_of_lookup. exists s.
    apply lookup_zip_with_Some. eauto.
Qed.

(** ** One iteration of the control loops *)

Lemma policy_iteration_step_Ok policy env kw v h ws rows vs :
  valid_env env → 0 < world_size env → 0 < action_space_n env →
  h !! policy = Some (Arr2 rows) → shaped_policy env rows →
  h !! v = Some (Arr1 vs) → shaped_value env vs →
  let pv := fresh (dom h) in
  let news := bellman_sweep env (discount_of kw) rows vs in
  policy_iteration_step policy env kw v (World h ws) =
    Ok (pv, signed_delta vs news, policy)
       (World (<[policy := Arr2 (greedy_rows env (discount_of kw) rows news)]>
                (<[pv := Arr1 news]> h)) ws).
Proof.
  intros Henv HN HA Hp Hshape Hv Hvs pv news.
  unfold policy_iteration_step.
  erewrite bind_Ok; last by eapply evaluation_shaped.
  fold pv news.
  assert (Hpv : pv ≠ v) by (by eapply fresh_neq).
  assert (Hpp : pv ≠ policy) by (by eapply fresh_neq).
  erewrite bind_Ok; last first.
  { apply np_max_diff_Ok with (vs := vs) (news := news).
    - by rewrite lookup_insert_ne.
    - by rewrite lookup_insert_eq.
    - unfold news. rewrite length_bellman_sweep. done.
    - rewrite Hvs. done. }
  erewrite bind_Ok; last first.
  { eapply improvement_shaped with (rows := rows) (vs := news); try done.
    - by rewrite lookup_insert_ne.
    - by rewrite lookup_insert_eq.
    - apply shaped_bellman_sweep. }
  reflexivity.
Qed.

Lemma value_iteration_sweep_Ok policy env kw v h ws rows vs :
  valid_env env → 0 < world_size env →
  h !! policy = Some (Arr2 rows) → shaped_policy env rows →
  h !! v = Some (Arr1 vs) → shaped_value env vs →
  let pv := fresh (dom h) in
  let news := bellman_sweep env (discount_of kw) rows vs in
  value_iteration_sweep policy env kw v (World h ws) =
    Ok (pv, signed_delta vs news) (World (<[pv := Arr1 news]> h) ws).
Proof.
  intros Henv HN Hp Hshape Hv Hvs pv news.
  unfold value_iteration_sweep.
  erewrite bind_Ok; last by eapply evaluation_shaped.
  fold pv news.
  assert (Hpv : pv ≠ v) by (by eapply fresh_neq).
  erewrite bind_Ok; last first.
  { apply np_max_diff_Ok with (vs := vs) (news := news).
    - by rewrite lookup_insert_ne.
    - by rewrite lookup_insert_eq.
    - unfold news. rewrite length_bellman_sweep. done.
    - rewrite Hvs. done. }
  reflexivity.
Qed.

(** The test of line 98 reads one and the same array twice. *)
Lemma policies_judged_equal_same h ws l a :
  h !! l = Some a →
  policies_judged_equal l l (World h ws) = Ok true (World h ws).
Proof.
  intros Hl. unfold policies_judged_equal.
  erewrite bind_Ok; last by apply load_Ok.
  erewrite bind_Ok; last by apply load_Ok.
  by rewrite bool_decide_eq_true_2.
Qed.

(** One unrolling of the loop of [policy_iteration]. *)
Lemma policy_iteration_loop_unfold fuel policy env threshold max_steps kw v k
    h ws rows vs :
  valid_env env → 0 < world_size env → 0 < action_space_n env →
  h !! policy = Some (Arr2 rows) → shaped_policy env rows →
  h !! v = Some (Arr1 vs) → shaped_value env vs →
  let pv := fresh (dom h) in
  let news := bellman_sweep env (discount_of kw) rows vs in
  let h' := <[policy := Arr2 (greedy_rows env (discount_of kw) rows news)]>
              (<[pv := Arr1 news]> h) in
  policy_iteration_loop (S fuel) policy env threshold max_steps kw v k
    (World h ws) =
  if decide (signed_delta vs news < threshold)%Qc then
    Ok (pv, policy) (World h' ws)
  else if decide ((k + 1)%Z = max_steps) then
    Ok (pv, policy) (World h' (ws ++ [policy_iteration_warning max_steps]))
  else
    policy_iteration_loop fuel policy env threshold max_steps kw pv (k + 1)%Z
      (World h' ws).
Proof.
  intros Henv HN HA Hp Hshape Hv Hvs pv news h'.
  simpl policy_iteration_loop.
  erewrite bind_Ok; last by eapply policy_iteration_step_Ok.
  fold pv news h'. simpl.
  repeat case_decide; reflexivity.
Qed.

(** One unrolling of the loop of [value_iteration]. *)
Lemma value_iteration_loop_unfold fuel policy env threshold max_steps kw v k
    h ws rows vs :
  valid_env env → 0 < world_size env → 0 < action_space_n env →
  h !! policy = Some (Arr2 rows) → shaped_policy env rows →
  h !! v = Some (Arr1 vs) → shaped_value env vs →
  let pv := fresh (dom h) in
  let news := bellman_sweep env (discount_of kw) rows vs in
  let h1 := <[pv := Arr1 news]> h in
  value_iteration_loop (S fuel) env threshold max_steps kw policy v k
    (World h ws) =
  if decide (signed_delta vs news < threshold)%Qc then
    Ok (pv, policy)
       (World (<[policy := Arr2 (greedy_rows env (discount_of kw) rows news)]> h1)
              ws)
  else if decide ((k + 1)%Z = max_steps) then
    Ok (pv, policy) (World h1 (ws ++ [value_iteration_warning max_steps]))
  else
    value_iteration_loop fuel env threshold max_steps kw policy pv (k + 1)%Z
      (World h1 ws).
Proof.
  intros Henv HN HA Hp Hshape Hv Hvs pv news h1.
  simpl value_iteration_loop.
  erewrite bind_Ok; last by eapply value_iteration_sweep_Ok.
  fold pv news h1. simpl.
  assert (Hpp : pv ≠ policy) by (by eapply fresh_neq).
  case_decide.
  - erewrite bind_Ok; last first.
    { apply (improvement_shaped policy env pv (discount_of kw) h1 ws rows news);
        [done|by intros _|by unfold h1; rewrite lookup_insert_ne|done
        |by unfold h1; rewrite lookup_insert_eq|apply shaped_bellman_sweep]. }
    erewrite bind_Ok; last first.
    { eapply policies_judged_equal_same. by rewrite lookup_insert_eq. }
    reflexivity.
  - case_decide; reflexivity.
Qed.

(** ** Greedy rows are distributions *)

Lemma Qc_of_nat_S n : Qc_of_nat (S n) = (Qc_of_nat n + 1)%Qc.
Proof.
  unfold Qc_of_nat. rewrite Nat2Z.inj_succ. unfold Z.succ.
  by rewrite Z2Qc_inj_add, Z2Qc_inj_1.
Qed.

Lemma Qc_of_nat_pos n : 0 < n → (0 < Qc_of_nat n)%Qc.
Proof.
  intros Hn. unfold Qc_of_nat. rewrite <- Z2Qc_inj_0.
  rewrite <- Z2Qc_inj_lt. lia.
Qed.

Lemma Qc_sum_indicator (P : nat → Prop) `{!∀ a, Decision (P a)} (c : Qc)
    (l : list nat) :
  Qc_sum ((λ a, if decide (P a) then c else 0%Qc) <$> l) =
    (Qc_of_nat (length (filter P l)) * c)%Qc.
Proof.
  induction l as [|a l IH].
  - rewrite filter_nil. unfold Qc_of_nat. change (Z.of_nat (length [])) with 0%Z.
    rewrite Z2Qc_inj_0. simpl. ring.
  - rewrite fmap_cons, filter_cons. simpl Qc_sum. rewrite IH.
    case_decide.
    + simpl length. rewrite Qc_of_nat_S. ring.
    + ring.
Qed.

Lemma max_set_nonempty avs : avs ≠ [] → 0 < length (max_set avs).
Proof.
  intros Hne. destruct avs as [|x xs]; [done|].
  destruct (foldl_Qc_max_spec xs x) as [Hin Hle].
  apply list_elem_of_lookup in Hin as [a Ha].
  assert (a ∈ max_set (x :: xs)) as Hmem.
  { unfold max_set. apply list_elem_of_filter. split.
    - unfold attains_max. by rewrite Ha.
    - apply elem_of_seq. apply lookup_lt_Some in Ha. lia. }
  destruct (max_set (x :: xs)); [by apply elem_of_nil in Hmem|simpl; lia].
Qed.

Lemma greedy_row_distribution avs : avs ≠ [] → distribution (greedy_row avs).
Proof.
  intros Hne. pose proof (max_set_nonempty avs Hne) as Hpos.
  pose proof (Qc_of_nat_pos _ Hpos) as Hk.
  split.
  - unfold greedy_row. apply Forall_fmap, Forall_forall. intros a _. simpl.
    case_decide; [|apply Qcle_refl].
    apply Qclt_le_weak. unfold Qcdiv. rewrite Qcmult_1_l.
    by apply Qcinv_pos.
  - unfold greedy_row.
    rewrite (Qc_sum_indicator (attains_max avs)). fold (max_set avs).
    field. intros Heq. rewrite Heq in Hk. by apply Qclt_not_eq in Hk.
Qed.

Lemma greedy_row_lookup avs a :
  a < length avs →
  greedy_row avs !! a =
    Some (if decide (attains_max avs a)
          then (1 / Qc_of_nat (length (max_set avs)))%Qc else 0%Qc).
Proof.
  intros Ha. unfold greedy_row. rewrite list_lookup_fmap.
  by rewrite lookup_seq_lt.
Qed.

Lemma half_eq : (1 / Qc_of_nat 2)%Qc = half.
Proof. apply Qc_is_canon. reflexivity. Qed.

(** ** Extensionality of the loops *)

Lemma bind_ext {A B} (m1 m2 : M A) (k1 k2 : A → M B) w :
  m1 w = m2 w → (∀ a w', k1 a w' = k2 a w') →
  (m1 ≫= k1) w = (m2 ≫= k2) w.
Proof.
  intros Hm Hk. rewrite !bind_unfold, Hm.
  destruct (m2 w); [apply Hk|done|done].
Qed.

Lemma for_fold_ext {A S} (xs : list A) (b1 b2 : A → S → M S) s w :
  (∀ x s w, b1 x s w = b2 x s w) →
  for_fold xs b1 s w = for_fold xs b2 s w.
Proof.
  intros Hb. revert s w. induction xs as [|x xs IH]; intros s w; [done|].
  simpl. apply bind_ext; [apply Hb|]. intros s' w'. apply IH.
Qed.

Lemma for_each_ext {A} (xs : list A) (b1 b2 : A → M unit) w :
  (∀ x w, b1 x w = b2 x w) → for_each xs b1 w = for_each xs b2 w.
Proof. intros Hb. apply for_fold_ext. intros x _ w'. apply Hb. Qed.

(** ** The loops stay within the step budget *)

Lemma no_timeout_ret {A} (a : A) : no_timeout (mret a : M A).
Proof. intros w. done. Qed.

Lemma no_timeout_raise {A} e : no_timeout (raise e : M A).
Proof. intros w. done. Qed.

Lemma no_timeout_bind {A B} (m : M A) (k : A → M B) :
  no_timeout m → (∀ a, no_timeout (k a)) → no_timeout (m ≫= k).
Proof.
  intros Hm Hk w. rewrite bind_unfold. specialize (Hm w).
  destruct (m w); [apply Hk|done|done].
Qed.

Lemma no_timeout_for_fold {A S} (xs : list A) (body : A → S → M S) s :
  (∀ x s, no_timeout (body x s)) → no_timeout (for_fold xs body s).
Proof.
  intros Hb. revert s. induction xs as [|x xs IH]; intros s; simpl.
  - apply no_timeout_ret.
  - apply no_timeout_bind; [apply Hb|apply IH].
Qed.

Lemma no_timeout_for_each {A} (xs : list A) (body : A → M unit) :
  (∀ x, no_timeout (body x)) → no_timeout (for_each xs body).
Proof. intros Hb. apply no_timeout_for_fold. intros x _. apply Hb. Qed.

Lemma no_timeout_load l : no_timeout (load l).
Proof. intros w. unfold load. by destruct (heap w !! l). Qed.

Lemma no_timeout_store l a : no_timeout (store l a).
Proof. intros w. done. Qed.

Lemma no_timeout_index {A} (xs : list A) i : no_timeout (index xs i).
Proof. intros w. unfold index. by destruct (xs !! i). Qed.

Lemma no_timeout_np_zeros n : no_timeout (np_zeros n).
Proof. intros w. done. Qed.

Lemma no_timeout_warn wn : no_timeout (warn wn).
Proof. intros w. done. Qed.

Create HintDb no_timeout discriminated.

#[local] Hint Resolve no_timeout_ret no_timeout_raise no_timeout_load
  no_timeout_store no_timeout_index no_timeout_np_zeros no_timeout_warn
  : no_timeout.

(** Goes through a computation built from binds, loops, case distinctions
    and computations already known to return or raise. *)
Ltac no_timeout_step :=
  match goal with
  | |- no_timeout (_ ≫= _) => apply no_timeout_bind; [|intros ?]
  | |- no_timeout (for_each _ _) => apply no_timeout_for_each; intros ?
  | |- no_timeout (for_fold _ _ _) => apply no_timeout_for_fold; intros ? ?
  | |- no_timeout (match ?x with _ => _ end) => destruct x
  | |- no_timeout (if ?x then _ else _) => destruct x
  | |- no_timeout _ => solve [auto with no_timeout]
  end.

Ltac no_timeout := repeat no_timeout_step.

Lemma no_timeout_getitem1 l i : no_timeout (getitem1 l i).
Proof. unfold getitem1. no_timeout. Qed.

Lemma no_timeout_iadd1 l i x : no_timeout (iadd1 l i x).
Proof. unfold iadd1. no_timeout. Qed.

Lemma no_timeout_getrow l i : no_timeout (getrow l i).
Proof. unfold getrow. no_timeout. Qed.

#[local] Hint Resolve no_timeout_getitem1 no_timeout_iadd1 no_timeout_getrow
  : no_timeout.

Lemma no_timeout_getitem2 l i j : no_timeout (getitem2 l i j).
Proof. unfold getitem2. no_timeout. Qed.

Lemma no_timeout_setrow l i new_row : no_timeout (setrow l i new_row).
Proof. unfold setrow. no_timeout. Qed.

Lemma no_timeout_np_amax xs : no_timeout (np_amax xs).
Proof. unfold np_amax. no_timeout. Qed.

Lemma no_timeout_np_sub xs ys : no_timeout (np_sub xs ys).
Proof. unfold np_sub. no_timeout. Qed.

Lemma no_timeout_load1 l : no_timeout (load1 l).
Proof. unfold load1. no_timeout. Qed.

#[local] Hint Resolve no_timeout_getitem2 no_timeout_setrow no_timeout_np_amax
  no_timeout_np_sub no_timeout_load1 : no_timeout.

Lemma no_timeout_np_max_diff v pv : no_timeout (np_max_diff v pv).
Proof. unfold np_max_diff. no_timeout. Qed.

Lemma no_timeout_default_value_function env vf :
  no_timeout (default_value_function env vf).
Proof. unfold default_value_function. no_timeout. Qed.

#[local] Hint Resolve no_timeout_np_max_diff no_timeout_default_value_function
  : no_timeout.

Lemma no_timeout_evaluation policy env γ vf :
  no_timeout (single_step_policy_evaluation policy env γ vf).
Proof. unfold single_step_policy_evaluation. no_timeout. Qed.

Lemma no_timeout_improvement policy env vf γ :
  no_timeout (greedy_policy_from_value_function policy env vf γ).
Proof. unfold greedy_policy_from_value_function. no_timeout. Qed.

Lemma no_timeout_policies_judged_equal l1 l2 :
  no_timeout (policies_judged_equal l1 l2).
Proof. unfold policies_judged_equal. no_timeout. Qed.

#[local] Hint Resolve no_timeout_evaluation no_timeout_improvement
  no_timeout_policies_judged_equal : no_timeout.

Lemma no_timeout_policy_iteration_step policy env kw v :
  no_timeout (policy_iteration_step policy env kw v).
Proof. unfold policy_iteration_step. no_timeout. Qed.

Lemma no_timeout_value_iteration_sweep policy env kw v :
  no_timeout (value_iteration_sweep policy env kw v).
Proof. unfold value_iteration_sweep. no_timeout. Qed.

#[local] Hint Resolve no_timeout_policy_iteration_step
  no_timeout_value_iteration_sweep : no_timeout.

(** With [max_steps - step_number] units of fuel left, one per iteration, the
    loops return or raise: [step_number] reaches [max_steps] first. *)
Lemma no_timeout_policy_iteration_loop fuel policy env threshold max_steps kw
    v k :
  0 < fuel → (k + Z.of_nat fuel)%Z = max_steps →
  no_timeout (policy_iteration_loop fuel policy env threshold max_steps kw v k).
Proof.
  revert v k. induction fuel as [|fuel IH]; intros v k Hpos Hk; [lia|].
  simpl. apply no_timeout_bind; [apply no_timeout_policy_iteration_step|].
  intros [[pv delta] gp]. case_decide; [apply no_timeout_ret|].
  case_decide.
  - apply no_timeout_bind; [apply no_timeout_warn|].
    intros _. apply no_timeout_ret.
  - apply IH; lia.
Qed.

Lemma no_timeout_value_iteration_loop fuel env threshold max_steps kw gp v k :
  0 < fuel → (k + Z.of_nat fuel)%Z = max_steps →
  no_timeout (value_iteration_loop fuel env threshold max_steps kw gp v k).
Proof.
  revert gp v k. induction fuel as [|fuel IH]; intros gp v k Hpos Hk; [lia|].
  simpl. apply no_timeout_bind; [apply no_timeout_value_iteration_sweep|].
  intros [pv delta].
  assert (Hrest : ∀ gp', no_timeout (
    if decide ((k + 1)%Z = max_steps) then
      warn (value_iteration_warning max_steps);; mret (pv, gp')
    else value_iteration_loop fuel env threshold max_steps kw gp' pv (k + 1)%Z)).
  { intros gp'. case_decide.
    - apply no_timeout_bind; [apply no_timeout_warn|].
      intros _. apply no_timeout_ret.
    - apply IH; lia. }
  destruct (decide (delta < threshold)%Qc) as [Hlt|Hge]; [|apply Hrest].
  apply no_timeout_bind; [apply no_timeout_improvement|]. intros np.
  apply no_timeout_bind; [apply no_timeout_policies_judged_equal|].
  intros [|]; [apply no_timeout_ret|apply Hrest].
Qed.

(** ** The loops on well-shaped arguments *)

Lemma policy_iteration_loop_returns fuel policy env threshold max_steps kw :
  valid_env env → 0 < world_size env → 0 < action_space_n env →
  ∀ v k h ws rows vs,
  h !! policy = Some (Arr2 rows) → shaped_policy env rows →
  h !! v = Some (Arr1 vs) → shaped_value env vs →
  0 < fuel → (k + Z.of_nat fuel)%Z = max_steps →
  ∃ pv w' rows' vs',
    policy_iteration_loop fuel policy env threshold max_steps kw v k
      (World h ws) = Ok (pv, policy) w' ∧
    heap w' !! policy = Some (Arr2 rows') ∧ shaped_policy env rows' ∧
    heap w' !! pv = Some (Arr1 vs') ∧ shaped_value env vs' ∧
    h !! pv = None ∧
    (warnings_log w' = ws ∨
     warnings_log w' = ws ++ [policy_iteration_warning max_steps]).
Proof.
  intros Henv HN HA.
  induction fuel as [|fuel IH]; intros v k h ws rows vs Hp Hshape Hv Hvs Hpos Hk;
    [lia|].
  rewrite (policy_iteration_loop_unfold fuel policy env threshold max_steps kw
             v k h ws rows vs) by done.
  set (pv := fresh (dom h)).
  set (news := bellman_sweep env (discount_of kw) rows vs).
  set (rows' := greedy_rows env (discount_of kw) rows news).
  assert (Hpp : pv ≠ policy) by (by eapply fresh_neq).
  assert (Hfresh : h !! pv = None) by apply fresh_not_allocated.
  assert (H1 : (<[policy := Arr2 rows']> (<[pv := Arr1 news]> h)) !! policy
               = Some (Arr2 rows')) by (by rewrite lookup_insert_eq).
  assert (H2 : (<[policy := Arr2 rows']> (<[pv := Arr1 news]> h)) !! pv
               = Some (Arr1 news)).
  { rewrite lookup_insert_ne by done. by rewrite lookup_insert_eq. }
  assert (H3 : shaped_policy env rows') by (by apply shaped_greedy_rows).
  assert (H4 : shaped_value env news) by apply shaped_bellman_sweep.
  case_decide; [|case_decide].
  - exists pv, (World (<[policy := Arr2 rows']> (<[pv := Arr1 news]> h)) ws),
      rows', news. simpl. eauto 10.
  - exists pv, (World (<[policy := Arr2 rows']> (<[pv := Arr1 news]> h))
                      (ws ++ [policy_iteration_warning max_steps])),
      rows', news. simpl. eauto 10.
  - destruct (IH pv (k + 1)%Z _ ws rows' news H1 H3 H2 H4)
      as (pv' & w' & rows'' & vs'' & Hrun & Ha & Hb & Hc & Hd & He & Hf);
      [lia|lia|].
    exists pv', w', rows'', vs''. split_and!; try done.
    destruct (decide (pv' = policy)) as [->|Hne1].
    { by rewrite lookup_insert_eq in He. }
    rewrite lookup_insert_ne in He by done.
    destruct (decide (pv' = pv)) as [->|Hne2].
    { by rewrite lookup_insert_eq in He. }
    by rewrite lookup_insert_ne in He.
Qed.

Lemma value_iteration_loop_returns fuel policy env threshold max_steps kw :
  valid_env env → 0 < world_size env → 0 < action_space_n env →
  ∀ v k h ws rows vs,
  h !! policy = Some (Arr2 rows) → shaped_policy env rows →
  h !! v = Some (Arr1 vs) → shaped_value env vs →
  0 < fuel → (k + Z.of_nat fuel)%Z = max_steps →
  ∃ pv w' rows' vs',
    value_iteration_loop fuel env threshold max_steps kw policy v k
      (World h ws) = Ok (pv, policy) w' ∧
    heap w' !! policy = Some (Arr2 rows') ∧ shaped_policy env rows' ∧
    heap w' !! pv = Some (Arr1 vs') ∧ shaped_value env vs' ∧
    h !! pv = None ∧
    (warnings_log w' = ws ∨
     warnings_log w' = ws ++ [value_iteration_warning max_steps]).
Proof.
  intros Henv HN HA.
  induction fuel as [|fuel IH]; intros v k h ws rows vs Hp Hshape Hv Hvs Hpos Hk;
    [lia|].
  rewrite (value_iteration_loop_unfold fuel policy env threshold max_steps kw
             v k h ws rows vs) by done.
  set (pv := fresh (dom h)).
  set (news := bellman_sweep env (discount_of kw) rows vs).
  set (rows' := greedy_rows env (discount_of kw) rows news).
  assert (Hpp : pv ≠ policy) by (by eapply fresh_neq).
  assert (Hfresh : h !! pv = None) by apply fresh_not_allocated.
  assert (H1 : (<[pv := Arr1 news]> h) !! policy = Some (Arr2 rows))
    by (by rewrite lookup_insert_ne).
  assert (H2 : (<[pv := Arr1 news]> h) !! pv = Some (Arr1 news))
    by (by rewrite lookup_insert_eq).
  assert (H3 : shaped_policy env rows') by (by apply shaped_greedy_rows).
  assert (H4 : shaped_value env news) by apply shaped_bellman_sweep.
  case_decide; [|case_decide].
  - exists pv, (World (<[policy := Arr2 rows']> (<[pv := Arr1 news]> h)) ws),
      rows', news. simpl. rewrite lookup_insert_eq.
    rewrite lookup_insert_ne by done. rewrite lookup_insert_eq. eauto 10.
  - exists pv, (World (<[pv := Arr1 news]> h)
                      (ws ++ [value_iteration_warning max_steps])),
      rows, news. simpl. eauto 10.
  - destruct (IH pv (k + 1)%Z _ ws rows news H1 Hshape H2 H4)
      as (pv' & w' & rows'' & vs'' & Hrun & Ha & Hb & Hc & Hd & He & Hf);
      [lia|lia|].
    exists pv', w', rows'', vs''. split_and!; try done.
    destruct (decide (pv' = pv)) as [->|Hne2].
    { by rewrite lookup_insert_eq in He. }
    by rewrite lookup_insert_ne in He.
Qed.

(** ** Runs on the corridor *)

Ltac run := apply (bool_decide_unpack _); vm_compute; exact I.

(** One sweep from the all-zero value function. *)
Example evaluation_from_zero :
  single_step_policy_evaluation policy0 corridor 1%Qc (Some v0) store0 =
    Ok 3%positive
       (World {[ policy0 := Arr2 uniform_policy;
                 v0 := Arr1 [0; 0; 0]%Qc;
                 3%positive := Arr1 [-1; -1; 0]%Qc ]} []).
Proof. run. Qed.

(** Without a value function the evaluator allocates the zeros itself. *)
Example evaluation_default_value_function :
  single_step_policy_evaluation policy0 corridor 1%Qc None store0 =
    Ok 4%positive
       (World {[ policy0 := Arr2 uniform_policy;
                 v0 := Arr1 [0; 0; 0]%Qc;
                 3%positive := Arr1 [0; 0; 0]%Qc;
                 4%positive := Arr1 [-1; -1; 0]%Qc ]} []).
Proof. run. Qed.

(** In cells 0 and 1 moving right is the only maximiser; in the terminal cell
    both actions tie and share the probability. *)
Example improvement_with_a_tie :
  greedy_policy_from_value_function policy0 corridor v0 1%Qc store1 =
    Ok policy0
       (World {[ policy0 := Arr2 [[0; 1]; [0; 1]; [half; half]]%Qc;
                 v0 := Arr1 uniform_value ]} []).
Proof. run. Qed.

(** An environment without actions: [np.amax] raises on the empty array. *)
Example improvement_without_actions :
  greedy_policy_from_value_function policy0
    {| world_size := 1; action_space_n := 0; reward_matrix := [0%Qc];
       look_step_ahead := λ s a, (s, 0%Qc, true) |}
    v0 1%Qc
    (World {[ policy0 := Arr2 [[]]; v0 := Arr1 [0%Qc] ]} []) =
  Raise ValueError.
Proof. reflexivity. Qed.

(** A transition model that leaves the state space: index fault. *)
Example evaluation_out_of_range :
  single_step_policy_evaluation policy0
    {| world_size := 1; action_space_n := 1; reward_matrix := [0%Qc];
       look_step_ahead := λ s a, (7, 0%Qc, false) |}
    1%Qc (Some v0)
    (World {[ policy0 := Arr2 [[1%Qc]]; v0 := Arr1 [0%Qc] ]} []) =
  Raise IndexError.
Proof. reflexivity. Qed.

(** The difference is signed: the value of cell 1 moves by 2, upwards, and
    the loop takes [delta = 0 < threshold] and returns after one step. *)
Example policy_iteration_signed_delta :
  signed_delta [Qc_of_Z (-10); Qc_of_Z (-8); 0%Qc]
               [Qc_of_Z (-10); Qc_of_Z (-6); 0%Qc] = 0%Qc ∧
  policy_iteration 1 policy0 corridor (Some v0) default_threshold 1000 None
    store2 =
    Ok (3%positive, policy0)
       (World {[ policy0 := Arr2 [[0; 1]; [0; 1]; [half; half]]%Qc;
                 v0 := Arr1 [Qc_of_Z (-10); Qc_of_Z (-8); 0%Qc];
                 3%positive := Arr1 [Qc_of_Z (-10); Qc_of_Z (-6); 0%Qc] ]} []).
Proof. split; run. Qed.

(** Two steps are not enough from the all-zero value function: the budget is
    reached and the warning is logged. *)
Example policy_iteration_budget :
  policy_iteration 2 policy0 corridor (Some v0) default_threshold 2 None
    store0 =
    Ok (4%positive, policy0)
       (World {[ policy0 := Arr2 [[0; 1]; [1; 0]; [half; half]]%Qc;
                 v0 := Arr1 [0; 0; 0]%Qc;
                 3%positive := Arr1 [-1; -1; 0]%Qc;
                 4%positive := Arr1 [-2; -1; 0]%Qc ]}
             [policy_iteration_warning 2]).
Proof. run. Qed.

(** With [max_steps = 0] the counter never equals the budget: the loop uses
    whatever fuel it is given. *)
Example value_iteration_without_budget :
  value_iteration 50 policy0 corridor (Some v0) default_threshold 0 None
    store0 = OutOfFuel.
Proof. run. Qed.

(** * The evaluator *)

(** C1. For every state [s], [single_step_policy_evaluation] returns a
    freshly allocated value array whose entry [s] is
    [rewardTable[s] + Σ_a policy[s][a] * discount * oldValue[nextState(s,a)]],
    every entry being computed from the same previous value array; the policy
    array and the previous value array (and every other array) are left as
    they were. *)
Theorem single_step_policy_evaluation_sweep policy env γ v h ws rows vs :
  valid_env env →
  h !! policy = Some (Arr2 rows) → shaped_policy env rows →
  h !! v = Some (Arr1 vs) → shaped_value env vs →
  ∃ v_new news w',
    single_step_policy_evaluation policy env γ (Some v) (World h ws)
      = Ok v_new w' ∧
    h !! v_new = None ∧
    heap w' !! v_new = Some (Arr1 news) ∧
    length news = world_size env ∧
    (∀ s, s < world_size env →
       news !! s =
         Some (at0 (reward_matrix env) s +
               Qc_sum (imap (λ a p, p * γ * at0 vs (next_state_of env s a))
                            (rows !!! s)))%Qc) ∧
    (∀ l, l ≠ v_new → heap w' !! l = h !! l) ∧
    heap w' !! policy = Some (Arr2 rows) ∧
    heap w' !! v = Some (Arr1 vs) ∧
    warnings_log w' = ws.
Proof.
  intros Henv Hp Hshape Hv Hvs.
  exists (fresh (dom h)), (bellman_sweep env γ rows vs).
  eexists. split; [by apply evaluation_shaped|]. simpl.
  split; [apply fresh_not_allocated|].
  split; [by rewrite lookup_insert_eq|].
  split; [apply length_bellman_sweep|].
  split; [intros s Hs; by apply bellman_sweep_lookup|].
  split; [intros l Hl; by rewrite lookup_insert_ne|].
  split; [rewrite lookup_insert_ne; [done|by eapply fresh_neq]|].
  split; [rewrite lookup_insert_ne; [done|by eapply fresh_neq]|done].
Qed.

Lemma single_step_policy_evaluation_sweep_witness :
  ∃ v_new news w',
    single_step_policy_evaluation policy0 corridor 1%Qc (Some v0) store0
      = Ok v_new w' ∧
    heap store0 !! v_new = None ∧
    heap w' !! v_new = Some (Arr1 news) ∧
    length news = 3 ∧
    (∀ s, s < 3 →
       news !! s =
         Some (at0 (reward_matrix corridor) s +
               Qc_sum (imap (λ a p, p * 1 * at0 [0; 0; 0] (next_state_of corridor s a))
                            (uniform_policy !!! s)))%Qc) ∧
    (∀ l, l ≠ v_new → heap w' !! l = heap store0 !! l) ∧
    heap w' !! policy0 = Some (Arr2 uniform_policy) ∧
    heap w' !! v0 = Some (Arr1 [0; 0; 0]%Qc) ∧
    warnings_log w' = [].
Proof.
  apply (single_step_policy_evaluation_sweep policy0 corridor 1%Qc v0
           (heap store0) [] uniform_policy [0; 0; 0]%Qc).
  - apply (bool_decide_unpack _). vm_compute. exact I.
  - reflexivity.
  - apply (bool_decide_unpack _). vm_compute. exact I.
  - reflexivity.
  - reflexivity.
Defined.

(** C8. If [value] is a fixed point of the evaluator's update, that is
    [value[s] = rewardTable[s] + Σ_a policy[s][a] * discount *
    value[nextState(s,a)]] for every state [s], then the array returned by
    [single_step_policy_evaluation] holds [value] again. *)
Theorem single_step_policy_evaluation_fixed_point policy env γ v h ws rows vs :
  valid_env env →
  h !! policy = Some (Arr2 rows) → shaped_policy env rows →
  h !! v = Some (Arr1 vs) → shaped_value env vs →
  (∀ s, s < world_size env →
     at0 vs s =
       (at0 (reward_matrix env) s +
        Qc_sum (imap (λ a p, p * γ * at0 vs (next_state_of env s a))
                     (rows !!! s)))%Qc) →
  ∃ v_new w',
    single_step_policy_evaluation policy env γ (Some v) (World h ws)
      = Ok v_new w' ∧
    heap w' !! v_new = Some (Arr1 vs).
Proof.
  intros Henv Hp Hshape Hv Hvs Hfix.
  exists (fresh (dom h)). eexists.
  split; [by apply evaluation_shaped|]. simpl.
  rewrite lookup_insert_eq. do 2 f_equal.
  apply list_eq. intros s. destruct (decide (s < world_size env)) as [Hs|Hs].
  - rewrite bellman_sweep_lookup by done.
    unfold bellman_backup. rewrite <- Hfix by done.
    unfold at0. red in Hvs. rewrite <- Hvs in Hs.
    by destruct (lookup_lt_is_Some_2 vs s Hs) as [x ->].
  - rewrite !lookup_ge_None_2; [done| |].
    + red in Hvs. lia.
    + rewrite length_bellman_sweep. lia.
Qed.

Lemma single_step_policy_evaluation_fixed_point_witness :
  ∃ v_new w',
    single_step_policy_evaluation policy0 corridor 1%Qc (Some v0) store1
      = Ok v_new w' ∧
    heap w' !! v_new = Some (Arr1 uniform_value).
Proof.
  apply (single_step_policy_evaluation_fixed_point policy0 corridor 1%Qc v0
           (heap store1) [] uniform_policy uniform_value).
  - apply (bool_decide_unpack _). vm_compute. exact I.
  - reflexivity.
  - apply (bool_decide_unpack _). vm_compute. exact I.
  - reflexivity.
  - reflexivity.
  - intros s Hs. destruct s as [|[|[|s]]];
      [apply Qc_is_canon; reflexivity ..|simpl in Hs; lia].
Defined.

(** * The improver *)

(** C2. For every state [s], [greedy_policy_from_value_function] computes
    [actionValue[a] = policy[s][a] * (reward(s,a) + discount *
    value[nextState(s,a)])] for every action [a], and sets the output row of
    [s] to probability [1/|maxSet|] on every action attaining the maximum
    [actionValue] and [0] on all other actions; when exactly two actions
    attain the maximum, each of them receives exactly [0.5]. *)
Theorem greedy_policy_from_value_function_rows policy env vf γ h ws rows vs :
  valid_env env → 0 < action_space_n env →
  h !! policy = Some (Arr2 rows) → shaped_policy env rows →
  h !! vf = Some (Arr1 vs) → shaped_value env vs →
  ∃ l out w',
    greedy_policy_from_value_function policy env vf γ (World h ws) = Ok l w' ∧
    heap w' !! l = Some (Arr2 out) ∧
    ∀ s row, s < world_size env → rows !! s = Some row →
      let actionValue :=
        (λ a, at0 row a *
              (reward_of env s a + γ * at0 vs (next_state_of env s a)))%Qc
          <$> seq 0 (action_space_n env) in
      ∃ out_row,
        out !! s = Some out_row ∧
        length out_row = action_space_n env ∧
        (∀ a, a < action_space_n env →
           out_row !! a =
             Some (if decide (attains_max actionValue a)
                   then (1 / Qc_of_nat (length (max_set actionValue)))%Qc
                   else 0%Qc)) ∧
        (length (max_set actionValue) = 2 →
         ∀ a, a < action_space_n env →
           out_row !! a =
             Some (if decide (attains_max actionValue a) then half else 0%Qc)).
Proof.
  intros Henv HA Hp Hshape Hv Hvs.
  exists policy, (greedy_rows env γ rows vs). eexists.
  split; [apply improvement_shaped; (done || by intros _)|].
  split; [simpl; by rewrite lookup_insert_eq|].
  intros s row Hs Hrow actionValue.
  exists (greedy_row (action_values_of env γ row vs s)).
  assert (Hlen : length (action_values_of env γ row vs s) = action_space_n env)
    by apply length_action_values_of.
  split; [by apply greedy_rows_lookup|].
  split; [by rewrite length_greedy_row|].
  assert (Hlook : ∀ a, a < action_space_n env →
    greedy_row (action_values_of env γ row vs s) !! a =
      Some (if decide (attains_max actionValue a)
            then (1 / Qc_of_nat (length (max_set actionValue)))%Qc
            else 0%Qc)).
  { intros a Ha. apply greedy_row_lookup. rewrite <- Hlen in Ha. exact Ha. }
  split; [done|].
  intros Htwo a Ha. rewrite (Hlook a Ha), Htwo. by rewrite half_eq.
Qed.

Lemma greedy_policy_from_value_function_rows_witness :
  ∃ l out w',
    greedy_policy_from_value_function policy0 corridor v0 1%Qc store1
      = Ok l w' ∧
    heap w' !! l = Some (Arr2 out) ∧
    ∀ s row, s < 3 → uniform_policy !! s = Some row →
      let actionValue :=
        (λ a, at0 row a *
              (reward_of corridor s a +
               1 * at0 uniform_value (next_state_of corridor s a)))%Qc
          <$> seq 0 2 in
      ∃ out_row,
        out !! s = Some out_row ∧
        length out_row = 2 ∧
        (∀ a, a < 2 →
           out_row !! a =
             Some (if decide (attains_max actionValue a)
                   then (1 / Qc_of_nat (length (max_set actionValue)))%Qc
                   else 0%Qc)) ∧
        (length (max_set actionValue) = 2 →
         ∀ a, a < 2 →
           out_row !! a =
             Some (if decide (attains_max actionValue a) then half else 0%Qc)).
Proof.
  apply (greedy_policy_from_value_function_rows policy0 corridor v0 1%Qc
           (heap store1) [] uniform_policy uniform_value).
  - apply (bool_decide_unpack _). vm_compute. exact I.
  - simpl. lia.
  - reflexivity.
  - apply (bool_decide_unpack _). vm_compute. exact I.
  - reflexivity.
  - reflexivity.
Defined.

(** C6. After a call to [greedy_policy_from_value_function], every row of the
    returned policy is a probability distribution: its entries are
    non-negative and sum to one. *)
Theorem greedy_policy_from_value_function_distributions
    policy env vf γ h ws rows vs :
  valid_env env → 0 < action_space_n env →
  h !! policy = Some (Arr2 rows) → shaped_policy env rows →
  h !! vf = Some (Arr1 vs) → shaped_value env vs →
  ∃ l out w',
    greedy_policy_from_value_function policy env vf γ (World h ws) = Ok l w' ∧
    heap w' !! l = Some (Arr2 out) ∧
    length out = world_size env ∧
    Forall distribution out.
Proof.
  intros Henv HA Hp Hshape Hv Hvs.
  exists policy, (greedy_rows env γ rows vs). eexists.
  split; [apply improvement_shaped; (done || by intros _)|]. simpl.
  split; [by rewrite lookup_insert_eq|].
  destruct (shaped_greedy_rows env γ rows vs Hshape) as [Hlen _].
  split; [done|].
  apply Forall_lookup. intros s out_row Hs.
  assert (Hlt : s < world_size env).
  { rewrite <- Hlen. by eapply lookup_lt_Some. }
  destruct (lookup_lt_is_Some_2 rows s) as [row Hrow].
  { destruct Hshape as [-> _]. done. }
  rewrite (greedy_rows_lookup env γ rows vs s row Hlt Hrow) in Hs.
  inversion Hs; subst. apply greedy_row_distribution.
  intros Heq. apply (f_equal length) in Heq.
  rewrite length_action_values_of in Heq. simpl in Heq. lia.
Qed.

Lemma greedy_policy_from_value_function_distributions_witness :
  ∃ l out w',
    greedy_policy_from_value_function policy0 corridor v0 1%Qc store1
      = Ok l w' ∧
    heap w' !! l = Some (Arr2 out) ∧
    length out = 3 ∧
    Forall distribution out.
Proof.
  apply (greedy_policy_from_value_function_distributions policy0 corridor v0
           1%Qc (heap store1) [] uniform_policy uniform_value).
  - apply (bool_decide_unpack _). vm_compute. exact I.
  - simpl. lia.
  - reflexivity.
  - apply (bool_decide_unpack _). vm_compute. exact I.
  - reflexivity.
  - reflexivity.
Defined.

(** * What the functions do not depend on *)

(** C9. For two transition models that agree on [nextState(s,a)] for all
    [(s,a)] and on the state-indexed reward table, and differ only in the
    per-transition reward and the done flag that [look_step_ahead] returns,
    [single_step_policy_evaluation] gives the same outcome on the same
    remaining inputs; and the outcome of [greedy_policy_from_value_function]
    is the same when the models moreover agree on the per-transition reward,
    so that only the done flags differ. *)
Theorem step_reward_and_done_flag_unused env1 env2 :
  world_size env1 = world_size env2 →
  reward_matrix env1 = reward_matrix env2 →
  (∀ s a, next_state_of env1 s a = next_state_of env2 s a) →
  (∀ policy γ value_function w,
     single_step_policy_evaluation policy env1 γ value_function w =
     single_step_policy_evaluation policy env2 γ value_function w) ∧
  (action_space_n env1 = action_space_n env2 →
   (∀ s a, reward_of env1 s a = reward_of env2 s a) →
   ∀ policy value_function γ w,
     greedy_policy_from_value_function policy env1 value_function γ w =
     greedy_policy_from_value_function policy env2 value_function γ w).
Proof.
  intros HN Hrew Hnext. split.
  - intros policy γ vf w.
    unfold single_step_policy_evaluation, default_value_function.
    rewrite <- HN, <- Hrew.
    apply bind_ext; [by destruct vf|]. intros v w1.
    apply bind_ext; [done|]. intros v_new w2.
    apply bind_ext; [|done].
    apply for_each_ext. intros state w3.
    apply bind_ext; [done|]. intros r w4.
    apply bind_ext; [done|]. intros _ w5.
    apply bind_ext; [done|]. intros row w6.
    apply for_each_ext. intros [action action_prob] w7.
    specialize (Hnext state action). unfold next_state_of in Hnext.
    destruct (look_step_ahead env1 state action) as [[ns1 r1] d1].
    destruct (look_step_ahead env2 state action) as [[ns2 r2] d2].
    simpl in Hnext. by subst ns2.
  - intros HA Hr policy vf γ w. unfold greedy_policy_from_value_function.
    rewrite <- HN, <- HA.
    apply bind_ext; [|done].
    apply for_each_ext. intros state w1.
    apply bind_ext; [|done].
    apply for_fold_ext. intros action avs w2.
    specialize (Hnext state action). specialize (Hr state action).
    unfold next_state_of in Hnext. unfold reward_of in Hr.
    destruct (look_step_ahead env1 state action) as [[ns1 r1] d1].
    destruct (look_step_ahead env2 state action) as [[ns2 r2] d2].
    simpl in Hnext, Hr. by subst ns2 r2.
Qed.

Lemma step_reward_and_done_flag_unused_witness :
  (∀ policy γ value_function w,
     single_step_policy_evaluation policy corridor γ value_function w =
     single_step_policy_evaluation policy corridor_relabelled γ value_function w) ∧
  (∀ policy value_function γ w,
     greedy_policy_from_value_function policy corridor value_function γ w =
     greedy_policy_from_value_function policy corridor_never_done
       value_function γ w).
Proof.
  split.
  - apply (step_reward_and_done_flag_unused corridor corridor_relabelled).
    + reflexivity.
    + reflexivity.
    + intros s a. unfold next_state_of. simpl. by repeat case_decide.
  - apply (step_reward_and_done_flag_unused corridor corridor_never_done).
    + reflexivity.
    + reflexivity.
    + intros s a. unfold next_state_of. simpl. by repeat case_decide.
    + reflexivity.
    + intros s a. unfold reward_of. simpl. by repeat case_decide.
Defined.

(** * policy_iteration *)

(** C3. Each step of [policy_iteration] performs exactly one evaluation sweep
    of the current policy, computes the signed [delta = max_s (oldValue[s] -
    newValue[s])] (no absolute value), takes the new array as the value
    function, computes a greedy policy from the new value function, and when
    [delta < threshold] returns the pair [(policy_value, greedy_policy)]. *)
Theorem policy_iteration_single_sweep_per_step
    fuel policy env threshold max_steps kw v k h ws rows vs :
  valid_env env → 0 < world_size env → 0 < action_space_n env →
  h !! policy = Some (Arr2 rows) → shaped_policy env rows →
  h !! v = Some (Arr1 vs) → shaped_value env vs →
  ∃ policy_value greedy_policy news delta h',
    h !! policy_value = None ∧
    news = bellman_sweep env (discount_of kw) rows vs ∧
    is_signed_max vs news delta ∧
    h' !! policy_value = Some (Arr1 news) ∧
    h' !! greedy_policy =
      Some (Arr2 (greedy_rows env (discount_of kw) rows news)) ∧
    policy_iteration_loop (S fuel) policy env threshold max_steps kw v k
      (World h ws) =
    if decide (delta < threshold)%Qc then
      Ok (policy_value, greedy_policy) (World h' ws)
    else if decide ((k + 1)%Z = max_steps) then
      Ok (policy_value, greedy_policy)
         (World h' (ws ++ [policy_iteration_warning max_steps]))
    else
      policy_iteration_loop fuel policy env threshold max_steps kw
        policy_value (k + 1)%Z (World h' ws).
Proof.
  intros Henv HN HA Hp Hshape Hv Hvs.
  set (news := bellman_sweep env (discount_of kw) rows vs).
  exists (fresh (dom h)), policy, news, (signed_delta vs news).
  exists (<[policy := Arr2 (greedy_rows env (discount_of kw) rows news)]>
            (<[fresh (dom h) := Arr1 news]> h)).
  split; [apply fresh_not_allocated|].
  split; [done|].
  split.
  { apply signed_delta_spec.
    - unfold news. rewrite length_bellman_sweep. done.
    - rewrite Hvs. done. }
  split.
  { rewrite lookup_insert_ne by (symmetry; by eapply fresh_neq).
    by rewrite lookup_insert_eq. }
  split; [by rewrite lookup_insert_eq|].
  by apply policy_iteration_loop_unfold.
Qed.

Lemma policy_iteration_single_sweep_per_step_witness :
  ∃ policy_value greedy_policy news delta h',
    heap store0 !! policy_value = None ∧
    news = bellman_sweep corridor 1%Qc uniform_policy [0; 0; 0]%Qc ∧
    is_signed_max [0; 0; 0]%Qc news delta ∧
    h' !! policy_value = Some (Arr1 news) ∧
    h' !! greedy_policy =
      Some (Arr2 (greedy_rows corridor 1%Qc uniform_policy news)) ∧
    policy_iteration_loop 3 policy0 corridor default_threshold 100 None v0 0
      store0 =
    if decide (delta < default_threshold)%Qc then
      Ok (policy_value, greedy_policy) (World h' [])
    else if decide ((0 + 1)%Z = 100%Z) then
      Ok (policy_value, greedy_policy)
         (World h' ([] ++ [policy_iteration_warning 100]))
    else
      policy_iteration_loop 2 policy0 corridor default_threshold 100 None
        policy_value (0 + 1)%Z (World h' []).
Proof.
  apply (policy_iteration_single_sweep_per_step 2 policy0 corridor
           default_threshold 100 None v0 0 (heap store0) []
           uniform_policy [0; 0; 0]%Qc).
  - apply (bool_decide_unpack _). vm_compute. exact I.
  - simpl. lia.
  - simpl. lia.
  - reflexivity.
  - apply (bool_decide_unpack _). vm_compute. exact I.
  - reflexivity.
  - reflexivity.
Defined.

(** * value_iteration *)

(** C10. In [value_iteration] the branch that adopts a new greedy policy and
    goes on iterating is never taken: [greedy_policy_from_value_function]
    returns the array it was given, overwritten in place, so [new_policy] and
    [greedy_policy] are one object when they are compared and
    [greedy_policy.all() == new_policy.all()] holds; [value_iteration]
    returns at the first iteration where [delta < threshold]. *)
Theorem value_iteration_stops_at_first_small_delta
    fuel policy env threshold max_steps kw v k h ws rows vs :
  valid_env env → 0 < world_size env → 0 < action_space_n env →
  h !! policy = Some (Arr2 rows) → shaped_policy env rows →
  h !! v = Some (Arr1 vs) → shaped_value env vs →
  let pv := fresh (dom h) in
  let news := bellman_sweep env (discount_of kw) rows vs in
  let h1 := <[pv := Arr1 news]> h in
  (∀ vf γ w new_policy w',
     greedy_policy_from_value_function policy env vf γ w = Ok new_policy w' →
     new_policy = policy ∧
     ∀ same w'', policies_judged_equal policy new_policy w' = Ok same w'' →
                 same = true) ∧
  ((signed_delta vs news < threshold)%Qc →
   value_iteration_loop (S fuel) env threshold max_steps kw policy v k
     (World h ws) =
   Ok (pv, policy)
      (World (<[policy := Arr2 (greedy_rows env (discount_of kw) rows news)]> h1)
             ws)) ∧
  (¬ (signed_delta vs news < threshold)%Qc → (k + 1)%Z ≠ max_steps →
   value_iteration_loop (S fuel) env threshold max_steps kw policy v k
     (World h ws) =
   value_iteration_loop fuel env threshold max_steps kw policy pv (k + 1)%Z
     (World h1 ws)).
Proof.
  intros Henv HN HA Hp Hshape Hv Hvs pv news h1.
  split.
  { intros vf γ w l w' Hrun.
    assert (l = policy) as ->.
    { unfold greedy_policy_from_value_function in Hrun.
      rewrite bind_unfold in Hrun.
      destruct (for_each _ _ w); [|done|done]. by inversion Hrun. }
    split; [done|]. intros same w''. unfold policies_judged_equal.
    rewrite bind_unfold.
    destruct (load policy w') as [a w1| |] eqn:Ha;
      [|intros [=]|intros [=]].
    rewrite bind_unfold.
    destruct (load policy w1) as [b w2| |] eqn:Hb;
      [|intros [=]|intros [=]].
    intros [= <- <-]. apply bool_decide_eq_true_2.
    unfold load in Ha, Hb.
    destruct (heap w' !! policy) eqn:H1; [|done].
    inversion Ha; subst. rewrite H1 in Hb. by inversion Hb. }
  pose proof (value_iteration_loop_unfold fuel policy env threshold max_steps
                kw v k h ws rows vs Henv HN HA Hp Hshape Hv Hvs) as Hun.
  cbv zeta in Hun. fold pv news h1 in Hun.
  split.
  - intros Hlt. rewrite Hun. by rewrite decide_True.
  - intros Hge Hk. rewrite Hun. rewrite decide_False by done.
    by rewrite decide_False.
Qed.

Lemma value_iteration_stops_at_first_small_delta_witness :
  (∀ vf γ w new_policy w',
     greedy_policy_from_value_function policy0 corridor vf γ w
       = Ok new_policy w' →
     new_policy = policy0 ∧
     ∀ same w'', policies_judged_equal policy0 new_policy w' = Ok same w'' →
                 same = true) ∧
  ((signed_delta uniform_value
      (bellman_sweep corridor 1%Qc uniform_policy uniform_value)
    < default_threshold)%Qc →
   value_iteration_loop 1 corridor default_threshold 1000 None policy0 v0 0
     store1 =
   Ok (fresh (dom (heap store1)), policy0)
      (World (<[policy0 :=
                  Arr2 (greedy_rows corridor 1%Qc uniform_policy
                          (bellman_sweep corridor 1%Qc uniform_policy
                             uniform_value))]>
                (<[fresh (dom (heap store1)) :=
                     Arr1 (bellman_sweep corridor 1%Qc uniform_policy
                             uniform_value)]> (heap store1)))
             [])) ∧
  (¬ (signed_delta uniform_value
        (bellman_sweep corridor 1%Qc uniform_policy uniform_value)
      < default_threshold)%Qc →
   (0 + 1)%Z ≠ 1000%Z →
   value_iteration_loop 1 corridor default_threshold 1000 None policy0 v0 0
     store1 =
   value_iteration_loop 0 corridor default_threshold 1000 None policy0
     (fresh (dom (heap store1))) (0 + 1)%Z
     (World (<[fresh (dom (heap store1)) :=
                 Arr1 (bellman_sweep corridor 1%Qc uniform_policy
                         uniform_value)]> (heap store1)) [])).
Proof.
  apply (value_iteration_stops_at_first_small_delta 0 policy0 corridor
           default_threshold 1000 None v0 0 (heap store1) []
           uniform_policy uniform_value).
  - apply (bool_decide_unpack _). vm_compute. exact I.
  - simpl. lia.
  - simpl. lia.
  - reflexivity.
  - apply (bool_decide_unpack _). vm_compute. exact I.
  - reflexivity.
  - reflexivity.
Defined.

(** * The step budget *)

(** C5. For every input with [max_steps >= 1], [policy_iteration] and
    [value_iteration] end after at most [max_steps] loop iterations; when the
    step budget is reached without [delta < threshold], the controller logs a
    warning, raises nothing, and still returns its current
    [(policy_value, greedy_policy)]. *)
Theorem iteration_ends_within_max_steps policy env threshold max_steps kw :
  (1 ≤ max_steps)%Z →
  (∀ value_function w,
     policy_iteration (Z.to_nat max_steps) policy env value_function
       threshold max_steps kw w ≠ OutOfFuel ∧
     value_iteration (Z.to_nat max_steps) policy env value_function
       threshold max_steps kw w ≠ OutOfFuel) ∧
  (valid_env env → 0 < world_size env → 0 < action_space_n env →
   ∀ v h ws rows vs,
   h !! policy = Some (Arr2 rows) → shaped_policy env rows →
   h !! v = Some (Arr1 vs) → shaped_value env vs →
   let pv := fresh (dom h) in
   let news := bellman_sweep env (discount_of kw) rows vs in
   (∃ policy_value greedy_policy w',
      policy_iteration (Z.to_nat max_steps) policy env (Some v) threshold
        max_steps kw (World h ws) = Ok (policy_value, greedy_policy) w' ∧
      (warnings_log w' = ws ∨
       warnings_log w' = ws ++ [policy_iteration_warning max_steps])) ∧
   (∃ policy_value greedy_policy w',
      value_iteration (Z.to_nat max_steps) policy env (Some v) threshold
        max_steps kw (World h ws) = Ok (policy_value, greedy_policy) w' ∧
      (warnings_log w' = ws ∨
       warnings_log w' = ws ++ [value_iteration_warning max_steps])) ∧
   (∀ fuel k, (k + 1)%Z = max_steps →
      ¬ (signed_delta vs news < threshold)%Qc →
      policy_iteration_loop (S fuel) policy env threshold max_steps kw v k
        (World h ws) =
        Ok (pv, policy)
           (World (<[policy := Arr2 (greedy_rows env (discount_of kw) rows news)]>
                     (<[pv := Arr1 news]> h))
                  (ws ++ [policy_iteration_warning max_steps])) ∧
      value_iteration_loop (S fuel) env threshold max_steps kw policy v k
        (World h ws) =
        Ok (pv, policy)
           (World (<[pv := Arr1 news]> h)
                  (ws ++ [value_iteration_warning max_steps])))).
Proof.
  intros Hmax.
  assert (Hfuel : 0 < Z.to_nat max_steps) by lia.
  assert (Hsum : (0 + Z.of_nat (Z.to_nat max_steps))%Z = max_steps) by lia.
  split.
  { intros vf w. split.
    - apply no_timeout_bind.
      + destruct vf; [apply no_timeout_ret|apply no_timeout_np_zeros].
      + intros v. by apply no_timeout_policy_iteration_loop.
    - apply no_timeout_bind.
      + destruct vf; [apply no_timeout_ret|apply no_timeout_np_zeros].
      + intros v. by apply no_timeout_value_iteration_loop. }
  intros Henv HN HA v h ws rows vs Hp Hshape Hv Hvs pv news.
  split_and!.
  - destruct (policy_iteration_loop_returns (Z.to_nat max_steps) policy env
                threshold max_steps kw Henv HN HA v 0%Z h ws rows vs
                Hp Hshape Hv Hvs Hfuel Hsum)
      as (pv' & w' & _ & _ & Hrun & _ & _ & _ & _ & _ & Hw).
    by exists pv', policy, w'.
  - destruct (value_iteration_loop_returns (Z.to_nat max_steps) policy env
                threshold max_steps kw Henv HN HA v 0%Z h ws rows vs
                Hp Hshape Hv Hvs Hfuel Hsum)
      as (pv' & w' & _ & _ & Hrun & _ & _ & _ & _ & _ & Hw).
    by exists pv', policy, w'.
  - intros fuel k Hk Hge. split.
    + rewrite (policy_iteration_loop_unfold fuel policy env threshold
                 max_steps kw v k h ws rows vs) by done.
      fold pv news. rewrite decide_False by done. by rewrite decide_True.
    + rewrite (value_iteration_loop_unfold fuel policy env threshold
                 max_steps kw v k h ws rows vs) by done.
      fold pv news. rewrite decide_False by done. by rewrite decide_True.
Qed.

Lemma iteration_ends_within_max_steps_witness :
  (∀ value_function w,
     policy_iteration (Z.to_nat 5) policy0 corridor value_function
       default_threshold 5 None w ≠ OutOfFuel ∧
     value_iteration (Z.to_nat 5) policy0 corridor value_function
       default_threshold 5 None w ≠ OutOfFuel) ∧
  (valid_env corridor → 0 < world_size corridor → 0 < action_space_n corridor →
   ∀ v h ws rows vs,
   h !! policy0 = Some (Arr2 rows) → shaped_policy corridor rows →
   h !! v = Some (Arr1 vs) → shaped_value corridor vs →
   (∃ policy_value greedy_policy w',
      policy_iteration (Z.to_nat 5) policy0 corridor (Some v)
        default_threshold 5 None (World h ws)
        = Ok (policy_value, greedy_policy) w' ∧
      (warnings_log w' = ws ∨
       warnings_log w' = ws ++ [policy_iteration_warning 5])) ∧
   (∃ policy_value greedy_policy w',
      value_iteration (Z.to_nat 5) policy0 corridor (Some v)
        default_threshold 5 None (World h ws)
        = Ok (policy_value, greedy_policy) w' ∧
      (warnings_log w' = ws ∨
       warnings_log w' = ws ++ [value_iteration_warning 5])) ∧
   (∀ fuel k, (k + 1)%Z = 5%Z →
      ¬ (signed_delta vs (bellman_sweep corridor 1%Qc rows vs)
         < default_threshold)%Qc →
      policy_iteration_loop (S fuel) policy0 corridor default_threshold 5
        None v k (World h ws) =
        Ok (fresh (dom h), policy0)
           (World (<[policy0 :=
                       Arr2 (greedy_rows corridor 1%Qc rows
                               (bellman_sweep corridor 1%Qc rows vs))]>
                     (<[fresh (dom h) :=
                          Arr1 (bellman_sweep corridor 1%Qc rows vs)]> h))
                  (ws ++ [policy_iteration_warning 5])) ∧
      value_iteration_loop (S fuel) corridor default_threshold 5 None
        policy0 v k (World h ws) =
        Ok (fresh (dom h), policy0)
           (World (<[fresh (dom h) :=
                       Arr1 (bellman_sweep corridor 1%Qc rows vs)]> h)
                  (ws ++ [value_iteration_warning 5])))).
Proof.
  apply (iteration_ends_within_max_steps policy0 corridor default_threshold
           5 None).
  lia.
Defined.

(** C4 (the code departs from it). In [value_iteration] the new greedy policy
    is to be compared with the previous greedy policy by
    [greedy_policy.all() == new_policy.all()], the loop going on with the
    new policy when the two differ.  On the corridor, started from the
    uniform policy and its value function, the first iteration has
    [delta < threshold]; the previous policy has no zero entry, the new one
    has, so the two differ under [all()]; yet the loop returns in that first
    iteration, because the previous policy was overwritten before the test
    read it. *)
Theorem value_iteration_compares_policy_with_itself :
  ∃ policy_value w' new_rows,
    value_iteration 1 policy0 corridor (Some v0) default_threshold 1000 None
      store1 = Ok (policy_value, policy0) w' ∧
    heap store1 !! policy0 = Some (Arr2 uniform_policy) ∧
    heap w' !! policy0 = Some (Arr2 new_rows) ∧
    np_all (Arr2 uniform_policy) = true ∧
    np_all (Arr2 new_rows) = false ∧
    warnings_log w' = [].
Proof.
  exists 3%positive,
    (World {[ policy0 := Arr2 [[0; 1]; [0; 1]; [half; half]]%Qc;
              v0 := Arr1 uniform_value;
              3%positive := Arr1 uniform_value ]} []),
    [[0; 1]; [0; 1]; [half; half]]%Qc.
  split_and!; try reflexivity.
  apply (bool_decide_unpack _). vm_compute. exact I.
Qed.

(** * Where the policy lives *)

(** The improver hands back the array it was called with, and that array no
    longer holds what it held; [policy_iteration] does the same to the
    caller's policy. *)
Lemma greedy_policy_overwrites_its_input :
  (∃ w',
     greedy_policy_from_value_function policy0 corridor v0 1%Qc store1
       = Ok policy0 w' ∧
     heap store1 !! policy0 = Some (Arr2 uniform_policy) ∧
     heap w' !! policy0 = Some (Arr2 [[0; 1]; [0; 1]; [half; half]]%Qc) ∧
     heap w' !! policy0 ≠ heap store1 !! policy0) ∧
  (∃ policy_value w',
     policy_iteration 2 policy0 corridor (Some v0) default_threshold 2 None
       store0 = Ok (policy_value, policy0) w' ∧
     heap store0 !! policy0 = Some (Arr2 uniform_policy) ∧
     heap w' !! policy0 = Some (Arr2 [[0; 1]; [1; 0]; [half; half]]%Qc) ∧
     heap w' !! policy0 ≠ heap store0 !! policy0).
Proof.
  split.
  - exists (World {[ policy0 := Arr2 [[0; 1]; [0; 1]; [half; half]]%Qc;
                     v0 := Arr1 uniform_value ]} []).
    split_and!; try reflexivity;
      apply (bool_decide_unpack _); vm_compute; exact I.
  - exists 4%positive,
      (World {[ policy0 := Arr2 [[0; 1]; [1; 0]; [half; half]]%Qc;
                v0 := Arr1 [0; 0; 0]%Qc;
                3%positive := Arr1 [-1; -1; 0]%Qc;
                4%positive := Arr1 [-2; -1; 0]%Qc ]}
             [policy_iteration_warning 2]).
    split_and!; try reflexivity;
      apply (bool_decide_unpack _); vm_compute; exact I.
Qed.

(** C7 (as amended). [greedy_policy_from_value_function] returns the policy
    matrix it was given: the same object, of the same shape, its rows
    overwritten in place by the greedy rows; it allocates nothing and leaves
    every other array as it was.  In the control loops each iteration
    allocates a new value array, and the policy that is returned is the
    caller's policy array. *)
Theorem greedy_policy_from_value_function_in_place
    policy env vf γ h ws rows vs :
  valid_env env → 0 < world_size env → 0 < action_space_n env →
  h !! policy = Some (Arr2 rows) → shaped_policy env rows →
  h !! vf = Some (Arr1 vs) → shaped_value env vs →
  (∃ out,
     greedy_policy_from_value_function policy env vf γ (World h ws) =
       Ok policy (World (<[policy := Arr2 out]> h) ws) ∧
     out = greedy_rows env γ rows vs ∧
     shaped_policy env out ∧
     dom (<[policy := Arr2 out]> h) = dom h ∧
     ∀ l, l ≠ policy → (<[policy := Arr2 out]> h) !! l = h !! l) ∧
  (∀ threshold max_steps kw, (1 ≤ max_steps)%Z →
     (∃ policy_value w',
        policy_iteration (Z.to_nat max_steps) policy env (Some vf) threshold
          max_steps kw (World h ws) = Ok (policy_value, policy) w' ∧
        h !! policy_value = None) ∧
     (∃ policy_value w',
        value_iteration (Z.to_nat max_steps) policy env (Some vf) threshold
          max_steps kw (World h ws) = Ok (policy_value, policy) w' ∧
        h !! policy_value = None)).
Proof.
  intros Henv HN HA Hp Hshape Hv Hvs. split.
  - exists (greedy_rows env γ rows vs).
    split; [apply improvement_shaped; (done || by intros _)|].
    split; [done|].
    split; [by apply shaped_greedy_rows|].
    split.
    + apply dom_insert_lookup_L. by exists (Arr2 rows).
    + intros l Hl. by rewrite lookup_insert_ne.
  - intros threshold max_steps kw Hmax.
    assert (Hfuel : 0 < Z.to_nat max_steps) by lia.
    assert (Hsum : (0 + Z.of_nat (Z.to_nat max_steps))%Z = max_steps) by lia.
    split.
    + destruct (policy_iteration_loop_returns (Z.to_nat max_steps) policy env
                  threshold max_steps kw Henv HN HA vf 0%Z h ws rows vs
                  Hp Hshape Hv Hvs Hfuel Hsum)
        as (pv' & w' & _ & _ & Hrun & _ & _ & _ & _ & Hnew & _).
      by exists pv', w'.
    + destruct (value_iteration_loop_returns (Z.to_nat max_steps) policy env
                  threshold max_steps kw Henv HN HA vf 0%Z h ws rows vs
                  Hp Hshape Hv Hvs Hfuel Hsum)
        as (pv' & w' & _ & _ & Hrun & _ & _ & _ & _ & Hnew & _).
      by exists pv', w'.
Qed.

Lemma greedy_policy_from_value_function_in_place_witness :
  (∃ out,
     greedy_policy_from_value_function policy0 corridor v0 1%Qc store1 =
       Ok policy0 (World (<[policy0 := Arr2 out]> (heap store1)) []) ∧
     out = greedy_rows corridor 1%Qc uniform_policy uniform_value ∧
     shaped_policy corridor out ∧
     dom (<[policy0 := Arr2 out]> (heap store1)) = dom (heap store1) ∧
     ∀ l, l ≠ policy0 →
       (<[policy0 := Arr2 out]> (heap store1)) !! l = heap store1 !! l) ∧
  (∀ threshold max_steps kw, (1 ≤ max_steps)%Z →
     (∃ policy_value w',
        policy_iteration (Z.to_nat max_steps) policy0 corridor (Some v0)
          threshold max_steps kw store1 = Ok (policy_value, policy0) w' ∧
        heap store1 !! policy_value = None) ∧
     (∃ policy_value w',
        value_iteration (Z.to_nat max_steps) policy0 corridor (Some v0)
          threshold max_steps kw store1 = Ok (policy_value, policy0) w' ∧
        heap store1 !! policy_value = None)).
Proof.
  apply (greedy_policy_from_value_function_in_place policy0 corridor v0 1%Qc
           (heap store1) [] uniform_policy uniform_value).
  - apply (bool_decide_unpack _). vm_compute. exact I.
  - simpl. lia.
  - simpl. lia.
  - reflexivity.
  - apply (bool_decide_unpack _). vm_compute. exact I.
  - reflexivity.
  - reflexivity.
Defined.

(** * Further properties *)

(** ** The display helpers *)

Lemma lookup_omap_lookup {A} (rows : list (list A)) j i :
  Forall (λ row, j < length row) rows →
  omap (λ row, row !! j) rows !! i = rows !! i ≫= (λ row, row !! j).
Proof.
  intros Hall. revert i. induction Hall as [|row rows Hrow Hall IH]; intros i.
  - done.
  - destruct (lookup_lt_is_Some_2 row j Hrow) as [x Hx].
    simpl. rewrite Hx. simpl. destruct i as [|i]; simpl.
    + by rewrite Hx.
    + apply IH.
Qed.

Lemma length_omap_lookup {A} (rows : list (list A)) j :
  Forall (λ row, j < length row) rows →
  length (omap (λ row, row !! j) rows) = length rows.
Proof.
  induction 1 as [|row rows Hrow Hall IH]; [done|].
  destruct (lookup_lt_is_Some_2 row j Hrow) as [x Hx].
  simpl. rewrite Hx. simpl. f_equal. exact IH.
Qed.

Lemma reshape_row_lookup {A} (xs : list A) c i j :
  j < c → take c (drop (i * c) xs) !! j = xs !! (i * c + j).
Proof. intros Hj. by rewrite lookup_take_lt, lookup_drop. Qed.

Lemma reshape_row_length {A} (xs : list A) r c i :
  length xs = r * c → i < r → length (take c (drop (i * c) xs)) = c.
Proof.
  intros Hlen Hi. rewrite length_take, length_drop, Hlen.
  assert (i * c + c ≤ r * c) by nia. lia.
Qed.

Lemma reshape_as_gridworld_Ok {A} R C (xs : list A) w :
  length xs = R * C →
  reshape_as_gridworld (R, C) xs w =
    Ok (np_transpose C (flip_columns
          ((λ i, take C (drop (i * C) xs)) <$> seq 0 R))) w.
Proof.
  intros Hlen. unfold reshape_as_gridworld, np_reshape. simpl.
  by rewrite decide_True.
Qed.

Lemma flipped_rows_long {A} R C (xs : list A) j :
  length xs = R * C → j < C →
  Forall (λ row, j < length row)
    (flip_columns ((λ i, take C (drop (i * C) xs)) <$> seq 0 R)).
Proof.
  intros Hlen Hj. unfold flip_columns.
  apply Forall_fmap, Forall_fmap, Forall_forall. intros i Hi. simpl.
  apply elem_of_seq in Hi.
  rewrite length_reverse, (reshape_row_length xs R C i) by (done || lia). done.
Qed.

(** The entries of the grid that [reshape_as_gridworld] builds. *)
Lemma gridworld_cell {A} R C (xs : list A) i j :
  length xs = R * C → i < R → j < C →
  np_transpose C (flip_columns ((λ i, take C (drop (i * C) xs)) <$> seq 0 R))
    !! j ≫= (λ row, row !! i) = xs !! (i * C + (C - 1 - j)).
Proof.
  intros Hlen Hi Hj. unfold np_transpose.
  rewrite list_lookup_fmap, lookup_seq_lt by done. simpl.
  rewrite lookup_omap_lookup by by apply flipped_rows_long.
  unfold flip_columns. rewrite !list_lookup_fmap, lookup_seq_lt by done. simpl.
  rewrite reverse_lookup; rewrite (reshape_row_length xs R C i) by done; [|done].
  rewrite reshape_row_lookup by lia. f_equal. lia.
Qed.

Lemma gridworld_row_length {A} R C (xs : list A) j row :
  length xs = R * C →
  np_transpose C (flip_columns ((λ i, take C (drop (i * C) xs)) <$> seq 0 R))
    !! j = Some row →
  length row = R.
Proof.
  intros Hlen Hrow. unfold np_transpose in Hrow.
  rewrite list_lookup_fmap in Hrow.
  destruct (seq 0 C !! j) as [j'|] eqn:Hj; [|done].
  apply lookup_seq in Hj as [-> Hj]. simpl in Hrow. inversion Hrow; subst.
  rewrite length_omap_lookup by by apply flipped_rows_long.
  unfold flip_columns. by rewrite !length_fmap, length_seq.
Qed.

(** X1. For an input of [R*C] entries, [reshape_as_gridworld] returns a grid
    of [C] rows of [R] cells; the cell in row [j], column [i] holds entry
    [i*C + (C-1-j)] of the input, so entry [k] is shown in row
    [C-1 - k mod C], column [k div C], and every entry is shown. *)
Theorem reshape_as_gridworld_cells {A} (R C : nat) (xs : list A) w :
  length xs = R * C →
  ∃ grid,
    reshape_as_gridworld (R, C) xs w = Ok grid w ∧
    length grid = C ∧
    (∀ j row, grid !! j = Some row → length row = R) ∧
    (∀ i j, i < R → j < C →
       grid !! j ≫= (λ row, row !! i) = xs !! (i * C + (C - 1 - j))) ∧
    (∀ k, k < R * C →
       grid !! (C - 1 - k mod C) ≫= (λ row, row !! (k / C)) = xs !! k).
Proof.
  intros Hlen. eexists. split; [by apply reshape_as_gridworld_Ok|].
  split; [unfold np_transpose; by rewrite length_fmap, length_seq|].
  split; [intros j row; by apply gridworld_row_length|].
  split; [intros i j; by apply gridworld_cell|].
  intros k Hk.
  assert (HC : C ≠ 0) by (intros ->; lia).
  pose proof (Nat.mod_upper_bound k C HC) as Hmod.
  pose proof (Nat.div_mod k C HC) as Hdiv.
  assert (Hq : k / C < R).
  { apply Nat.Div0.div_lt_upper_bound. lia. }
  rewrite gridworld_cell by (done || lia). f_equal.
  replace (C - 1 - (C - 1 - k mod C)) with (k mod C) by lia. lia.
Qed.

Lemma reshape_as_gridworld_cells_witness :
  ∃ grid,
    reshape_as_gridworld (2, 3) [10; 11; 12; 13; 14; 15] store0
      = Ok grid store0 ∧
    length grid = 3 ∧
    (∀ j row, grid !! j = Some row → length row = 2) ∧
    (∀ i j, i < 2 → j < 3 →
       grid !! j ≫= (λ row, row !! i) =
       [10; 11; 12; 13; 14; 15] !! (i * 3 + (3 - 1 - j))) ∧
    (∀ k, k < 2 * 3 →
       grid !! (3 - 1 - k mod 3) ≫= (λ row, row !! (k / 3)) =
       [10; 11; 12; 13; 14; 15] !! k).
Proof.
  apply (reshape_as_gridworld_cells 2 3 [10; 11; 12; 13; 14; 15] store0).
  reflexivity.
Defined.

(** ** np.argmax *)

Lemma argmax_from_spec xs : ∀ pre best_i best,
  pre !! best_i = Some best →
  Forall (λ y, (y ≤ best)%Qc) pre →
  (∀ a' y, a' < best_i → pre !! a' = Some y → (y < best)%Qc) →
  first_max (pre ++ xs) (argmax_from best_i best (length pre) xs).
Proof.
  induction xs as [|x xs IH]; intros pre best_i best Hbest Hle Hlt; simpl.
  - rewrite app_nil_r. by exists best.
  - replace (pre ++ x :: xs) with ((pre ++ [x]) ++ xs)
      by (by rewrite <- app_assoc).
    replace (S (length pre)) with (length (pre ++ [x]))
      by (rewrite length_app; simpl; lia).
    case_decide as Hx.
    + apply (IH (pre ++ [x]) (length pre) x).
      * rewrite lookup_app_r by lia. by rewrite Nat.sub_diag.
      * apply Forall_app. split.
        -- eapply Forall_impl; [exact Hle|]. simpl. intros y Hy.
           apply Qclt_le_weak. by eapply Qcle_lt_trans.
        -- repeat constructor. apply Qcle_refl.
      * intros a' y Ha' Hy. rewrite lookup_app_l in Hy by done.
        eapply Qcle_lt_trans; [|exact Hx].
        rewrite Forall_forall in Hle. apply Hle.
        by eapply list_elem_of_lookup_2.
    + assert (Hbi : best_i < length pre) by (by eapply lookup_lt_Some).
      apply (IH (pre ++ [x]) best_i best).
      * by rewrite lookup_app_l.
      * apply Forall_app. split; [done|]. repeat constructor.
        by apply Qcle_ngt.
      * intros a' y Ha' Hy. rewrite lookup_app_l in Hy by lia. by eapply Hlt.
Qed.

Lemma first_max_index_spec xs : xs ≠ [] → first_max xs (first_max_index xs).
Proof.
  destruct xs as [|x xs]; [done|]. intros _. simpl.
  apply (argmax_from_spec xs [x] 0 x).
  - done.
  - repeat constructor. apply Qcle_refl.
  - intros a' y Ha'. lia.
Qed.

Lemma first_max_unique xs a b : first_max xs a → first_max xs b → a = b.
Proof.
  intros (x & Hx & Hxle & Hxlt) (y & Hy & Hyle & Hylt).
  destruct (lt_eq_lt_dec a b) as [[Hab|Hab]|Hab]; [|done|].
  - specialize (Hylt a x Hab Hx). rewrite Forall_forall in Hxle.
    assert (y ≤ x)%Qc by (apply Hxle; by eapply list_elem_of_lookup_2).
    by apply Qclt_not_le in Hylt.
  - specialize (Hxlt b y Hab Hy). rewrite Forall_forall in Hyle.
    assert (x ≤ y)%Qc by (apply Hyle; by eapply list_elem_of_lookup_2).
    by apply Qclt_not_le in Hxlt.
Qed.

Lemma np_argmax_Ok xs w :
  xs ≠ [] → np_argmax xs w = Ok (first_max_index xs) w.
Proof. by destruct xs. Qed.

(** ** get_policy_map *)

Lemma argmax_item_Ok h ws policy rows state row :
  h !! policy = Some (Arr2 rows) → rows !! state = Some row → row ≠ [] →
  argmax_item policy state (World h ws) =
    Ok (first_max_index row) (World h ws).
Proof.
  intros Hp Hrow Hne. unfold argmax_item.
  erewrite bind_Ok; last by apply load_Ok.
  cbv beta iota.
  erewrite bind_Ok; last by apply index_Ok.
  by apply np_argmax_Ok.
Qed.

Lemma argmax_item_empty h ws policy rows state :
  h !! policy = Some (Arr2 rows) → rows !! state = Some [] →
  argmax_item policy state (World h ws) = Raise ValueError.
Proof.
  intros Hp Hrow. unfold argmax_item.
  erewrite bind_Ok; last by apply load_Ok.
  cbv beta iota.
  erewrite bind_Ok; last by apply index_Ok.
  done.
Qed.

(** The generator of line 34 over a list of states: it yields the first
    maximiser of every row, or stops at the first empty row. *)
Lemma policy_map_fromiter h ws policy rows states acc :
  h !! policy = Some (Arr2 rows) →
  Forall (λ s, s < length rows) states →
  for_fold states (λ x acc, y ← argmax_item policy x; mret (acc ++ [y])) acc
    (World h ws) =
  if decide (Forall (λ s, rows !!! s ≠ []) states)
  then Ok (acc ++ ((λ s, first_max_index (rows !!! s)) <$> states)) (World h ws)
  else Raise ValueError.
Proof.
  intros Hp Hall. revert acc.
  induction Hall as [|s states Hs Hall IH]; intros acc.
  - rewrite decide_True by constructor. rewrite fmap_nil, app_nil_r.
    reflexivity.
  - destruct (lookup_lt_is_Some_2 rows s Hs) as [row Hrow].
    pose proof (list_lookup_total_correct _ _ _ Hrow) as Htot.
    simpl for_fold. destruct (decide (row = [])) as [->|Hne].
    + rewrite bind_unfold, bind_unfold.
      rewrite (argmax_item_empty h ws policy rows s Hp Hrow).
      rewrite decide_False; [done|]. intros Hf.
      apply Forall_cons in Hf as [Hf _]. by rewrite Htot in Hf.
    + erewrite bind_Ok; last first.
      { erewrite bind_Ok; last by eapply argmax_item_Ok. reflexivity. }
      rewrite IH. rewrite fmap_cons, Htot.
      destruct (decide (Forall (λ s, rows !!! s ≠ []) states)) as [Hf|Hf].
      * rewrite decide_True by (constructor; [by rewrite Htot|done]).
        by rewrite <- app_assoc.
      * rewrite decide_False; [done|]. intros Hf'.
        apply Forall_cons in Hf' as [_ Hf']. done.
Qed.

Lemma rows_nonempty_total (rows : list (list Qc)) :
  Forall (λ row, row ≠ []) rows ↔
  Forall (λ s, rows !!! s ≠ []) (seq 0 (length rows)).
Proof.
  rewrite !Forall_forall. split.
  - intros H s Hs%elem_of_seq.
    destruct (lookup_lt_is_Some_2 rows s) as [row Hrow]; [lia|].
    rewrite (list_lookup_total_correct _ _ _ Hrow). apply H.
    by eapply list_elem_of_lookup_2.
  - intros H row [s Hs]%list_elem_of_lookup.
    rewrite <- (list_lookup_total_correct _ _ _ Hs). apply H.
    apply elem_of_seq. apply lookup_lt_Some in Hs. lia.
Qed.

(** The whole of [get_policy_map] on a two-dimensional policy. *)
Lemma get_policy_map_unfold R C policy h ws rows :
  h !! policy = Some (Arr2 rows) →
  get_policy_map (R, C) policy (World h ws) =
    if decide (0 < length rows ∧ Forall (λ row, row ≠ []) rows)
    then reshape_as_gridworld (R, C)
           ((λ s, first_max_index (rows !!! s)) <$> seq 0 (length rows))
           (World h ws)
    else Raise ValueError.
Proof.
  intros Hp. unfold get_policy_map, np_shape0.
  erewrite bind_Ok; last first.
  { erewrite bind_Ok; last by apply load_Ok. reflexivity. }
  unfold np_nditer_arange. destruct (decide (length rows = 0)) as [H0|H0].
  { rewrite decide_False by lia. done. }
  erewrite bind_Ok; last reflexivity.
  unfold np_fromiter. rewrite bind_unfold.
  rewrite (policy_map_fromiter h ws policy rows _ [] Hp); last first.
  { apply Forall_forall. intros s Hs%elem_of_seq. lia. }
  destruct (decide (Forall (λ s, rows !!! s ≠ []) (seq 0 (length rows))))
    as [Hf|Hf].
  - rewrite decide_True; [done|]. split; [lia|by apply rows_nonempty_total].
  - rewrite decide_False; [done|]. intros [_ Hf'].
    by apply rows_nonempty_total in Hf'.
Qed.

Lemma gridworld_cell_of_state {A} R C (xs : list A) k :
  length xs = R * C → k < R * C →
  grid_cell C
    (np_transpose C (flip_columns ((λ i, take C (drop (i * C) xs)) <$> seq 0 R)))
    k = xs !! k.
Proof.
  intros Hlen Hk. unfold grid_cell.
  assert (HC : C ≠ 0) by (intros ->; lia).
  pose proof (Nat.mod_upper_bound k C HC) as Hmod.
  pose proof (Nat.div_mod k C HC) as Hdiv.
  assert (Hq : k / C < R) by (apply Nat.Div0.div_lt_upper_bound; lia).
  rewrite gridworld_cell by (done || lia). f_equal.
  replace (C - 1 - (C - 1 - k mod C)) with (k mod C) by lia. lia.
Qed.

Lemma length_policy_map (rows : list (list Qc)) :
  length ((λ s, first_max_index (rows !!! s)) <$> seq 0 (length rows))
  = length rows.
Proof. by rewrite length_fmap, length_seq. Qed.

Lemma policy_map_lookup (rows : list (list Qc)) k row :
  rows !! k = Some row →
  ((λ s, first_max_index (rows !!! s)) <$> seq 0 (length rows)) !! k
  = Some (first_max_index row).
Proof.
  intros Hrow. rewrite list_lookup_fmap.
  rewrite lookup_seq_lt by (by eapply lookup_lt_Some). simpl.
  by rewrite (list_lookup_total_correct _ _ _ Hrow).
Qed.

Lemma policy_map_cells R C policy h ws rows :
  h !! policy = Some (Arr2 rows) →
  length rows = R * C → 0 < R * C →
  Forall (λ row, row ≠ []) rows →
  ∃ grid,
    get_policy_map (R, C) policy (World h ws) = Ok grid (World h ws) ∧
    ∀ k row, rows !! k = Some row →
      ∃ a, grid_cell C grid k = Some a ∧ first_max row a.
Proof.
  intros Hp Hlen Hpos Hne.
  rewrite (get_policy_map_unfold R C policy h ws rows Hp).
  rewrite decide_True by (split; [lia|done]).
  assert (Hl : length ((λ s, first_max_index (rows !!! s))
                         <$> seq 0 (length rows)) = R * C)
    by (by rewrite length_policy_map).
  eexists. split; [by apply reshape_as_gridworld_Ok|].
  intros k row Hrow. exists (first_max_index row).
  assert (Hk : k < R * C) by (rewrite <- Hlen; by eapply lookup_lt_Some).
  split.
  - rewrite gridworld_cell_of_state by done. by apply policy_map_lookup.
  - apply first_max_index_spec. rewrite Forall_forall in Hne. apply Hne.
    by eapply list_elem_of_lookup_2.
Qed.

(** X2. On a policy matrix with [R*C] non-empty rows, [get_policy_map]
    returns a grid of [C] rows of [R] cells without touching the store; the
    cell that shows state [k] (row [C-1 - k mod C], column [k div C]) holds
    the first action whose probability is the largest of row [k]. *)
Theorem get_policy_map_first_maximiser R C policy h ws rows :
  h !! policy = Some (Arr2 rows) →
  length rows = R * C → 0 < R * C →
  Forall (λ row, row ≠ []) rows →
  ∃ grid,
    get_policy_map (R, C) policy (World h ws) = Ok grid (World h ws) ∧
    length grid = C ∧
    (∀ j line, grid !! j = Some line → length line = R) ∧
    ∀ k row, rows !! k = Some row →
      ∃ a, grid_cell C grid k = Some a ∧ first_max row a.
Proof.
  intros Hp Hlen Hpos Hne.
  rewrite (get_policy_map_unfold R C policy h ws rows Hp).
  rewrite decide_True by (split; [lia|done]).
  assert (Hl : length ((λ s, first_max_index (rows !!! s))
                         <$> seq 0 (length rows)) = R * C)
    by (by rewrite length_policy_map).
  eexists. split; [by apply reshape_as_gridworld_Ok|].
  split; [unfold np_transpose; by rewrite length_fmap, length_seq|].
  split; [intros j line; by apply gridworld_row_length|].
  intros k row Hrow. exists (first_max_index row).
  assert (Hk : k < R * C) by (rewrite <- Hlen; by eapply lookup_lt_Some).
  split.
  - rewrite gridworld_cell_of_state by done. by apply policy_map_lookup.
  - apply first_max_index_spec. rewrite Forall_forall in Hne. apply Hne.
    by eapply list_elem_of_lookup_2.
Qed.

Lemma get_policy_map_first_maximiser_witness :
  ∃ grid,
    get_policy_map (3, 1) policy0 store0 = Ok grid store0 ∧
    length grid = 1 ∧
    (∀ j line, grid !! j = Some line → length line = 3) ∧
    ∀ k row, uniform_policy !! k = Some row →
      ∃ a, grid_cell 1 grid k = Some a ∧ first_max row a.
Proof.
  apply (get_policy_map_first_maximiser 3 1 policy0 (heap store0) []
           uniform_policy).
  - reflexivity.
  - reflexivity.
  - simpl. lia.
  - unfold uniform_policy. repeat constructor; discriminate.
Defined.

(** X3. [get_policy_map] raises [ValueError] on a policy matrix without rows
    ([np.nditer] refuses an empty range), with an empty row ([np.argmax] of
    an empty array), or whose number of rows is not [R*C] ([np.reshape]). *)
Theorem get_policy_map_value_error R C policy h ws rows :
  h !! policy = Some (Arr2 rows) →
  rows = [] ∨ [] ∈ rows ∨ length rows ≠ R * C →
  get_policy_map (R, C) policy (World h ws) = Raise ValueError.
Proof.
  intros Hp Hbad.
  rewrite (get_policy_map_unfold R C policy h ws rows Hp).
  destruct (decide (0 < length rows ∧ Forall (λ row, row ≠ []) rows))
    as [[Hpos Hne]|Hn]; [|done].
  destruct Hbad as [->|[Hin|Hlen]].
  - simpl in Hpos. lia.
  - rewrite Forall_forall in Hne. by specialize (Hne [] Hin).
  - unfold reshape_as_gridworld, np_reshape. simpl.
    rewrite length_policy_map. by rewrite decide_False.
Qed.

Lemma get_policy_map_value_error_witness :
  get_policy_map (4, 4) policy0 store0 = Raise ValueError.
Proof.
  apply (get_policy_map_value_error 4 4 policy0 (heap store0) []
           uniform_policy).
  - reflexivity.
  - right. right. simpl. lia.
Defined.

(** ** The policy map of an improved policy *)

Lemma first_max_greedy_row avs a :
  avs ≠ [] → first_max (greedy_row avs) a →
  attains_max avs a ∧ ∀ a', a' < a → ¬ attains_max avs a'.
Proof.
  intros Hne (x & Hx & Hle & Hlt).
  pose proof (max_set_nonempty avs Hne) as Hpos.
  assert (Hc : (0 < 1 / Qc_of_nat (length (max_set avs)))%Qc).
  { unfold Qcdiv. rewrite Qcmult_1_l. by apply Qcinv_pos, Qc_of_nat_pos. }
  assert (Ha : a < length avs).
  { apply lookup_lt_Some in Hx. by rewrite length_greedy_row in Hx. }
  rewrite greedy_row_lookup in Hx by done.
  assert (Hatt : attains_max avs a).
  { destruct (decide (attains_max avs a)) as [|Hn]; [done|].
    inversion Hx; subst x. exfalso.
    assert (∃ m, m ∈ max_set avs) as [m Hm].
    { destruct (max_set avs) as [|m ms]; [simpl in Hpos; lia|].
      exists m. left. }
    unfold max_set in Hm. apply list_elem_of_filter in Hm as [Hm Hmlt].
    apply elem_of_seq in Hmlt.
    rewrite Forall_forall in Hle.
    assert (Hin : (1 / Qc_of_nat (length (max_set avs)))%Qc ∈ greedy_row avs).
    { apply list_elem_of_lookup. exists m.
      rewrite greedy_row_lookup by lia. by rewrite decide_True. }
    apply Hle in Hin. by apply Qcle_not_lt in Hin. }
  split; [done|]. intros a' Ha' Hatt'.
  rewrite decide_True in Hx by done. inversion Hx; subst x.
  specialize (Hlt a' (1 / Qc_of_nat (length (max_set avs)))%Qc Ha').
  rewrite greedy_row_lookup in Hlt by lia.
  rewrite decide_True in Hlt by done.
  specialize (Hlt eq_refl). by apply Qclt_not_eq in Hlt.
Qed.

(** X4. Lines 124 and 125 of the script: the policy map of the improved
    policy shows, for every state, the least action among those that attain
    the maximal action value. *)
Theorem policy_map_of_greedy_policy R C policy env vf γ h ws rows vs :
  valid_env env → 0 < action_space_n env →
  world_size env = R * C → 0 < R * C →
  h !! policy = Some (Arr2 rows) → shaped_policy env rows →
  h !! vf = Some (Arr1 vs) → shaped_value env vs →
  ∃ grid w',
    (policy1 ← greedy_policy_from_value_function policy env vf γ;
     get_policy_map (R, C) policy1) (World h ws) = Ok grid w' ∧
    ∀ s row, rows !! s = Some row →
      ∃ a, grid_cell C grid s = Some a ∧
           a < action_space_n env ∧
           attains_max (action_values_of env γ row vs s) a ∧
           ∀ a', a' < a → ¬ attains_max (action_values_of env γ row vs s) a'.
Proof.
  intros Henv HA HN Hpos Hp Hshape Hv Hvs.
  pose proof (shaped_greedy_rows env γ rows vs Hshape) as [Hlen Hrows'].
  assert (Hne : Forall (λ row, row ≠ []) (greedy_rows env γ rows vs)).
  { eapply Forall_impl; [exact Hrows'|]. simpl. intros row Hrow ->.
    simpl in Hrow. lia. }
  destruct (policy_map_cells R C policy
              (<[policy := Arr2 (greedy_rows env γ rows vs)]> h) ws
              (greedy_rows env γ rows vs))
    as (grid & Hrun & Hcells); [by rewrite lookup_insert_eq|lia|done|done|].
  exists grid. eexists. split.
  { erewrite bind_Ok; last (apply improvement_shaped; (done || by intros _)).
    exact Hrun. }
  intros s row Hrow.
  assert (Hs : s < world_size env).
  { destruct Hshape as [<- _]. by eapply lookup_lt_Some. }
  destruct (Hcells s _ (greedy_rows_lookup env γ rows vs s row Hs Hrow))
    as (a & Hcell & Hfirst).
  assert (Havs : action_values_of env γ row vs s ≠ []).
  { intros Heq. apply (f_equal length) in Heq.
    rewrite length_action_values_of in Heq. simpl in Heq. lia. }
  destruct (first_max_greedy_row _ a Havs Hfirst) as [Hatt Hleast].
  exists a. split_and!; try done.
  unfold attains_max in Hatt.
  destruct (action_values_of env γ row vs s !! a) eqn:Ha; [|done].
  apply lookup_lt_Some in Ha. by rewrite length_action_values_of in Ha.
Qed.

(** ** More on the evaluator *)

Lemma Qc_sum_zero (xs : list Qc) : Forall (λ x, x = 0%Qc) xs → Qc_sum xs = 0%Qc.
Proof.
  induction 1 as [|x xs -> _ IH]; [done|]. simpl. rewrite IH. ring.
Qed.

Lemma Qc_sum_le (xs ys : list Qc) : Forall2 Qcle xs ys → (Qc_sum xs ≤ Qc_sum ys)%Qc.
Proof.
  induction 1 as [|x y xs ys Hxy _ IH]; [apply Qcle_refl|].
  simpl. by apply Qcplus_le_compat.
Qed.

Lemma at0_replicate_zero n i : at0 (replicate n 0%Qc) i = 0%Qc.
Proof.
  unfold at0. destruct (replicate n 0%Qc !! i) as [x|] eqn:Hx; [|done].
  by apply lookup_replicate in Hx as [-> _].
Qed.

Lemma reward_table_lookup (rm : list Qc) n :
  length rm = n → (λ s, at0 rm s) <$> seq 0 n = rm.
Proof.
  intros <-. apply list_eq. intros i. rewrite list_lookup_fmap.
  destruct (decide (i < length rm)) as [Hi|Hi].
  - rewrite lookup_seq_lt by done. simpl. unfold at0.
    by destruct (lookup_lt_is_Some_2 rm i Hi) as [x ->].
  - rewrite lookup_seq_ge by lia. by rewrite lookup_ge_None_2 by lia.
Qed.

(** When every discounted next value vanishes, the sweep returns the reward
    table. *)
Lemma bellman_sweep_rewards env γ rows vs :
  length (reward_matrix env) = world_size env →
  (∀ n, (γ * at0 vs n)%Qc = 0%Qc) →
  bellman_sweep env γ rows vs = reward_matrix env.
Proof.
  intros Hlen Hz.
  transitivity ((λ s, at0 (reward_matrix env) s) <$> seq 0 (world_size env));
    [|by apply reward_table_lookup].
  unfold bellman_sweep. apply list_fmap_ext. intros _ s _.
  unfold bellman_backup. rewrite Qc_sum_zero; [ring|].
  apply Forall_forall. intros x [a [p [-> _]]]%elem_of_lookup_imap.
  rewrite <- Qcmult_assoc, Hz. ring.
Qed.

(** X5. Called without a value function, the evaluator allocates the zeros
    itself and returns, in a second new array, the reward table, whatever the
    policy and the discount factor; the arrays that were there before the
    call are left as they were. *)
Theorem single_step_policy_evaluation_default policy env γ h ws rows :
  valid_env env →
  h !! policy = Some (Arr2 rows) → shaped_policy env rows →
  ∃ v_new w',
    single_step_policy_evaluation policy env γ None (World h ws) = Ok v_new w' ∧
    h !! v_new = None ∧
    heap w' !! v_new = Some (Arr1 (reward_matrix env)) ∧
    (∀ l a, h !! l = Some a → heap w' !! l = Some a) ∧
    warnings_log w' = ws.
Proof.
  intros Henv Hp Hshape.
  set (v := fresh (dom h)).
  set (h1 := <[v := Arr1 (replicate (world_size env) 0%Qc)]> h).
  assert (Hvp : v ≠ policy) by (by eapply fresh_neq).
  assert (Hrun : single_step_policy_evaluation policy env γ None (World h ws) =
                 single_step_policy_evaluation policy env γ (Some v) (World h1 ws)).
  { reflexivity. }
  rewrite Hrun.
  rewrite (evaluation_shaped policy env γ v h1 ws rows
             (replicate (world_size env) 0%Qc)); try done.
  2: { unfold h1. by rewrite lookup_insert_ne. }
  2: { unfold h1. by rewrite lookup_insert_eq. }
  2: { apply length_replicate. }
  rewrite bellman_sweep_rewards.
  2: { by destruct Henv. }
  2: { intros n. rewrite at0_replicate_zero. ring. }
  exists (fresh (dom h1)). eexists. split; [done|]. simpl.
  pose proof (fresh_not_allocated h1) as Hf.
  assert (Hne : fresh (dom h1) ≠ v).
  { intros Heq. rewrite Heq in Hf. unfold h1 in Hf.
    by rewrite lookup_insert_eq in Hf. }
  split_and!.
  - unfold h1 in Hf at 2. by rewrite lookup_insert_ne in Hf.
  - by rewrite lookup_insert_eq.
  - intros l a Hl.
    rewrite lookup_insert_ne.
    + unfold h1. rewrite lookup_insert_ne; [done|]. by eapply fresh_neq.
    + intros <-. unfold h1 in Hf at 2.
      rewrite lookup_insert_ne in Hf by done. congruence.
  - done.
Qed.

Lemma single_step_policy_evaluation_default_witness :
  ∃ v_new w',
    single_step_policy_evaluation policy0 corridor half None store1
      = Ok v_new w' ∧
    heap store1 !! v_new = None ∧
    heap w' !! v_new = Some (Arr1 (reward_matrix corridor)) ∧
    (∀ l a, heap store1 !! l = Some a → heap w' !! l = Some a) ∧
    warnings_log w' = [].
Proof.
  apply (single_step_policy_evaluation_default policy0 corridor half
           (heap store1) [] uniform_policy).
  - apply (bool_decide_unpack _). vm_compute. exact I.
  - reflexivity.
  - apply (bool_decide_unpack _). vm_compute. exact I.
Defined.

(** X6. With [discount_factor = 0] the evaluator returns the reward table,
    whatever the policy and the value function it is given. *)
Theorem single_step_policy_evaluation_myopic policy env v h ws rows vs :
  valid_env env →
  h !! policy = Some (Arr2 rows) → shaped_policy env rows →
  h !! v = Some (Arr1 vs) → shaped_value env vs →
  ∃ v_new w',
    single_step_policy_evaluation policy env 0%Qc (Some v) (World h ws)
      = Ok v_new w' ∧
    heap w' !! v_new = Some (Arr1 (reward_matrix env)).
Proof.
  intros Henv Hp Hshape Hv Hvs.
  exists (fresh (dom h)). eexists.
  split; [by apply evaluation_shaped|]. simpl.
  rewrite lookup_insert_eq, bellman_sweep_rewards; [done|by destruct Henv|].
  intros n. ring.
Qed.

Lemma single_step_policy_evaluation_myopic_witness :
  ∃ v_new w',
    single_step_policy_evaluation policy0 corridor 0%Qc (Some v0) store1
      = Ok v_new w' ∧
    heap w' !! v_new = Some (Arr1 (reward_matrix corridor)).
Proof.
  apply (single_step_policy_evaluation_myopic policy0 corridor v0
           (heap store1) [] uniform_policy uniform_value).
  - apply (bool_decide_unpack _). vm_compute. exact I.
  - reflexivity.
  - apply (bool_decide_unpack _). vm_compute. exact I.
  - reflexivity.
  - reflexivity.
Defined.

Lemma at0_le (vs1 vs2 : list Qc) n :
  value_le vs1 vs2 → (at0 vs1 n ≤ at0 vs2 n)%Qc.
Proof.
  intros H. unfold at0.
  destruct (vs1 !! n) as [x|] eqn:Hx.
  - destruct (Forall2_lookup_l _ _ _ _ _ H Hx) as (y & -> & Hxy). done.
  - rewrite (lookup_ge_None_2 vs2); [apply Qcle_refl|].
    rewrite <- (Forall2_length _ _ _ H). by apply lookup_ge_None.
Qed.

(** The sweep is monotone in the value function when the policy has no
    negative entry and the discount factor is not negative. *)
Lemma bellman_sweep_mono env γ rows vs1 vs2 :
  (0 ≤ γ)%Qc → length rows = world_size env →
  Forall (Forall (λ p, (0 ≤ p)%Qc)) rows →
  value_le vs1 vs2 →
  value_le (bellman_sweep env γ rows vs1) (bellman_sweep env γ rows vs2).
Proof.
  intros Hγ Hlen Hrows Hle. unfold value_le, bellman_sweep.
  apply Forall2_fmap, Forall_Forall2_diag, Forall_forall.
  intros s Hs%elem_of_seq. unfold bellman_backup.
  apply Qcplus_le_compat; [apply Qcle_refl|]. apply Qc_sum_le.
  apply Forall2_same_length_lookup_2; [by rewrite !length_imap|].
  intros a x y Hx Hy. rewrite list_lookup_imap in Hx, Hy.
  destruct ((rows !!! s) !! a) as [p|] eqn:Hp; [|done].
  simpl in Hx, Hy. inversion Hx; inversion Hy; subst.
  assert (Hp0 : (0 ≤ p)%Qc).
  { destruct (lookup_lt_is_Some_2 rows s) as [row Hrow]; [lia|].
    rewrite (list_lookup_total_correct _ _ _ Hrow) in Hp.
    rewrite Forall_forall in Hrows.
    specialize (Hrows row (list_elem_of_lookup_2 _ _ _ Hrow)).
    rewrite Forall_forall in Hrows. apply Hrows.
    by eapply list_elem_of_lookup_2. }
  rewrite !(Qcmult_comm (p * γ)).
  apply Qcmult_le_compat_r; [by apply at0_le|].
  rewrite <- (Qcmult_0_l γ). by apply Qcmult_le_compat_r.
Qed.

(** X7. The evaluator is monotone: with a policy without negative entries
    and a discount factor that is not negative, a value function that is
    pointwise below another one gives a result that is pointwise below the
    other's result. *)
Theorem single_step_policy_evaluation_monotone
    policy env γ v1 v2 h ws rows vs1 vs2 :
  valid_env env →
  h !! policy = Some (Arr2 rows) → shaped_policy env rows →
  h !! v1 = Some (Arr1 vs1) → shaped_value env vs1 →
  h !! v2 = Some (Arr1 vs2) → shaped_value env vs2 →
  (0 ≤ γ)%Qc → Forall (Forall (λ p, (0 ≤ p)%Qc)) rows →
  value_le vs1 vs2 →
  ∃ l1 w1 news1 l2 w2 news2,
    single_step_policy_evaluation policy env γ (Some v1) (World h ws)
      = Ok l1 w1 ∧
    heap w1 !! l1 = Some (Arr1 news1) ∧
    single_step_policy_evaluation policy env γ (Some v2) (World h ws)
      = Ok l2 w2 ∧
    heap w2 !! l2 = Some (Arr1 news2) ∧
    value_le news1 news2.
Proof.
  intros Henv Hp Hshape Hv1 Hs1 Hv2 Hs2 Hγ Hrows Hle.
  exists (fresh (dom h)). eexists. exists (bellman_sweep env γ rows vs1).
  exists (fresh (dom h)). eexists. exists (bellman_sweep env γ rows vs2).
  split; [by apply evaluation_shaped|].
  split; [simpl; by rewrite lookup_insert_eq|].
  split; [by apply evaluation_shaped|].
  split; [simpl; by rewrite lookup_insert_eq|].
  apply bellman_sweep_mono; try done. by destruct Hshape.
Qed.

(** ** Repeated evaluation *)

Lemma evaluation_sweeps_from policy env rows ws :
  valid_env env → shaped_policy env rows →
  ∀ n j v h vs,
  h !! policy = Some (Arr2 rows) →
  h !! v = Some (Arr1 vs) → shaped_value env vs →
  ∃ l w',
    for_fold (seq j n) (λ k val_fun,
      single_step_policy_evaluation policy env 1%Qc (Some val_fun)) v
      (World h ws) = Ok l w' ∧
    heap w' !! l = Some (Arr1 (Nat.iter n (bellman_sweep env 1%Qc rows) vs)) ∧
    (∀ l' a, h !! l' = Some a → heap w' !! l' = Some a) ∧
    size (heap w') = n + size h ∧
    warnings_log w' = ws.
Proof.
  intros Henv Hshape. induction n as [|n IH]; intros j v h vs Hp Hv Hvs.
  - exists v, (World h ws). simpl. by split_and!.
  - simpl seq. simpl for_fold.
    erewrite bind_Ok; last by apply evaluation_shaped.
    set (l1 := fresh (dom h)).
    set (vs1 := bellman_sweep env 1%Qc rows vs).
    assert (Hf : h !! l1 = None) by apply fresh_not_allocated.
    destruct (IH (S j) l1 (<[l1 := Arr1 vs1]> h) vs1)
      as (l & w' & Hrun & Hval & Hframe & Hsize & Hlog).
    { rewrite lookup_insert_ne; [done|]. by eapply fresh_neq. }
    { by rewrite lookup_insert_eq. }
    { apply shaped_bellman_sweep. }
    exists l, w'. split; [exact Hrun|]. split_and!.
    + rewrite Hval. by rewrite Nat.iter_succ_r.
    + intros l' a Hl'. apply Hframe. rewrite lookup_insert_ne; [done|].
      intros <-. congruence.
    + rewrite Hsize, map_size_insert_None by done. lia.
    + done.
Qed.

(** X8. Lines 119 and 120 of the script: [sweeps] calls of the evaluator in a
    row return the [sweeps]-fold sweep of the value function they started
    from; every call allocates one array, and the policy and the arrays that
    were there before are left as they were. *)
Theorem evaluation_sweeps_iterate sweeps policy env val_fun h ws rows vs :
  valid_env env →
  h !! policy = Some (Arr2 rows) → shaped_policy env rows →
  h !! val_fun = Some (Arr1 vs) → shaped_value env vs →
  ∃ l w',
    evaluation_sweeps sweeps policy env val_fun (World h ws) = Ok l w' ∧
    heap w' !! l =
      Some (Arr1 (Nat.iter sweeps (bellman_sweep env 1%Qc rows) vs)) ∧
    (∀ l' a, h !! l' = Some a → heap w' !! l' = Some a) ∧
    size (heap w') = sweeps + size h ∧
    warnings_log w' = ws.
Proof.
  intros Henv Hp Hshape Hv Hvs. unfold evaluation_sweeps, range.
  by apply (evaluation_sweeps_from policy env rows ws Henv Hshape sweeps 0).
Qed.

(** ** The loops at a fixed point *)

Lemma foldl_Qc_max_zero (ds : list Qc) :
  Forall (λ d, d = 0%Qc) ds → foldl Qc_max 0%Qc ds = 0%Qc.
Proof.
  induction 1 as [|d ds -> _ IH]; [done|]. simpl.
  replace (Qc_max 0 0) with 0%Qc; [done|].
  unfold Qc_max. by case_decide.
Qed.

Lemma signed_delta_self (vs : list Qc) : signed_delta vs vs = 0%Qc.
Proof.
  unfold signed_delta.
  assert (Hz : Forall (λ d, d = 0%Qc) (zip_with Qcminus vs vs)).
  { apply Forall_forall. intros d [i Hi]%list_elem_of_lookup.
    apply lookup_zip_with_Some in Hi as (x & y & -> & Hx & Hy).
    rewrite Hx in Hy. inversion Hy; subst. ring. }
  destruct (zip_with Qcminus vs vs) as [|d ds]; [done|].
  apply Forall_cons in Hz as [-> Hz]. by apply foldl_Qc_max_zero.
Qed.

(** X9. Started from a value function that the sweep leaves unchanged, with a
    positive threshold, both loops return in their first iteration, whatever
    [max_steps] is: the value array returned holds the same values, no
    warning is logged, and the policy array holds the greedy rows. *)
Theorem iteration_at_fixed_point
    fuel policy env threshold max_steps kw v h ws rows vs :
  valid_env env → 0 < world_size env → 0 < action_space_n env →
  h !! policy = Some (Arr2 rows) → shaped_policy env rows →
  h !! v = Some (Arr1 vs) → shaped_value env vs →
  bellman_sweep env (discount_of kw) rows vs = vs →
  (0 < threshold)%Qc →
  let w' := World (<[policy := Arr2 (greedy_rows env (discount_of kw) rows vs)]>
                     (<[fresh (dom h) := Arr1 vs]> h)) ws in
  policy_iteration (S fuel) policy env (Some v) threshold max_steps kw
    (World h ws) = Ok (fresh (dom h), policy) w' ∧
  value_iteration (S fuel) policy env (Some v) threshold max_steps kw
    (World h ws) = Ok (fresh (dom h), policy) w'.
Proof.
  intros Henv HN HA Hp Hshape Hv Hvs Hfix Hthr w'.
  split.
  - unfold policy_iteration. erewrite bind_Ok; last reflexivity.
    rewrite (policy_iteration_loop_unfold fuel policy env threshold max_steps
               kw v 0 h ws rows vs) by done.
    rewrite Hfix, signed_delta_self. by rewrite decide_True.
  - unfold value_iteration. erewrite bind_Ok; last reflexivity.
    rewrite (value_iteration_loop_unfold fuel policy env threshold max_steps
               kw v 0 h ws rows vs) by done.
    rewrite Hfix, signed_delta_self. by rewrite decide_True.
Qed.

(** ** More on the improver *)

Lemma greedy_row_ext avs avs' :
  length avs = length avs' →
  (∀ a, attains_max avs a ↔ attains_max avs' a) →
  greedy_row avs = greedy_row avs'.
Proof.
  intros Hlen Hiff. unfold greedy_row.
  assert (Hset : max_set avs = max_set avs').
  { unfold max_set. rewrite Hlen. by apply list_filter_iff. }
  rewrite Hset, Hlen. apply list_fmap_ext. intros _ a _.
  specialize (Hiff a). repeat case_decide; (done || tauto).
Qed.

Lemma attains_max_scale (p : Qc) (qs : list Qc) a :
  (0 < p)%Qc →
  attains_max ((λ q, p * q)%Qc <$> qs) a ↔ attains_max qs a.
Proof.
  intros Hp. unfold attains_max. rewrite list_lookup_fmap.
  destruct (qs !! a) as [q|]; [simpl|done].
  rewrite Forall_fmap. apply Forall_iff. intros y. simpl.
  symmetry. by apply Qcmult_le_mono_pos_l.
Qed.

Lemma action_values_uniform_row env γ vs s (p : Qc) :
  action_values_of env γ (replicate (action_space_n env) p) vs s =
    (λ q, p * q)%Qc <$> step_returns env γ vs s.
Proof.
  unfold action_values_of, step_returns. rewrite <- list_fmap_compose.
  apply list_fmap_ext. intros _ a Ha%list_elem_of_lookup_2%elem_of_seq.
  simpl. unfold action_value, step_return, at0.
  rewrite lookup_replicate_2 by lia. done.
Qed.

(** X10. On a row that gives every action the same positive probability the
    improver is the textbook greedy step: the new row is uniform on the
    actions that maximise [reward(s,a) + discount * value[nextState(s,a)]]. *)
Theorem greedy_policy_on_uniform_row policy env vf γ h ws rows vs s p :
  valid_env env → 0 < action_space_n env →
  h !! policy = Some (Arr2 rows) → shaped_policy env rows →
  h !! vf = Some (Arr1 vs) → shaped_value env vs →
  rows !! s = Some (replicate (action_space_n env) p) → (0 < p)%Qc →
  ∃ w' out,
    greedy_policy_from_value_function policy env vf γ (World h ws)
      = Ok policy w' ∧
    heap w' !! policy = Some (Arr2 out) ∧
    out !! s = Some (greedy_row (step_returns env γ vs s)).
Proof.
  intros Henv HA Hp Hshape Hv Hvs Hrow Hpos.
  eexists. exists (greedy_rows env γ rows vs).
  split; [apply improvement_shaped; (done || by intros _)|].
  split; [simpl; by rewrite lookup_insert_eq|].
  assert (Hs : s < world_size env).
  { destruct Hshape as [<- _]. by eapply lookup_lt_Some. }
  rewrite (greedy_rows_lookup env γ rows vs s _ Hs Hrow). f_equal.
  rewrite action_values_uniform_row. apply greedy_row_ext.
  - by rewrite length_fmap.
  - intros a. by apply attains_max_scale.
Qed.

Lemma zero_action_value env γ row vs s a :
  row !! a = Some 0%Qc → action_value env γ row vs s a = 0%Qc.
Proof. intros H. unfold action_value, at0. rewrite H. simpl. ring. Qed.

Lemma attains_max_zero_actions env γ row vs s :
  length row = action_space_n env →
  Forall (λ p, (0 ≤ p)%Qc) row →
  zero_actions row ≠ [] →
  (∀ a p, row !! a = Some p → p ≠ 0%Qc →
          (step_return env γ vs s a < 0)%Qc) →
  ∀ a, attains_max (action_values_of env γ row vs s) a ↔ row !! a = Some 0%Qc.
Proof.
  intros Hlen Hnn Hz Hneg a.
  assert (Hval : ∀ b, b < action_space_n env →
    action_values_of env γ row vs s !! b = Some (action_value env γ row vs s b)).
  { intros b Hb. unfold action_values_of.
    by rewrite list_lookup_fmap, lookup_seq_lt. }
  assert (Hsign : ∀ b p, row !! b = Some p →
    (action_value env γ row vs s b ≤ 0)%Qc ∧
    (p ≠ 0%Qc → (action_value env γ row vs s b < 0)%Qc)).
  { intros b p Hb.
    assert (Hp0 : (0 ≤ p)%Qc).
    { rewrite Forall_forall in Hnn. apply Hnn. by eapply list_elem_of_lookup_2. }
    destruct (decide (p = 0%Qc)) as [->|Hne].
    - rewrite (zero_action_value env γ row vs s b Hb).
      split; [apply Qcle_refl|done].
    - assert (Hlt : (action_value env γ row vs s b < 0)%Qc).
      { assert (Hpos : (0 < p)%Qc).
        { apply Qcle_lt_or_eq in Hp0 as [|]; [done|congruence]. }
        pose proof (Hneg b p Hb Hne) as Hq.
        apply (Qcmult_lt_mono_pos_l _ _ p Hpos) in Hq.
        rewrite Qcmult_0_r in Hq.
        unfold action_value, at0 at 1. by rewrite Hb. }
      split; [by apply Qclt_le_weak|done]. }
  destruct (zero_actions row) as [|z zs] eqn:Hzs; [done|].
  assert (Hzin : z ∈ zero_actions row) by (rewrite Hzs; left).
  unfold zero_actions in Hzin. apply list_elem_of_filter in Hzin as [Hz0 Hzlt].
  apply elem_of_seq in Hzlt. rewrite Hlen in Hzlt.
  unfold attains_max. split.
  - destruct (action_values_of env γ row vs s !! a) as [x|] eqn:Ha; [|done].
    intros Hmax.
    assert (Halt : a < action_space_n env).
    { apply lookup_lt_Some in Ha. by rewrite length_action_values_of in Ha. }
    rewrite Hval in Ha by done. inversion Ha; subst x.
    destruct (lookup_lt_is_Some_2 row a) as [p Hpa]; [lia|].
    destruct (decide (p = 0%Qc)) as [->|Hne]; [done|].
    exfalso. destruct (Hsign a p Hpa) as [_ Hlt]. specialize (Hlt Hne).
    rewrite Forall_forall in Hmax.
    assert (Hin : action_value env γ row vs s z ∈ action_values_of env γ row vs s).
    { apply list_elem_of_lookup. exists z. apply Hval. lia. }
    apply Hmax in Hin. rewrite (zero_action_value env γ row vs s z Hz0) in Hin.
    by apply Qcle_not_lt in Hin.
  - intros Ha0.
    assert (Halt : a < action_space_n env).
    { rewrite <- Hlen. by eapply lookup_lt_Some. }
    rewrite Hval by done. rewrite (zero_action_value env γ row vs s a Ha0).
    apply Forall_forall. intros y [b Hb]%list_elem_of_lookup.
    assert (Hblt : b < action_space_n env).
    { apply lookup_lt_Some in Hb. by rewrite length_action_values_of in Hb. }
    rewrite Hval in Hb by done. inversion Hb; subst y.
    destruct (lookup_lt_is_Some_2 row b) as [p Hpb]; [lia|].
    by destruct (Hsign b p Hpb).
Qed.

(** X11. The improver weighs every return by the probability the policy
    gives to the action.  When every action that the policy can take has a
    negative return and the policy never takes some action, the new row is
    uniform on the actions the policy never took. *)
Theorem greedy_policy_prefers_untaken_actions
    policy env vf γ h ws rows vs s row :
  valid_env env → 0 < action_space_n env →
  h !! policy = Some (Arr2 rows) → shaped_policy env rows →
  h !! vf = Some (Arr1 vs) → shaped_value env vs →
  rows !! s = Some row →
  Forall (λ p, (0 ≤ p)%Qc) row →
  zero_actions row ≠ [] →
  (∀ a p, row !! a = Some p → p ≠ 0%Qc →
          (step_return env γ vs s a < 0)%Qc) →
  ∃ w' out,
    greedy_policy_from_value_function policy env vf γ (World h ws)
      = Ok policy w' ∧
    heap w' !! policy = Some (Arr2 out) ∧
    out !! s = Some (uniform_on (zero_actions row) (action_space_n env)).
Proof.
  intros Henv HA Hp Hshape Hv Hvs Hrow Hnn Hz Hneg.
  eexists. exists (greedy_rows env γ rows vs).
  split; [apply improvement_shaped; (done || by intros _)|].
  split; [simpl; by rewrite lookup_insert_eq|].
  assert (Hs : s < world_size env).
  { destruct Hshape as [<- _]. by eapply lookup_lt_Some. }
  pose proof (shaped_policy_row env rows s row Hshape Hrow) as Hlen.
  rewrite (greedy_rows_lookup env γ rows vs s _ Hs Hrow). f_equal.
  rewrite <- uniform_on_max_set, length_action_values_of. f_equal.
  unfold max_set, zero_actions.
  rewrite length_action_values_of, Hlen.
  apply list_filter_iff. by apply attains_max_zero_actions.
Qed.

(** ** What the loops return *)

Lemma greedy_rows_distributions env γ rows vs :
  shaped_policy env rows → 0 < action_space_n env →
  Forall distribution (greedy_rows env γ rows vs).
Proof.
  intros Hshape HA.
  destruct (shaped_greedy_rows env γ rows vs Hshape) as [Hlen _].
  apply Forall_lookup. intros s out_row Hs.
  assert (Hlt : s < world_size env).
  { rewrite <- Hlen. by eapply lookup_lt_Some. }
  destruct (lookup_lt_is_Some_2 rows s) as [row Hrow].
  { destruct Hshape as [-> _]. done. }
  rewrite (greedy_rows_lookup env γ rows vs s row Hlt Hrow) in Hs.
  inversion Hs; subst. apply greedy_row_distribution.
  intros Heq. apply (f_equal length) in Heq.
  rewrite length_action_values_of in Heq. simpl in Heq. lia.
Qed.

(** The pair that [policy_iteration] returns comes from one and the same
    iteration: the value array is the sweep of the policy [rows0] that the
    iteration started with, and the policy array holds the greedy rows that
    were computed from [rows0] and that value array. *)
Lemma policy_iteration_loop_result fuel policy env threshold max_steps kw :
  valid_env env → 0 < world_size env → 0 < action_space_n env →
  ∀ v k h ws rows vs,
  h !! policy = Some (Arr2 rows) → shaped_policy env rows →
  h !! v = Some (Arr1 vs) → shaped_value env vs →
  0 < fuel → (k + Z.of_nat fuel)%Z = max_steps →
  ∃ pv w' rows0 vs0,
    policy_iteration_loop fuel policy env threshold max_steps kw v k
      (World h ws) = Ok (pv, policy) w' ∧
    shaped_policy env rows0 ∧ shaped_value env vs0 ∧
    heap w' !! pv =
      Some (Arr1 (bellman_sweep env (discount_of kw) rows0 vs0)) ∧
    heap w' !! policy =
      Some (Arr2 (greedy_rows env (discount_of kw) rows0
                    (bellman_sweep env (discount_of kw) rows0 vs0))).
Proof.
  intros Henv HN HA.
  induction fuel as [|fuel IH]; intros v k h ws rows vs Hp Hshape Hv Hvs Hpos Hk;
    [lia|].
  rewrite (policy_iteration_loop_unfold fuel policy env threshold max_steps kw
             v k h ws rows vs) by done.
  set (pv := fresh (dom h)).
  set (news := bellman_sweep env (discount_of kw) rows vs).
  set (rows' := greedy_rows env (discount_of kw) rows news).
  assert (Hpp : pv ≠ policy) by (by eapply fresh_neq).
  assert (H1 : (<[policy := Arr2 rows']> (<[pv := Arr1 news]> h)) !! policy
               = Some (Arr2 rows')) by (by rewrite lookup_insert_eq).
  assert (H2 : (<[policy := Arr2 rows']> (<[pv := Arr1 news]> h)) !! pv
               = Some (Arr1 news)).
  { rewrite lookup_insert_ne by done. by rewrite lookup_insert_eq. }
  assert (H3 : shaped_policy env rows') by (by apply shaped_greedy_rows).
  assert (H4 : shaped_value env news) by apply shaped_bellman_sweep.
  case_decide; [|case_decide].
  - exists pv. eexists. exists rows, vs. by split_and!.
  - exists pv. eexists. exists rows, vs. by split_and!.
  - apply (IH pv (k + 1)%Z _ ws rows' news H1 H3 H2 H4); lia.
Qed.

(** X12. On well-shaped input and with [max_steps >= 1], [policy_iteration]
    returns a pair from one and the same iteration: the value array is one
    sweep under the policy [rows0] that this iteration started with, and the
    policy array holds the greedy rows computed from [rows0] and that value
    array; whatever the initial policy was, every row of the returned policy
    is a probability distribution. *)
Theorem policy_iteration_returns_consistent_pair
    policy env threshold max_steps kw v h ws rows vs :
  valid_env env → 0 < world_size env → 0 < action_space_n env →
  h !! policy = Some (Arr2 rows) → shaped_policy env rows →
  h !! v = Some (Arr1 vs) → shaped_value env vs →
  (1 ≤ max_steps)%Z →
  ∃ policy_value w' rows0 vs0 news out,
    policy_iteration (Z.to_nat max_steps) policy env (Some v) threshold
      max_steps kw (World h ws) = Ok (policy_value, policy) w' ∧
    shaped_policy env rows0 ∧ shaped_value env vs0 ∧
    news = bellman_sweep env (discount_of kw) rows0 vs0 ∧
    out = greedy_rows env (discount_of kw) rows0 news ∧
    heap w' !! policy_value = Some (Arr1 news) ∧
    heap w' !! policy = Some (Arr2 out) ∧
    shaped_policy env out ∧
    Forall distribution out.
Proof.
  intros Henv HN HA Hp Hshape Hv Hvs Hmax.
  destruct (policy_iteration_loop_result (Z.to_nat max_steps) policy env
              threshold max_steps kw Henv HN HA v 0%Z h ws rows vs
              Hp Hshape Hv Hvs)
    as (pv & w' & rows0 & vs0 & Hrun & Hs0 & Hv0 & Hpv & Hpol); [lia|lia|].
  exists pv, w', rows0, vs0. eexists. eexists.
  split; [exact Hrun|]. split_and!; try done.
  - by apply shaped_greedy_rows.
  - by apply greedy_rows_distributions.
Qed.

(** [value_iteration] sweeps with the policy it was given until it returns,
    and calls the improver at most once, in its last iteration. *)
Lemma value_iteration_loop_result fuel policy env threshold max_steps kw rows :
  valid_env env → 0 < world_size env → 0 < action_space_n env →
  shaped_policy env rows →
  ∀ v k h ws vs,
  h !! policy = Some (Arr2 rows) →
  h !! v = Some (Arr1 vs) → shaped_value env vs →
  0 < fuel → (k + Z.of_nat fuel)%Z = max_steps →
  ∃ n pv w',
    1 ≤ n ≤ fuel ∧
    value_iteration_loop fuel env threshold max_steps kw policy v k
      (World h ws) = Ok (pv, policy) w' ∧
    heap w' !! pv =
      Some (Arr1 (Nat.iter n (bellman_sweep env (discount_of kw) rows) vs)) ∧
    ((warnings_log w' = ws ∧
      heap w' !! policy =
        Some (Arr2 (greedy_rows env (discount_of kw) rows
                      (Nat.iter n (bellman_sweep env (discount_of kw) rows) vs))))
     ∨
     (warnings_log w' = ws ++ [value_iteration_warning max_steps] ∧
      n = fuel ∧
      heap w' !! policy = Some (Arr2 rows))).
Proof.
  intros Henv HN HA Hshape.
  induction fuel as [|fuel IH]; intros v k h ws vs Hp Hv Hvs Hpos Hk; [lia|].
  rewrite (value_iteration_loop_unfold fuel policy env threshold max_steps kw
             v k h ws rows vs) by done.
  set (pv := fresh (dom h)).
  set (news := bellman_sweep env (discount_of kw) rows vs).
  assert (Hpp : pv ≠ policy) by (by eapply fresh_neq).
  case_decide; [|case_decide].
  - exists 1, pv. eexists. split; [lia|]. split; [done|]. simpl.
    split.
    + rewrite lookup_insert_ne by done. by rewrite lookup_insert_eq.
    + left. by rewrite lookup_insert_eq.
  - exists 1, pv. eexists. split; [lia|]. split; [done|]. simpl.
    split; [by rewrite lookup_insert_eq|].
    right. split_and!; [done|lia|by rewrite lookup_insert_ne].
  - destruct (IH pv (k + 1)%Z (<[pv := Arr1 news]> h) ws news)
      as (n & pv' & w' & Hn & Hrun & Hval & Hcases).
    { by rewrite lookup_insert_ne. }
    { by rewrite lookup_insert_eq. }
    { apply shaped_bellman_sweep. }
    { lia. }
    { lia. }
    exists (S n), pv', w'. split; [lia|]. split; [exact Hrun|].
    rewrite Nat.iter_succ_r. fold news. split; [exact Hval|].
    destruct Hcases as [[Hlog Hpol]|(Hlog & -> & Hpol)]; [left|right]; done.
Qed.

(** X13. On well-shaped input and with [max_steps >= 1], [value_iteration]
    evaluates the policy it was given: the value array it returns is the
    [n]-fold sweep of the initial value function under the initial policy,
    for some [n] between 1 and [max_steps].  The improver runs at most once,
    in the last iteration: either no warning is logged and the policy array
    holds the greedy rows for the returned values, or the warning is logged
    after [max_steps] sweeps and the policy array is as it was. *)
Theorem value_iteration_evaluates_input_policy
    policy env threshold max_steps kw v h ws rows vs :
  valid_env env → 0 < world_size env → 0 < action_space_n env →
  h !! policy = Some (Arr2 rows) → shaped_policy env rows →
  h !! v = Some (Arr1 vs) → shaped_value env vs →
  (1 ≤ max_steps)%Z →
  ∃ n policy_value w',
    1 ≤ n ≤ Z.to_nat max_steps ∧
    value_iteration (Z.to_nat max_steps) policy env (Some v) threshold
      max_steps kw (World h ws) = Ok (policy_value, policy) w' ∧
    heap w' !! policy_value =
      Some (Arr1 (Nat.iter n (bellman_sweep env (discount_of kw) rows) vs)) ∧
    ((warnings_log w' = ws ∧
      heap w' !! policy =
        Some (Arr2 (greedy_rows env (discount_of kw) rows
                      (Nat.iter n (bellman_sweep env (discount_of kw) rows) vs))))
     ∨
     (warnings_log w' = ws ++ [value_iteration_warning max_steps] ∧
      n = Z.to_nat max_steps ∧
      heap w' !! policy = Some (Arr2 rows))).
Proof.
  intros Henv HN HA Hp Hshape Hv Hvs Hmax.
  apply (value_iteration_loop_result (Z.to_nat max_steps) policy env
           threshold max_steps kw rows Henv HN HA Hshape v 0%Z h ws vs);
    (done || lia).
Qed.

(** ** Faults *)

Lemma bind_Raise {A B} (m : M A) (k : A → M B) w e :
  m w = Raise e → (m ≫= k) w = Raise e.
Proof. intros H. rewrite bind_unfold. by rewrite H. Qed.

Lemma getitem1_IndexError h ws l xs i :
  h !! l = Some (Arr1 xs) → xs !! i = None →
  getitem1 l i (World h ws) = Raise IndexError.
Proof.
  intros Hl Hi. unfold getitem1.
  erewrite bind_Ok; last by apply load_Ok.
  unfold index. by rewrite Hi.
Qed.

(** The inner loop of the evaluator stops with an index fault at the first
    action whose next state is not an index of the value array. *)
Lemma eval_actions_fault env γ v v_new state h0 ws vs aps :
  v_new ≠ v → h0 !! v = Some (Arr1 vs) →
  Exists (λ ap, length vs ≤ next_state_of env state ap.1) aps →
  ∀ cur acc, cur !! state = Some acc →
  for_each aps (λ '(action, action_prob),
      let '(next_state, reward, done) := look_step_ahead env state action in
      x ← getitem1 v next_state;
      iadd1 v_new state (action_prob * (γ * x))%Qc)
    (World (<[v_new := Arr1 cur]> h0) ws) = Raise IndexError.
Proof.
  intros Hne Hv. induction aps as [|[a p] aps IH]; intros Hex cur acc Hacc.
  - by apply Exists_nil in Hex.
  - rewrite for_each_cons.
    destruct (decide (next_state_of env state a < length vs)) as [Hlt|Hge].
    + apply Exists_cons in Hex as [Hex|Hex]; [simpl in Hex; lia|].
      destruct (lookup_lt_is_Some_2 vs _ Hlt) as [x Hx].
      unfold next_state_of in Hx.
      erewrite bind_Ok; last first.
      { destruct (look_step_ahead env state a) as [[ns r] d]. simpl in Hx.
        erewrite bind_Ok; last first.
        { apply getitem1_Ok with (xs := vs); [|exact Hx].
          by rewrite lookup_insert_ne. }
        apply iadd1_Ok with (xs := cur); [|exact Hacc].
        by rewrite lookup_insert_eq. }
      rewrite insert_insert_eq.
      apply (IH Hex _ (acc + p * (γ * x))%Qc).
      apply list_lookup_insert_eq. by eapply lookup_lt_Some.
    + apply bind_Raise. unfold next_state_of in Hge.
      destruct (look_step_ahead env state a) as [[ns r] d]. simpl in Hge.
      apply bind_Raise. apply getitem1_IndexError with (xs := vs).
      * by rewrite lookup_insert_ne.
      * apply lookup_ge_None. lia.
Qed.

(** One iteration of the loop over the states, when no action of the state
    leads out of the value array. *)
Lemma eval_state_step env γ policy v v_new h0 ws rows vs k cur row :
  v_new ≠ v → v_new ≠ policy →
  h0 !! v = Some (Arr1 vs) → h0 !! policy = Some (Arr2 rows) →
  rows !! k = Some row → k < length (reward_matrix env) →
  cur !! k = Some 0%Qc →
  Forall (λ ap, next_state_of env k ap.1 < length vs) (enumerate row) →
  (r ← index (reward_matrix env) k;
   iadd1 v_new k r;;
   row ← getrow policy k;
   for_each (enumerate row) (λ '(action, action_prob),
     let '(next_state, reward, done) := look_step_ahead env k action in
     x ← getitem1 v next_state;
     iadd1 v_new k (action_prob * (γ * x))%Qc))
    (World (<[v_new := Arr1 cur]> h0) ws) =
  Ok tt (World (<[v_new := Arr1 (<[k := bellman_backup env γ row vs k]> cur)]> h0)
               ws).
Proof.
  intros Hv Hp Hhv Hhp Hrow Hk Hcur Hin.
  destruct (lookup_lt_is_Some_2 (reward_matrix env) k Hk) as [r Hr].
  erewrite bind_Ok; last by apply index_Ok.
  erewrite bind_Ok; last first.
  { apply iadd1_Ok with (xs := cur); [|exact Hcur].
    by rewrite lookup_insert_eq. }
  rewrite insert_insert_eq.
  erewrite bind_Ok; last first.
  { apply getrow_Ok with (rows := rows); [|exact Hrow].
    by rewrite lookup_insert_ne. }
  rewrite (eval_actions_Ok env γ v v_new k h0 ws vs (enumerate row)
             (<[k := (0 + r)%Qc]> cur) (0 + r)%Qc); try done.
  - rewrite list_insert_insert_eq. do 4 f_equal.
    rewrite <- code_backup_eq. unfold at0 at 2. by rewrite Hr.
  - apply list_lookup_insert_eq. by eapply lookup_lt_Some.
  - intros a p Hap. rewrite Forall_forall in Hin. apply (Hin (a, p) Hap).
Qed.

Lemma eval_states_fault env γ policy v v_new h0 ws rows vs :
  v_new ≠ v → v_new ≠ policy →
  h0 !! v = Some (Arr1 vs) → h0 !! policy = Some (Arr2 rows) →
  ∀ m k cur,
  k + m ≤ length rows → k + m ≤ length (reward_matrix env) →
  (∀ s, k ≤ s < k + m → cur !! s = Some 0%Qc) →
  Exists (λ s, Exists (λ ap, length vs ≤ next_state_of env s ap.1)
                      (enumerate (rows !!! s))) (seq k m) →
  for_each (seq k m) (λ state,
      r ← index (reward_matrix env) state;
      iadd1 v_new state r;;
      row ← getrow policy state;
      for_each (enumerate row) (λ '(action, action_prob),
        let '(next_state, reward, done) := look_step_ahead env state action in
        x ← getitem1 v next_state;
        iadd1 v_new state (action_prob * (γ * x))%Qc))
    (World (<[v_new := Arr1 cur]> h0) ws) = Raise IndexError.
Proof.
  intros Hv Hp Hhv Hhp. induction m as [|m IH]; intros k cur Hrows Hrew Hzero Hex.
  - by apply Exists_nil in Hex.
  - simpl seq in *. rewrite for_each_cons.
    destruct (lookup_lt_is_Some_2 rows k) as [row Hrow]; [lia|].
    pose proof (list_lookup_total_correct _ _ _ Hrow) as Htot.
    destruct (decide (Forall (λ ap, next_state_of env k ap.1 < length vs)
                             (enumerate row))) as [Hin|Hout].
    + apply Exists_cons in Hex as [Hex|Hex].
      { rewrite Htot in Hex. apply Exists_exists in Hex as (ap & Hap & Hge).
        rewrite Forall_forall in Hin. specialize (Hin ap Hap). lia. }
      erewrite bind_Ok; last first.
      { apply (eval_state_step env γ policy v v_new h0 ws rows vs k cur row);
          try done; [lia|apply Hzero; lia]. }
      apply IH; [lia|lia| |done].
      intros s Hs. rewrite list_lookup_insert_ne by lia. apply Hzero. lia.
    + apply bind_Raise.
      destruct (lookup_lt_is_Some_2 (reward_matrix env) k) as [r Hr]; [lia|].
      erewrite bind_Ok; last by apply index_Ok.
      erewrite bind_Ok; last first.
      { apply iadd1_Ok with (xs := cur); [|apply Hzero; lia].
        by rewrite lookup_insert_eq. }
      rewrite insert_insert_eq.
      erewrite bind_Ok; last first.
      { apply getrow_Ok with (rows := rows); [|exact Hrow].
        by rewrite lookup_insert_ne. }
      apply (eval_actions_fault env γ v v_new k h0 ws vs (enumerate row) Hv Hhv)
        with (acc := (0 + r)%Qc).
      * apply not_Forall_Exists in Hout; [|intros ap; apply _].
        eapply Exists_impl; [exact Hout|]. simpl. intros ap Hap. lia.
      * apply list_lookup_insert_eq.
        apply (lookup_lt_Some _ _ 0%Qc). apply Hzero. lia.
Qed.

(** X14. When the transition model leads some state, by an action that has an
    entry in the policy, to a next state that is not an index of the value
    function, the evaluator raises [IndexError]. *)
Theorem single_step_policy_evaluation_index_error
    policy env γ v h ws rows vs s a p :
  h !! policy = Some (Arr2 rows) → h !! v = Some (Arr1 vs) →
  length rows = world_size env →
  length (reward_matrix env) = world_size env →
  s < world_size env → (rows !!! s) !! a = Some p →
  length vs ≤ next_state_of env s a →
  single_step_policy_evaluation policy env γ (Some v) (World h ws)
    = Raise IndexError.
Proof.
  intros Hp Hv Hrows Hrew Hs Ha Hge.
  unfold single_step_policy_evaluation. simpl default_value_function.
  erewrite bind_Ok; last reflexivity.
  erewrite bind_Ok; last apply np_zeros_eq.
  apply bind_Raise.
  apply (eval_states_fault env γ policy v _ h ws rows vs);
    eauto using fresh_neq; try lia.
  - intros s' Hs'. apply lookup_replicate_2. lia.
  - apply Exists_exists. exists s. split; [apply elem_of_seq; lia|].
    apply Exists_exists. exists (a, p). split; [|done].
    unfold enumerate. by apply elem_of_lookup_imap_2.
Qed.

Lemma single_step_policy_evaluation_index_error_witness :
  single_step_policy_evaluation policy0 runaway 1%Qc (Some v0) store_one_cell
    = Raise IndexError.
Proof.
  apply (single_step_policy_evaluation_index_error policy0 runaway 1%Qc v0
           (heap store_one_cell) [] [[1%Qc]] [0%Qc] 0 0 1%Qc).
  - reflexivity.
  - reflexivity.
  - reflexivity.
  - reflexivity.
  - simpl. lia.
  - reflexivity.
  - unfold next_state_of. simpl. lia.
Defined.

(** X15. In a world with at least one cell and no action the improver raises
    [ValueError] ([np.amax] of an empty array), whatever the store holds. *)
Theorem greedy_policy_without_actions policy env vf γ w :
  0 < world_size env → action_space_n env = 0 →
  greedy_policy_from_value_function policy env vf γ w = Raise ValueError.
Proof.
  intros HN HA. unfold greedy_policy_from_value_function, range.
  rewrite HA. destruct (world_size env) as [|n]; [lia|].
  apply bind_Raise. simpl seq. rewrite for_each_cons.
  by apply bind_Raise.
Qed.

Lemma greedy_policy_without_actions_witness :
  greedy_policy_from_value_function policy0 no_actions v0 1%Qc store_one_cell
    = Raise ValueError.
Proof.
  apply (greedy_policy_without_actions policy0 no_actions v0 1%Qc
           store_one_cell).
  - simpl. lia.
  - reflexivity.
Defined.

(** X16. In a world without cells both loops, called without a value
    function, raise [ValueError] in their first iteration ([np.max] of an
    empty array), whatever the policy and the store. *)
Theorem iteration_on_empty_world fuel policy env threshold max_steps kw w :
  world_size env = 0 →
  policy_iteration (S fuel) policy env None threshold max_steps kw w
    = Raise ValueError ∧
  value_iteration (S fuel) policy env None threshold max_steps kw w
    = Raise ValueError.
Proof.
  intros HN. destruct w as [h ws].
  set (l0 := fresh (dom h)).
  set (h1 := <[l0 := Arr1 []]> h).
  set (l1 := fresh (dom h1)).
  set (h2 := <[l1 := Arr1 []]> h1).
  assert (Hne : l1 ≠ l0).
  { intros Heq. pose proof (fresh_not_allocated h1) as Hf. fold l1 in Hf.
    rewrite Heq in Hf. unfold h1 in Hf. by rewrite lookup_insert_eq in Hf. }
  assert (Heval : ∀ p, single_step_policy_evaluation p env (discount_of kw)
                         (Some l0) (World h1 ws) = Ok l1 (World h2 ws)).
  { intros p. unfold single_step_policy_evaluation, range. rewrite HN.
    reflexivity. }
  assert (Hdiff : np_max_diff l0 l1 (World h2 ws) = Raise ValueError).
  { unfold np_max_diff, load1.
    erewrite bind_Ok; last first.
    { erewrite bind_Ok; last first.
      { apply load_Ok. unfold h2, h1.
        rewrite lookup_insert_ne by done. apply lookup_insert_eq. }
      reflexivity. }
    erewrite bind_Ok; last first.
    { erewrite bind_Ok; last first.
      { apply load_Ok. unfold h2. apply lookup_insert_eq. }
      reflexivity. }
    reflexivity. }
  assert (Hdef : default_value_function env None (World h ws)
                 = Ok l0 (World h1 ws)).
  { unfold default_value_function. rewrite HN. reflexivity. }
  split.
  - unfold policy_iteration. erewrite bind_Ok; last exact Hdef.
    simpl policy_iteration_loop. apply bind_Raise.
    unfold policy_iteration_step.
    erewrite bind_Ok; last apply Heval. by apply bind_Raise.
  - unfold value_iteration. erewrite bind_Ok; last exact Hdef.
    simpl value_iteration_loop. apply bind_Raise.
    unfold value_iteration_sweep.
    erewrite bind_Ok; last apply Heval. by apply bind_Raise.
Qed.

Lemma iteration_on_empty_world_witness :
  policy_iteration 1 policy0 no_cells None default_threshold 10 None store0
    = Raise ValueError ∧
  value_iteration 1 policy0 no_cells None default_threshold 10 None store0
    = Raise ValueError.
Proof.
  apply (iteration_on_empty_world 0 policy0 no_cells default_threshold 10
           None store0).
  reflexivity.
Defined.

(** ** The log of warnings *)

Lemma keeps_log_ret {A} (a : A) : keeps_log (mret a : M A).
Proof. intros w a' w' H. by inversion H. Qed.

Lemma keeps_log_raise {A} e : keeps_log (raise e : M A).
Proof. intros w a w' [=]. Qed.

Lemma keeps_log_bind {A B} (m : M A) (k : A → M B) :
  keeps_log m → (∀ a, keeps_log (k a)) → keeps_log (m ≫= k).
Proof.
  intros Hm Hk w b w'. rewrite bind_unfold.
  destruct (m w) as [a w1| |] eqn:Hmw; [|done|done].
  intros Hkw. rewrite (Hk a w1 b w' Hkw). by eapply Hm.
Qed.

Lemma keeps_log_for_fold {A S} (xs : list A) (body : A → S → M S) s :
  (∀ x s, keeps_log (body x s)) → keeps_log (for_fold xs body s).
Proof.
  intros Hb. revert s. induction xs as [|x xs IH]; intros s; simpl.
  - apply keeps_log_ret.
  - apply keeps_log_bind; [apply Hb|apply IH].
Qed.

Lemma keeps_log_for_each {A} (xs : list A) (body : A → M unit) :
  (∀ x, keeps_log (body x)) → keeps_log (for_each xs body).
Proof. intros Hb. apply keeps_log_for_fold. intros x _. apply Hb. Qed.

Lemma keeps_log_load l : keeps_log (load l).
Proof.
  intros w a w'. unfold load. destruct (heap w !! l); [|done].
  intros H. by inversion H.
Qed.

Lemma keeps_log_store l a : keeps_log (store l a).
Proof. intros w u w' H. by inversion H. Qed.

Lemma keeps_log_index {A} (xs : list A) i : keeps_log (index xs i).
Proof.
  intros w a w'. unfold index. destruct (xs !! i); [|done].
  intros H. by inversion H.
Qed.

Lemma keeps_log_np_zeros n : keeps_log (np_zeros n).
Proof. intros w l w' H. by inversion H. Qed.

Create HintDb keeps_log discriminated.

#[local] Hint Resolve keeps_log_ret keeps_log_raise keeps_log_load
  keeps_log_store keeps_log_index keeps_log_np_zeros : keeps_log.

Ltac keeps_log_step :=
  match goal with
  | |- keeps_log (_ ≫= _) => apply keeps_log_bind; [|intros ?]
  | |- keeps_log (for_each _ _) => apply keeps_log_for_each; intros ?
  | |- keeps_log (for_fold _ _ _) => apply keeps_log_for_fold; intros ? ?
  | |- keeps_log (match ?x with _ => _ end) => destruct x
  | |- keeps_log (if ?x then _ else _) => destruct x
  | |- keeps_log _ => solve [auto with keeps_log]
  end.

Ltac keeps_log := repeat keeps_log_step.

Lemma keeps_log_getitem1 l i : keeps_log (getitem1 l i).
Proof. unfold getitem1. keeps_log. Qed.

Lemma keeps_log_iadd1 l i x : keeps_log (iadd1 l i x).
Proof. unfold iadd1. keeps_log. Qed.

Lemma keeps_log_getrow l i : keeps_log (getrow l i).
Proof. unfold getrow. keeps_log. Qed.

#[local] Hint Resolve keeps_log_getitem1 keeps_log_iadd1 keeps_log_getrow
  : keeps_log.

Lemma keeps_log_getitem2 l i j : keeps_log (getitem2 l i j).
Proof. unfold getitem2. keeps_log. Qed.

Lemma keeps_log_setrow l i new_row : keeps_log (setrow l i new_row).
Proof. unfold setrow. keeps_log. Qed.

Lemma keeps_log_np_amax xs : keeps_log (np_amax xs).
Proof. unfold np_amax. keeps_log. Qed.

Lemma keeps_log_np_sub xs ys : keeps_log (np_sub xs ys).
Proof. unfold np_sub. keeps_log. Qed.

Lemma keeps_log_load1 l : keeps_log (load1 l).
Proof. unfold load1. keeps_log. Qed.

#[local] Hint Resolve keeps_log_getitem2 keeps_log_setrow keeps_log_np_amax
  keeps_log_np_sub keeps_log_load1 : keeps_log.

Lemma keeps_log_np_max_diff v pv : keeps_log (np_max_diff v pv).
Proof. unfold np_max_diff. keeps_log. Qed.

Lemma keeps_log_default_value_function env vf :
  keeps_log (default_value_function env vf).
Proof. unfold default_value_function. keeps_log. Qed.

#[local] Hint Resolve keeps_log_np_max_diff keeps_log_default_value_function
  : keeps_log.

Lemma keeps_log_evaluation policy env γ vf :
  keeps_log (single_step_policy_evaluation policy env γ vf).
Proof. unfold single_step_policy_evaluation. keeps_log. Qed.

Lemma keeps_log_improvement policy env vf γ :
  keeps_log (greedy_policy_from_value_function policy env vf γ).
Proof. unfold greedy_policy_from_value_function. keeps_log. Qed.

Lemma keeps_log_policies_judged_equal l1 l2 :
  keeps_log (policies_judged_equal l1 l2).
Proof. unfold policies_judged_equal. keeps_log. Qed.

#[local] Hint Resolve keeps_log_evaluation keeps_log_improvement
  keeps_log_policies_judged_equal : keeps_log.

Lemma keeps_log_policy_iteration_step policy env kw v :
  keeps_log (policy_iteration_step policy env kw v).
Proof. unfold policy_iteration_step. keeps_log. Qed.

Lemma keeps_log_value_iteration_sweep policy env kw v :
  keeps_log (value_iteration_sweep policy env kw v).
Proof. unfold value_iteration_sweep. keeps_log. Qed.

(** With [max_steps < 1] the counter, which starts at 0 and only grows, never
    equals [max_steps]. *)
Lemma keeps_log_policy_iteration_loop fuel policy env threshold max_steps kw :
  (max_steps < 1)%Z →
  ∀ v k, (0 ≤ k)%Z →
  keeps_log (policy_iteration_loop fuel policy env threshold max_steps kw v k).
Proof.
  intros Hmax. induction fuel as [|fuel IH]; intros v k Hk.
  - intros w a w' [=].
  - simpl. apply keeps_log_bind; [apply keeps_log_policy_iteration_step|].
    intros [[pv delta] gp]. case_decide; [apply keeps_log_ret|].
    case_decide; [lia|]. apply IH. lia.
Qed.

Lemma keeps_log_value_iteration_loop fuel env threshold max_steps kw :
  (max_steps < 1)%Z →
  ∀ gp v k, (0 ≤ k)%Z →
  keeps_log (value_iteration_loop fuel env threshold max_steps kw gp v k).
Proof.
  intros Hmax. induction fuel as [|fuel IH]; intros gp v k Hk.
  - intros w a w' [=].
  - simpl. apply keeps_log_bind; [apply keeps_log_value_iteration_sweep|].
    intros [pv delta].
    assert (Hrest : ∀ gp', keeps_log (
      if decide ((k + 1)%Z = max_steps) then
        warn (value_iteration_warning max_steps);; mret (pv, gp')
      else value_iteration_loop fuel env threshold max_steps kw gp' pv (k + 1)%Z)).
    { intros gp'. case_decide; [lia|]. apply IH. lia. }
    destruct (decide (delta < threshold)%Qc) as [Hlt|Hge]; [|apply Hrest].
    apply keeps_log_bind; [apply keeps_log_improvement|]. intros np.
    apply keeps_log_bind; [apply keeps_log_policies_judged_equal|].
    intros [|]; [apply keeps_log_ret|apply Hrest].
Qed.

(** X17. With [max_steps] below 1 there is no step budget: the test
    [step_number == max_steps] never succeeds, so neither loop ever logs a
    warning; a run that returns has returned through the convergence test. *)
Theorem iteration_without_budget_never_warns
    fuel policy env value_function threshold max_steps kw w :
  (max_steps < 1)%Z →
  (∀ r w', policy_iteration fuel policy env value_function threshold
             max_steps kw w = Ok r w' →
           warnings_log w' = warnings_log w) ∧
  (∀ r w', value_iteration fuel policy env value_function threshold
             max_steps kw w = Ok r w' →
           warnings_log w' = warnings_log w).
Proof.
  intros Hmax. split.
  - assert (H : keeps_log (policy_iteration fuel policy env value_function
                             threshold max_steps kw)).
    { apply keeps_log_bind; [apply keeps_log_default_value_function|].
      intros v. by apply keeps_log_policy_iteration_loop. }
    apply H.
  - assert (H : keeps_log (value_iteration fuel policy env value_function
                             threshold max_steps kw)).
    { apply keeps_log_bind; [apply keeps_log_default_value_function|].
      intros v. by apply keeps_log_value_iteration_loop. }
    apply H.
Qed.

Lemma iteration_without_budget_never_warns_witness :
  (∀ r w', policy_iteration 3 policy0 corridor (Some v0) default_threshold
             0 None store2 = Ok r w' →
           warnings_log w' = warnings_log store2) ∧
  (∀ r w', value_iteration 3 policy0 corridor (Some v0) default_threshold
             0 None store2 = Ok r w' →
           warnings_log w' = warnings_log store2).
Proof.
  apply (iteration_without_budget_never_warns 3 policy0 corridor (Some v0)
           default_threshold 0 None store2).
  lia.
Defined.

(** ** The further properties on the corridor *)

Ltac holds := apply (bool_decide_unpack _); vm_compute; exact I.

Lemma policy_map_of_greedy_policy_witness :
  ∃ grid w',
    (policy1 ← greedy_policy_from_value_function policy0 corridor v0 1%Qc;
     get_policy_map (3, 1) policy1) store1 = Ok grid w' ∧
    ∀ s row, uniform_policy !! s = Some row →
      ∃ a, grid_cell 1 grid s = Some a ∧
           a < action_space_n corridor ∧
           attains_max (action_values_of corridor 1%Qc row uniform_value s) a ∧
           ∀ a', a' < a →
             ¬ attains_max (action_values_of corridor 1%Qc row uniform_value s) a'.
Proof.
  apply (policy_map_of_greedy_policy 3 1 policy0 corridor v0 1%Qc
           (heap store1) [] uniform_policy uniform_value).
  - holds.
  - simpl. lia.
  - reflexivity.
  - lia.
  - reflexivity.
  - holds.
  - reflexivity.
  - reflexivity.
Defined.

Lemma single_step_policy_evaluation_monotone_witness :
  ∃ l1 w1 news1 l2 w2 news2,
    single_step_policy_evaluation policy0 corridor 1%Qc (Some v0) store3
      = Ok l1 w1 ∧
    heap w1 !! l1 = Some (Arr1 news1) ∧
    single_step_policy_evaluation policy0 corridor 1%Qc (Some 3%positive) store3
      = Ok l2 w2 ∧
    heap w2 !! l2 = Some (Arr1 news2) ∧
    value_le news1 news2.
Proof.
  apply (single_step_policy_evaluation_monotone policy0 corridor 1%Qc v0
           3%positive (heap store3) [] uniform_policy uniform_value
           [0; 0; 0]%Qc).
  - holds.
  - reflexivity.
  - holds.
  - reflexivity.
  - reflexivity.
  - reflexivity.
  - reflexivity.
  - holds.
  - holds.
  - holds.
Defined.

Lemma evaluation_sweeps_iterate_witness :
  ∃ l w',
    evaluation_sweeps 500 policy0 corridor v0 store0 = Ok l w' ∧
    heap w' !! l =
      Some (Arr1 (Nat.iter 500 (bellman_sweep corridor 1%Qc uniform_policy)
                    [0; 0; 0]%Qc)) ∧
    (∀ l' a, heap store0 !! l' = Some a → heap w' !! l' = Some a) ∧
    size (heap w') = 500 + size (heap store0) ∧
    warnings_log w' = [].
Proof.
  apply (evaluation_sweeps_iterate 500 policy0 corridor v0 (heap store0) []
           uniform_policy [0; 0; 0]%Qc).
  - holds.
  - reflexivity.
  - holds.
  - reflexivity.
  - reflexivity.
Defined.

Lemma iteration_at_fixed_point_witness :
  policy_iteration 1 policy0 corridor (Some v0) default_threshold 1000 None
    store1 =
    Ok (fresh (dom (heap store1)), policy0)
       (World (<[policy0 := Arr2 (greedy_rows corridor 1%Qc uniform_policy
                                    uniform_value)]>
                 (<[fresh (dom (heap store1)) := Arr1 uniform_value]>
                    (heap store1))) []) ∧
  value_iteration 1 policy0 corridor (Some v0) default_threshold 1000 None
    store1 =
    Ok (fresh (dom (heap store1)), policy0)
       (World (<[policy0 := Arr2 (greedy_rows corridor 1%Qc uniform_policy
                                    uniform_value)]>
                 (<[fresh (dom (heap store1)) := Arr1 uniform_value]>
                    (heap store1))) []).
Proof.
  apply (iteration_at_fixed_point 0 policy0 corridor default_threshold 1000
           None v0 (heap store1) [] uniform_policy uniform_value).
  - holds.
  - simpl. lia.
  - simpl. lia.
  - reflexivity.
  - holds.
  - reflexivity.
  - reflexivity.
  - holds.
  - holds.
Defined.

Lemma greedy_policy_on_uniform_row_witness :
  ∃ w' out,
    greedy_policy_from_value_function policy0 corridor v0 1%Qc store1
      = Ok policy0 w' ∧
    heap w' !! policy0 = Some (Arr2 out) ∧
    out !! 1 = Some (greedy_row (step_returns corridor 1%Qc uniform_value 1)).
Proof.
  apply (greedy_policy_on_uniform_row policy0 corridor v0 1%Qc (heap store1)
           [] uniform_policy uniform_value 1 half).
  - holds.
  - simpl. lia.
  - reflexivity.
  - holds.
  - reflexivity.
  - reflexivity.
  - reflexivity.
  - holds.
Defined.

Lemma greedy_policy_prefers_untaken_actions_witness :
  ∃ w' out,
    greedy_policy_from_value_function policy0 corridor v0 1%Qc store4
      = Ok policy0 w' ∧
    heap w' !! policy0 = Some (Arr2 out) ∧
    out !! 0 = Some (uniform_on (zero_actions [0; 1]%Qc)
                                (action_space_n corridor)).
Proof.
  apply (greedy_policy_prefers_untaken_actions policy0 corridor v0 1%Qc
           (heap store4) [] right_policy uniform_value 0 [0; 1]%Qc).
  - holds.
  - simpl. lia.
  - reflexivity.
  - holds.
  - reflexivity.
  - reflexivity.
  - reflexivity.
  - holds.
  - holds.
  - intros a p Ha Hp. destruct a as [|[|a]].
    + inversion Ha; subst. done.
    + holds.
    + discriminate Ha.
Defined.

Lemma policy_iteration_returns_consistent_pair_witness :
  ∃ policy_value w' rows0 vs0 news out,
    policy_iteration (Z.to_nat 5) policy0 corridor (Some v0)
      default_threshold 5 None store0 = Ok (policy_value, policy0) w' ∧
    shaped_policy corridor rows0 ∧ shaped_value corridor vs0 ∧
    news = bellman_sweep corridor 1%Qc rows0 vs0 ∧
    out = greedy_rows corridor 1%Qc rows0 news ∧
    heap w' !! policy_value = Some (Arr1 news) ∧
    heap w' !! policy0 = Some (Arr2 out) ∧
    shaped_policy corridor out ∧
    Forall distribution out.
Proof.
  apply (policy_iteration_returns_consistent_pair policy0 corridor
           default_threshold 5 None v0 (heap store0) [] uniform_policy
           [0; 0; 0]%Qc).
  - holds.
  - simpl. lia.
  - simpl. lia.
  - reflexivity.
  - holds.
  - reflexivity.
  - reflexivity.
  - lia.
Defined.

Lemma value_iteration_evaluates_input_policy_witness :
  ∃ n policy_value w',
    1 ≤ n ≤ Z.to_nat 5 ∧
    value_iteration (Z.to_nat 5) policy0 corridor (Some v0) default_threshold
      5 None store0 = Ok (policy_value, policy0) w' ∧
    heap w' !! policy_value =
      Some (Arr1 (Nat.iter n (bellman_sweep corridor 1%Qc uniform_policy)
                    [0; 0; 0]%Qc)) ∧
    ((warnings_log w' = [] ∧
      heap w' !! policy0 =
        Some (Arr2 (greedy_rows corridor 1%Qc uniform_policy
                      (Nat.iter n (bellman_sweep corridor 1%Qc uniform_policy)
                         [0; 0; 0]%Qc))))
     ∨
     (warnings_log w' = [] ++ [value_iteration_warning 5] ∧
      n = Z.to_nat 5 ∧
      heap w' !! policy0 = Some (Arr2 uniform_policy))).
Proof.
  apply (value_iteration_evaluates_input_policy policy0 corridor
           default_threshold 5 None v0 (heap store0) [] uniform_policy
           [0; 0; 0]%Qc).
  - holds.
  - simpl. lia.
  - simpl. lia.
  - reflexivity.
  - holds.
  - reflexivity.
  - reflexivity.
  - lia.
Defined.

(** Six states on a grid of shape [(2, 3)]: the states 0, 1, 2 fill the first
    column from the bottom up, the states 3, 4, 5 the second. *)
Example reshape_as_gridworld_two_by_three :
  reshape_as_gridworld (2, 3) [0; 1; 2; 3; 4; 5] store0 =
    Ok [[2; 5]; [1; 4]; [0; 3]] store0.
Proof. reflexivity. Qed.

(** The map of the policy that moves right, on a grid of shape [(3, 1)]; in
    the terminal cell both actions tie and the first one is shown. *)
Example get_policy_map_right_policy :
  get_policy_map (3, 1) policy0 store4 = Ok [[1; 1; 0]] store4.
Proof. run. Qed.

(** Seven entries do not fit a grid of shape [(2, 3)]. *)
Example reshape_as_gridworld_wrong_size :
  reshape_as_gridworld (2, 3) [0; 1; 2; 3; 4; 5; 6] store0 = Raise ValueError.
Proof. reflexivity. Qed.
